(** * Product-area classification and source-reference extraction

    A shallow embedding of [detect_product_area], [extract_sources] and
    [_get_context_for_match] of [app/server.py], together with the part of
    Python's [re] and [str] that these three functions call.

    Conventions of the embedding.
    - A character is its code point, a natural number, and a Python [str] is
      the list of its characters.
    - The character tables of the interpreter ([str.isspace], [\w], [\d],
      the lower case of a character) are written out for the ASCII
      characters.  For all other characters they are the fields of the class
      [Unicode]: every definition that consults them takes the tables as a
      parameter, and every theorem holds for all tables.  Of the tables the
      class only asks that lower case brings no line break, and that a
      decimal digit has a value below ten and is no blank.
      [unicode_sample] holds some rows of the tables, for the examples.
    - A compiled pattern is a term of [re] with its [IGNORECASE] flag.  The
      matcher is the backtracking one of [re]: alternatives are tried left to
      right, quantifiers are greedy, and the first success wins.
    - [ref_text in r["url"]] raises [TypeError] when the url is [None]; the
      extractor therefore lives in the [result] monad.

    The development also covers, of [app/server.py]: the choice of the chat
    provider and of the Ollama model, the titles of pages, investigations
    and archived tickets, the search of the markdown files, the lists of
    investigations and of archive months with their ordering, the product
    areas offered by the two list pages, the navigation between
    investigations, the [.env] file and the summary inserted into an
    archived ticket; of [app/tools.py]: [search_workspace] and
    [_extract_adf_text]; of the scripts: [load_env], [extract_text] and the
    archive folder of an issue.  What these functions read from the disk or
    from the network is an argument of their model: the entries of a
    directory in the order of [iterdir], the text of a file or the failure
    to read it, the values that [json.loads] returns. *)

From Stdlib Require Import Ascii String SpecFloat.
From stdpp Require Import base option list sorting gmap strings.

Set Default Proof Using "Type".
Local Open Scope nat_scope.

(** ** Characters and strings *)

Abbreviation str := (list N).

(** ["c"%ch] is the code point of the ASCII character [c]. *)
Definition char_of_bytes (bs : list Byte.byte) : option N :=
  match bs with
  | [b] => Some (Byte.to_N b)
  | _ => None
  end.

Definition bytes_of_char (c : N) : option (list Byte.byte) := None.

Declare Scope char_code_scope.
Delimit Scope char_code_scope with ch.
String Notation N char_of_bytes bytes_of_char : char_code_scope.

Abbreviation newline := 10%N.

(** A Python string literal; the literals of the program are ASCII. *)
Definition lit (s : string) : str := N_of_ascii <$> list_ascii_of_string s.

(** The tables of the interpreter for the characters that are not ASCII:
    they are those of the Unicode database the interpreter was built with.
    The model consults them for characters from 128 on only. *)
Class Unicode := {
  (** [Py_UNICODE_ISSPACE], behind [str.isspace], [str.strip] and [\s] *)
  uni_isspace : N -> bool;
  (** [Py_UNICODE_ISALNUM], behind [\w] and [\b] *)
  uni_isalnum : N -> bool;
  (** [Py_UNICODE_TODECIMAL], the value of a decimal digit, behind [\d] and
      [int] *)
  uni_decimal : N -> option N;
  (** the lower case of a character as [re.IGNORECASE] takes it: a single
      character *)
  uni_tolower : N -> N;
  (** [_ignorecase_fixes] of [re]: the characters that match a lower-case
      letter of a pattern besides those whose lower case it is *)
  uni_fixes : N -> list N;
  (** the lower case of a character in [str.lower], up to three characters,
      and the two properties that decide on the final sigma *)
  uni_lower : N -> list N;
  uni_cased : N -> bool;
  uni_case_ignorable : N -> bool;
  (** lower case never brings a line break *)
  uni_lower_line : forall c, (128 <= c)%N -> newline ∉ uni_lower c;
  (** a decimal digit has a value from 0 to 9 and is no blank *)
  uni_decimal_value : forall c d, uni_decimal c = Some d -> (d <= 9)%N;
  uni_decimal_space : forall c d, uni_decimal c = Some d -> uni_isspace c = false
}.

Module Chars.

Definition is_ascii (c : N) : bool := (c <? 128)%N.

(** The rows of the tables for the ASCII characters. *)
Definition ascii_space (c : N) : bool :=
  ((9 <=? c) && (c <=? 13) || (28 <=? c) && (c <=? 32))%N.

Definition ascii_digit (c : N) : bool := ((48 <=? c) && (c <=? 57))%N.

Definition is_upper (c : N) : bool := ((65 <=? c) && (c <=? 90))%N.

Definition is_lower (c : N) : bool := ((97 <=? c) && (c <=? 122))%N.

Definition is_letter (c : N) : bool := is_upper c || is_lower c.

(** The lower case of an ASCII character. *)
Definition lower (c : N) : N := if is_upper c then (c + 32)%N else c.

Section Tables.
Context {U : Unicode}.

(** [str.isspace] on one character; this is also the class [\s]. *)
Definition is_space (c : N) : bool :=
  if is_ascii c then ascii_space c else uni_isspace c.

(** The value of a decimal digit. *)
Definition decimal (c : N) : option N :=
  if is_ascii c then (if ascii_digit c then Some (c - 48)%N else None)
  else uni_decimal c.

(** The class [\d]. *)
Definition is_digit (c : N) : bool :=
  match decimal c with
  | Some _ => true
  | None => false
  end.

(** The class [\w]. *)
Definition is_word (c : N) : bool :=
  if is_ascii c then ascii_digit c || is_letter c || (c =? "_"%ch)%N
  else uni_isalnum c.

(** The lower case that [re.IGNORECASE] compares. *)
Definition tolower (c : N) : N := if is_ascii c then lower c else uni_tolower c.

(** Comparison of a character [p] of a pattern with a character [c] of the
    text; the characters of the program's patterns are ASCII.  Under
    [IGNORECASE] a letter is compiled to its lower case [lo], and it matches
    the characters whose lower case is [lo] or one of [_ignorecase_fixes]
    for [lo]; the characters that the fixes add to an ASCII letter are not
    ASCII themselves.  Any other character of a pattern matches itself. *)
Definition same (icase : bool) (p : ascii) (c : N) : bool :=
  let p := N_of_ascii p in
  if icase && is_letter p then
    let lo := lower p in
    let l := tolower c in
    (l =? lo)%N || negb (is_ascii l) && existsb (N.eqb l) (uni_fixes lo)
  else (c =? p)%N.

End Tables.

End Chars.

(** ** Python's [str] methods used by the program *)

Module Str.

Fixpoint startswith (s prefix : str) : bool :=
  match prefix, s with
  | [], _ => true
  | _ :: _, [] => false
  | p :: prefix', c :: s' => N.eqb p c && startswith s' prefix'
  end.

(** [needle in s]. *)
Fixpoint contains (needle s : str) : bool :=
  startswith s needle ||
  match s with
  | [] => false
  | _ :: s' => contains needle s'
  end.

(** [s[a:b]] for [0 <= a]. *)
Definition slice (s : str) (a b : nat) : str := take (b - a) (drop a s).

(** [s.split("\n")]. *)
Fixpoint split_lines (s : str) : list str :=
  match s with
  | [] => [[]]
  | c :: s' =>
      if N.eqb c newline then [] :: split_lines s'
      else match split_lines s' with
           | [] => [[c]]
           | l :: ls => (c :: l) :: ls
           end
  end.

Fixpoint lstrip_by (f : N -> bool) (s : str) : str :=
  match s with
  | [] => []
  | c :: s' => if f c then lstrip_by f s' else s
  end.

Definition rstrip_by (f : N -> bool) (s : str) : str :=
  reverse (lstrip_by f (reverse s)).

Definition strip_by (f : N -> bool) (s : str) : str :=
  rstrip_by f (lstrip_by f s).

(** [c in chars], for the argument of [strip] and [rstrip]. *)
Definition among (chars : str) (c : N) : bool :=
  existsb (N.eqb c) chars.

(** [s.strip()]. *)
Definition strip {U : Unicode} (s : str) : str := strip_by Chars.is_space s.

(** [s.replace(old, "")]: the occurrences of [old] are deleted in one pass
    from the left; [skip] counts the characters of the occurrence being
    deleted that are still to be dropped. *)
Fixpoint remove_from (old s : str) (skip : nat) : str :=
  match s with
  | [] => []
  | c :: s' =>
      match skip with
      | S k => remove_from old s' k
      | O => if startswith s old then remove_from old s' (length old - 1)
             else c :: remove_from old s' 0
      end
  end.

Definition remove (old s : str) : str :=
  match old with
  | [] => s
  | _ :: _ => remove_from old s 0
  end.

End Str.

(** ** Python's [re]: patterns, the backtracking matcher, [search],
       [finditer] and [sub] *)

Module Re.

(** An item of a bracketed class. *)
Inductive citem :=
| IWord                (* \w *)
| ISpace               (* \s *)
| IDigit               (* \d *)
| IChar (c : ascii).

(** A one-character matcher: a (possibly negated) class, or [.]. *)
Inductive cset :=
| CSet (negated : bool) (items : list citem)
| CDot.

(** The pattern language of the program.  Every [*], [+] and [{2,}] of the
    program's patterns is applied to a one-character matcher, which is what
    [Star] takes. *)
Inductive re :=
| Eps
| One (s : cset)
| Star (s : cset)
| Seq (a b : re)
| Alt (a b : re)
| Bnd                  (* \b *)
| Eos                  (* $ *)
| Grp (n : nat) (a : re).

Record pattern := Pattern { pat_re : re; pat_icase : bool }.

(** [$] without [MULTILINE]: the end of the text, or just before a final
    newline. *)
Definition at_end (t : str) (i : nat) : bool :=
  (i =? length t) ||
  ((S i =? length t) && bool_decide (t !! i = Some newline)).

(** Closed groups, the most recently closed first: group number, start and
    end. *)
Abbreviation caps := (list (nat * (nat * nat))).

(** A match object. *)
Record mobj := Match { m_start : nat; m_end : nat; m_caps : caps }.

Section Matcher.
Context {U : Unicode}.

(** The items of a class are tested on the character itself: no class of
    the program's patterns that is compiled with [IGNORECASE] has a letter
    among its items, and a single character is compared by [Chars.same]. *)
Definition item_has (icase : bool) (it : citem) (c : N) : bool :=
  match it with
  | IWord => Chars.is_word c
  | ISpace => Chars.is_space c
  | IDigit => Chars.is_digit c
  | IChar x => Chars.same icase x c
  end.

Definition cset_has (icase : bool) (s : cset) (c : N) : bool :=
  match s with
  | CSet neg items => xorb neg (existsb (fun it => item_has icase it c) items)
  | CDot => negb (N.eqb c newline)
  end.

(** Length of the longest prefix of [s] made of characters of the class. *)
Fixpoint run (icase : bool) (cs : cset) (s : str) : nat :=
  match s with
  | [] => 0
  | c :: s' => if cset_has icase cs c then S (run icase cs s') else 0
  end.

Definition word_at (t : str) (i : nat) : bool :=
  match t !! i with
  | Some c => Chars.is_word c
  | None => false
  end.

(** [\b] holds at [i] when exactly one of the two neighbours is a word
    character. *)
Definition boundary (t : str) (i : nat) : bool :=
  xorb (match i with O => false | S j => word_at t j end) (word_at t i).

(** All the ways [r] matches [t] from position [i], in the order in which
    a backtracking matcher meets them: each is the end position and the
    groups closed on the way. *)
Fixpoint matches (icase : bool) (t : str) (r : re) (i : nat) (cs : caps)
  : list (nat * caps) :=
  match r with
  | Eps => [(i, cs)]
  | One s =>
      match t !! i with
      | Some c => if cset_has icase s c then [(S i, cs)] else []
      | None => []
      end
  | Star s =>
      (fun k => (i + k, cs)) <$> reverse (seq 0 (S (run icase s (drop i t))))
  | Seq a b =>
      '(j, cs') ← matches icase t a i cs; matches icase t b j cs'
  | Alt a b => matches icase t a i cs ++ matches icase t b i cs
  | Bnd => if boundary t i then [(i, cs)] else []
  | Eos => if at_end t i then [(i, cs)] else []
  | Grp n a =>
      (fun '(j, cs') => (j, (n, (i, j)) :: cs')) <$> matches icase t a i cs
  end.

(** [pattern.match(t, i)]: the first success of the matcher at [i]. *)
Definition match_at (p : pattern) (t : str) (i : nat) : option mobj :=
  match matches (pat_icase p) t (pat_re p) i [] with
  | [] => None
  | (j, cs) :: _ => Some (Match i j cs)
  end.

(** [pattern.search(t)]: the match at the leftmost position that has one. *)
Fixpoint search_in (p : pattern) (t : str) (starts : list nat) : option mobj :=
  match starts with
  | [] => None
  | i :: starts' =>
      match match_at p t i with
      | Some mo => Some mo
      | None => search_in p t starts'
      end
  end.

Definition search (p : pattern) (t : str) : option mobj :=
  search_in p t (seq 0 (S (length t))).

(** [pattern.finditer(t)]: the scan goes through the start positions from
    left to right and skips those before [next], the end of the previous
    match.  (After an empty match the scan moves one character on; no
    pattern of the program that is scanned matches the empty string, see
    [scanned_patterns_advance].) *)
Fixpoint finditer_in (p : pattern) (t : str) (starts : list nat) (next : nat)
  : list mobj :=
  match starts with
  | [] => []
  | i :: starts' =>
      if i <? next then finditer_in p t starts' next
      else match match_at p t i with
           | Some mo => mo :: finditer_in p t starts' (m_end mo `max` S i)
           | None => finditer_in p t starts' next
           end
  end.

Definition finditer (p : pattern) (t : str) : list mobj :=
  finditer_in p t (seq 0 (S (length t))) 0.

End Matcher.

(** [match.group(0)]. *)
Definition group0 (t : str) (mo : mobj) : str :=
  Str.slice t (m_start mo) (m_end mo).

Fixpoint assoc (n : nat) (cs : caps) : option (nat * nat) :=
  match cs with
  | [] => None
  | (k, span) :: cs' => if k =? n then Some span else assoc n cs'
  end.

(** [match.group(n)] for [n >= 1]; [None] when the group took no part. *)
Definition group (t : str) (mo : mobj) (n : nat) : option str :=
  (fun '(a, b) => Str.slice t a b) <$> assoc n (m_caps mo).

(** [match.lastindex]. *)
Definition lastindex (mo : mobj) : option nat :=
  match m_caps mo with
  | [] => None
  | (k, _) :: _ => Some k
  end.

(** [pattern.sub(repl, t)], the replacement being a function of the match:
    the text between the matches is kept, each match is replaced. *)
Fixpoint splice (t : str) (repl : mobj -> str) (ms : list mobj) (from : nat)
  : str :=
  match ms with
  | [] => drop from t
  | mo :: ms' =>
      Str.slice t from (m_start mo) ++ repl mo ++ splice t repl ms' (m_end mo)
  end.

Definition sub {U : Unicode} (p : pattern) (repl : mobj -> str) (t : str) : str :=
  splice t repl (finditer p t) 0.

(** The least number of characters a match of [r] takes. *)
Fixpoint min_len (r : re) : nat :=
  match r with
  | One _ => 1
  | Seq a b => min_len a + min_len b
  | Alt a b => min_len a `min` min_len b
  | Grp _ a => min_len a
  | Eps | Star _ | Bnd | Eos => 0
  end.

(** *** Writing patterns *)

Definition chr (c : ascii) : re := One (CSet false [IChar c]).

(** A run of literal characters. *)
Definition txt (s : string) : re :=
  foldr (fun c r => Seq (chr c) r) Eps (list_ascii_of_string s).

Definition cat (rs : list re) : re := foldr Seq Eps rs.
Definition alt (rs : list re) : re :=
  match rs with
  | [] => Eps
  | r :: rs' => foldl Alt r rs'
  end.
(** [x?], [x+] and [x{2,}], greedy. *)
Definition opt (r : re) : re := Alt r Eps.
Definition plus (s : cset) : re := Seq (One s) (Star s).
Definition two_or_more (s : cset) : re := Seq (One s) (Seq (One s) (Star s)).

Definition cls (items : list citem) : cset := CSet false items.
Definition ncls (items : list citem) : cset := CSet true items.
Definition chars (s : string) : list citem := IChar <$> list_ascii_of_string s.

Definition ws : re := Star (cls [ISpace]).            (* \s* *)
Definition any : re := Star CDot.                     (* .* *)

End Re.

Import Re.
(** ** Exceptions *)

(** The exception of the extractor and of the readers of Atlassian
    documents, and the monad of computations that may raise it. *)
Inductive exn := TypeError.

Inductive result (A : Type) :=
| Ok (a : A)
| Raise (e : exn).
Arguments Ok {A} a.
Arguments Raise {A} e.

#[global] Instance result_ret : MRet result := fun A a => Ok a.
#[global] Instance result_bind : MBind result := fun A B f m =>
  match m with
  | Ok a => f a
  | Raise e => Raise e
  end.
#[global] Instance result_fmap : FMap result := fun A B f m =>
  match m with
  | Ok a => Ok (f a)
  | Raise e => Raise e
  end.

(** ** The product-area taxonomy *)

(** A row of [_COMPILED_AREA_RULES]: [(key, label, group, patterns)]. *)
Record area_rule := AreaRule {
  area_key : string;
  area_label : string;
  area_group : option string;
  area_patterns : list pattern
}.

(** [re.compile(p, re.IGNORECASE)] of a pattern written as a sequence. *)
Definition compile_i (rs : list re) : pattern := Pattern (cat rs) true.
(** [re.compile(p)]. *)
Definition compile (rs : list re) : pattern := Pattern (cat rs) false.

(** [[- ]] *)
Definition dash_or_space : re := One (cls (chars "- ")).

Definition PRODUCT_AREA_RULES : list area_rule := [
  (* -- Threat Management -- *)
  AreaRule "siem" "Cloud SIEM" (Some "threat_management") [
    compile_i [Bnd; txt "cloud"; ws; txt "siem"; Bnd];             (* \bcloud\s*siem\b *)
    compile_i [Bnd; txt "siem"; Bnd];                            (* \bsiem\b *)
    compile_i [Bnd; txt "detection"; ws; txt "rule"];            (* \bdetection\s*rule *)
    compile_i [Bnd; txt "security"; ws; txt "signal"];           (* \bsecurity\s*signal *)
    compile_i [Bnd; txt "content"; ws; txt "pack"];              (* \bcontent\s*pack *)
    compile_i [Bnd; txt "log"; ws; txt "detection"];             (* \blog\s*detection *)
    compile_i [Bnd; txt "threat"; ws; txt "intel"]               (* \bthreat\s*intel *)
  ];
  AreaRule "aap" "AAP" (Some "threat_management") [
    compile_i [Bnd; txt "aap"; Bnd];                             (* \baap\b *)
    compile_i [Bnd; txt "appsec"; Bnd];                          (* \bappsec\b *)
    compile_i [Bnd; txt "asm"; Bnd];                             (* \basm\b *)
    compile_i [Bnd; txt "waf"; Bnd];                             (* \bwaf\b *)
    compile_i [Bnd; txt "api"; ws; txt "security"; Bnd];           (* \bapi\s*security\b *)
    compile_i [Bnd; txt "in"; dash_or_space; txt "app"; ws; txt "waf"; Bnd];
                                                    (* \bin[- ]app\s*waf\b *)
    compile_i [Bnd; txt "ip"; ws; txt "block"];                  (* \bip\s*block *)
    compile_i [Bnd; txt "passlist"; Bnd];                        (* \bpasslist\b *)
    compile_i [Bnd; txt "attack"; ws; txt "attempt"];            (* \battack\s*attempt *)
    compile_i [Bnd; txt "application"; dash_or_space; txt "security"; Bnd];
                                                    (* \bapplication[- ]security\b *)
    compile_i [Bnd; txt "app"; ws; Grp 1 (alt [txt "and"; txt "&"]); ws; txt "api"; ws;
        txt "protect"];                               (* \bapp\s*(and|&)\s*api\s*protect *)
    compile_i [Bnd; txt "security"; ws; txt "trace"];            (* \bsecurity\s*trace *)
    compile_i [Bnd; txt "php"; any; Grp 1 (alt [txt "helper"; txt "sidecar"]); Bnd];
                                                    (* \bphp.*(helper|sidecar)\b *)
    compile_i [Bnd; Grp 1 (alt [txt "sidecar"; txt "helper"]); any; txt "php"; Bnd];
                                                    (* \b(sidecar|helper).*php\b *)
    compile_i [Bnd; txt "dd_appsec_enabled"; Bnd]                (* \bdd_appsec_enabled\b *)
  ];
  AreaRule "workload_protection" "Workload Protection" (Some "threat_management") [
    compile_i [Bnd; txt "workload"; ws; txt "protection"; Bnd];    (* \bworkload\s*protection\b *)
    compile_i [Bnd; txt "cws"; Bnd];                             (* \bcws\b *)
    compile_i [Bnd; txt "cloud"; ws; txt "workload"; ws; txt "security"; Bnd];
                                                    (* \bcloud\s*workload\s*security\b *)
    compile_i [Bnd; txt "runtime"; ws; txt "security"; Bnd];       (* \bruntime\s*security\b *)
    compile_i [Bnd; txt "active"; ws; txt "protection"; Bnd];      (* \bactive\s*protection\b *)
    compile_i [Bnd; txt "system"; dash_or_space; txt "probe"; Bnd];(* \bsystem[- ]probe\b *)
    compile_i [Bnd; txt "security"; dash_or_space; txt "agent"; Bnd];
                                                    (* \bsecurity[- ]agent\b *)
    compile_i [Bnd; txt "fim"; Bnd];                             (* \bfim\b *)
    compile_i [Bnd; txt "runc"; Bnd];                            (* \brunc\b *)
    compile_i [Bnd; txt "sbom"; Bnd];                            (* \bsbom\b *)
    compile_i [Bnd; txt "agent"; ws; txt "rule"; Bnd];             (* \bagent\s*rule\b *)
    compile_i [Bnd; txt "dynamic"; ws; txt "linker"; Bnd];         (* \bdynamic\s*linker\b *)
    compile_i [Bnd; txt "ebpf"; Bnd]                             (* \bebpf\b *)
  ];
  (* -- Cloud Security -- *)
  AreaRule "cspm" "CSPM" (Some "cloud_security") [
    compile_i [Bnd; txt "cspm"; Bnd];                            (* \bcspm\b *)
    compile_i [Bnd; txt "posture"; ws; txt "management"; Bnd];     (* \bposture\s*management\b *)
    compile_i [Bnd; txt "misconfiguration"; Bnd];                (* \bmisconfiguration\b *)
    compile_i [Bnd; txt "compliance"; Bnd];                      (* \bcompliance\b *)
    compile_i [Bnd; txt "benchmark"; Bnd];                       (* \bbenchmark\b *)
    compile_i [Bnd; txt "cloud"; ws; txt "configuration"; Bnd];    (* \bcloud\s*configuration\b *)
    compile_i [Bnd; txt "cloud"; ws; txt "security"; any; txt "config"];
                                                    (* \bcloud\s*security.*config *)
    compile_i [Bnd; txt "cis"; Bnd];                             (* \bcis\b *)
    compile_i [Bnd; txt "stig"; Bnd];                            (* \bstig\b *)
    compile_i [Bnd; txt "disa"; Bnd];                            (* \bdisa\b *)
    compile_i [Bnd; txt "iac"; ws; txt "finding"];               (* \biac\s*finding *)
    compile_i [Bnd; txt "finding"; opt (txt "s"); ws; txt "search"; Bnd]
                                                    (* \bfindings?\s*search\b *)
  ];
  AreaRule "vm" "Vulnerability Mgmt" (Some "cloud_security") [
    compile_i [Bnd; txt "vulnerability"; ws; txt "management"; Bnd];
                                                    (* \bvulnerability\s*management\b *)
    compile_i [Bnd; txt "vulnerab"];                           (* \bvulnerab *)
    compile_i [Bnd; txt "cve"; Bnd];                             (* \bcve\b *)
    compile_i [Bnd; txt "agentless"; ws; txt "scann"];           (* \bagentless\s*scann *)
    compile_i [Bnd; txt "host"; ws; txt "vulnerabilit"];         (* \bhost\s*vulnerabilit *)
    compile_i [Bnd; txt "container"; ws; txt "image"; ws; txt "vulnerabilit"];
                                                    (* \bcontainer\s*image\s*vulnerabilit *)
    compile_i [Bnd; txt "cvss"; Bnd];                            (* \bcvss\b *)
    compile_i [Bnd; txt "epss"; Bnd];                            (* \bepss\b *)
    compile_i [Bnd; txt "cisa"; ws; txt "kev"; Bnd]                (* \bcisa\s*kev\b *)
  ];
  AreaRule "ciem" "CIEM" (Some "cloud_security") [
    compile_i [Bnd; txt "ciem"; Bnd];                            (* \bciem\b *)
    compile_i [Bnd; txt "identity"; ws; txt "risk"];             (* \bidentity\s*risk *)
    compile_i [Bnd; txt "entitlement"; ws; txt "management"; Bnd]; (* \bentitlement\s*management\b *)
    compile_i [Bnd; txt "iam"; ws; txt "access"; ws; txt "analy"]; (* \biam\s*access\s*analy *)
    compile_i [Bnd; txt "privilege"; ws; txt "escalat"];         (* \bprivilege\s*escalat *)
    compile_i [Bnd; txt "cross"; dash_or_space; txt "account"; ws; txt "access"; Bnd];
                                                    (* \bcross[- ]account\s*access\b *)
    compile_i [Bnd; txt "blast"; ws; txt "radius"; Bnd];           (* \bblast\s*radius\b *)
    compile_i [Bnd; txt "identity"; ws; txt "risk"; opt (txt "s"); Bnd]
                                                    (* \bidentity\s*risks?\b *)
  ];
  (* -- Code Security -- *)
  AreaRule "sast" "SAST" (Some "code_security") [
    compile_i [Bnd; txt "sast"; Bnd];                            (* \bsast\b *)
    compile_i [Bnd; txt "static"; ws;
        Grp 1 (alt [cat [txt "application"; ws; txt "security"]; txt "analysis"]); Bnd];
                              (* \bstatic\s*(application\s*security|analysis)\b *)
    compile_i [Bnd; txt "code"; ws; txt "security"; any; txt "static"; Bnd];
                                                    (* \bcode\s*security.*static\b *)
    compile_i [Bnd; txt "static"; ws; txt "code"; Bnd];            (* \bstatic\s*code\b *)
    compile_i [Bnd; txt "hosted"; ws; txt "scanning"; Bnd]         (* \bhosted\s*scanning\b *)
  ];
  AreaRule "sca" "SCA" (Some "code_security") [
    compile_i [Bnd; txt "sca"; Bnd];                             (* \bsca\b *)
    compile_i [Bnd; txt "software"; ws; txt "composition"; Bnd];   (* \bsoftware\s*composition\b *)
    compile_i [Bnd; txt "dependenc"];                          (* \bdependenc *)
    compile_i [Bnd; txt "repo"; any; txt "scanning"; Bnd];         (* \brepo.*scanning\b *)
    compile_i [Bnd; txt "dd_appsec_sca_enabled"; Bnd];           (* \bdd_appsec_sca_enabled\b *)
    compile_i [Bnd; txt "license"; ws; txt "risk"];              (* \blicense\s*risk *)
    compile_i [Bnd; txt "package"; ws; txt "manifest"]           (* \bpackage\s*manifest *)
  ];
  AreaRule "iast" "IAST" (Some "code_security") [
    compile_i [Bnd; txt "iast"; Bnd];                            (* \biast\b *)
    compile_i [Bnd; txt "interactive"; ws; txt "application"; ws; txt "security"; Bnd];
                              (* \binteractive\s*application\s*security\b *)
    compile_i [Bnd; txt "dd_iast_enabled"; Bnd];                 (* \bdd_iast_enabled\b *)
    compile_i [Bnd; txt "tainted"; ws; txt "data"; Bnd];           (* \btainted\s*data\b *)
    compile_i [Bnd; txt "source"; any; txt "sink"; Bnd];           (* \bsource.*sink\b *)
    compile_i [Bnd; txt "sink"; any; txt "source"; Bnd]            (* \bsink.*source\b *)
  ];
  AreaRule "other" "Other" None []                  (* fallback *)
].

(** The table is written with its patterns already compiled. *)
Definition _COMPILED_AREA_RULES : list area_rule := PRODUCT_AREA_RULES.

(** [org\s*deletion\s*request], searched with [re.IGNORECASE]. *)
Definition org_deletion : pattern :=
  compile_i [txt "org"; ws; txt "deletion"; ws; txt "request"].

Section Classification.
Context {U : Unicode}.

(** [pat.search(text)] as a truth value. *)
Definition found (p : pattern) (text : str) : bool :=
  bool_decide (is_Some (search p text)).

(** The inner loop of [detect_product_area]: does some pattern of the rule
    match? *)
Fixpoint any_pattern (pats : list pattern) (text : str) : bool :=
  match pats with
  | [] => false
  | pat :: pats' => if found pat text then true else any_pattern pats' text
  end.

(** The outer loop; falling off the table returns ["other"]. *)
Fixpoint scan_rules (rules : list area_rule) (text : str) : string :=
  match rules with
  | [] => "other"
  | r :: rules' =>
      match area_patterns r with
      | [] => scan_rules rules' text                   (* continue *)
      | _ :: _ =>
          if any_pattern (area_patterns r) text then area_key r
          else scan_rules rules' text
      end
  end.

Definition detect_product_area (text : str) : string :=
  if found org_deletion text then "other"
  else scan_rules _COMPILED_AREA_RULES text.

End Classification.

(** ** The source types *)

(** A row of [_SOURCE_TYPES]: [(key, label, icon, url_patterns, ref_patterns)]. *)
Record source_type := SourceType {
  src_key : string;
  src_label : string;
  src_icon : string;
  url_patterns : list pattern;
  ref_patterns : list pattern
}.

Definition http_s : re := Seq (txt "http") (opt (txt "s")).   (* https? *)
Definition digits : re := plus (cls [IDigit]).                (* \d+ *)
(** [[\w/._?&#%-]] *)
Definition path_char : cset := cls (IWord :: chars "/._?&#%-").

Definition _SOURCE_TYPES : list source_type := [
  SourceType "jira" "JIRA" "ticket" [
    (* https?://datadoghq\.atlassian\.net/browse/([\w-]+) *)
    compile_i [http_s; txt "://datadoghq.atlassian.net/browse/";
               Grp 1 (plus (cls (IWord :: chars "-")))]
  ] [
    (* \b(SCRS-\d+|ZD-\d+|SECENG-\d+)\b *)
    compile [Bnd; Grp 1 (alt [Seq (txt "SCRS-") digits; Seq (txt "ZD-") digits;
                              Seq (txt "SECENG-") digits]); Bnd]
  ];
  SourceType "confluence" "Confluence" "wiki" [
    (* https?://datadoghq\.atlassian\.net/wiki/[\w/+.-]+ *)
    compile_i [http_s; txt "://datadoghq.atlassian.net/wiki/";
               plus (cls (IWord :: chars "/+.-"))]
  ] [];
  SourceType "datadog_docs" "Datadog Docs" "docs" [
    (* https?://docs\.datadoghq\.com/[\w/._?&#%-]+ *)
    compile_i [http_s; txt "://docs.datadoghq.com/"; plus path_char]
  ] [];
  SourceType "github" "GitHub" "code" [
    (* https?://github\.com/[\w.-]+/[\w.-]+[\w/._?&#%-]* *)
    compile_i [http_s; txt "://github.com/"; plus (cls (IWord :: chars ".-"));
               txt "/"; plus (cls (IWord :: chars ".-")); Star path_char]
  ] [];
  SourceType "slack" "Slack" "chat" [
    (* https?://dd\.(?:enterprise\.)?slack\.com/[\w/.-]+ *)
    compile_i [http_s; txt "://dd."; opt (txt "enterprise."); txt "slack.com/";
               plus (cls (IWord :: chars "/.-"))]
  ] [
    (* #[\w_-]{2,} *)
    compile_i [txt "#"; two_or_more (cls (IWord :: chars "_-"))]
  ];
  SourceType "terraform" "Terraform" "infra" [
    (* https?://registry\.terraform\.io/[\w/._?&#%-]+ *)
    compile_i [http_s; txt "://registry.terraform.io/"; plus path_char]
  ] []
].

Section Extractor.
Context {U : Unicode}.

(** ** Context snippets *)

(** [\[([^\]]+)\]\([^)]+\)] *)
Definition md_link_full : pattern :=
  compile [txt "["; Grp 1 (plus (ncls (chars "]"))); txt "]";
           txt "("; plus (ncls (chars ")")); txt ")"].
(** [[#*>`_~]] *)
Definition md_punct : pattern := compile [One (cls (chars "#*>`_~"))].
(** [\s+] *)
Definition spaces : pattern := compile [plus (cls [ISpace])].

(** The replacement template [\1]. *)
Definition group1 (t : str) (mo : mobj) : str := default [] (group t mo 1).

(** The first three statements of the loop body of [_get_context_for_match]:
    the markdown syntax of the line is cleaned. *)
Definition clean_markdown (line : str) : str :=
  let clean := sub md_link_full (group1 line) line in       (* [text](url) -> text *)
  let clean := Str.strip (sub md_punct (fun _ => []) clean) in
  sub spaces (fun _ => lit " ") clean.

(** The cleaned line without the needle, before truncation. *)
Definition without_needle (needle line : str) : str :=
  Str.strip_by (Str.among (lit " -:,.")) (Str.remove needle (clean_markdown line)).

(** The body of the loop of [_get_context_for_match] for the line that
    contains the needle. *)
Definition context_of_line (needle line : str) : str :=
  let clean := without_needle needle line in
  if 150 <? length clean then take 147 clean ++ lit "..." else clean.

Fixpoint _get_context_for_match (lines : list str) (needle full_text : str)
  : str :=
  match lines with
  | [] => []
  | line :: lines' =>
      if Str.contains needle line then context_of_line needle line
      else _get_context_for_match lines' needle full_text
  end.

(** ** Extraction *)

(** An entry of [refs]: [{"url": ..., "display": ..., "context": ...}]. *)
Record reference := Ref {
  url : option str;
  display : str;
  context : str
}.

(** An entry of [sources]. *)
Record source_group := Group {
  key : string;
  label : string;
  icon : string;
  refs : list reference
}.

(** A [for] loop whose body may raise. *)
Fixpoint for_each {S X : Type} (body : S -> X -> result S) (xs : list X) (s : S)
  : result S :=
  match xs with
  | [] => Ok s
  | x :: xs' => s' ← body s x; for_each body xs' s'
  end.

(** The loop state of one source type: [refs_seen] and [refs]. *)
Record scan_state := Scan {
  refs_seen : gset (str * str);
  scan_refs : list reference
}.

(** [\[([^\]]+)\]\s*\($] *)
Definition md_link_open : pattern :=
  compile [txt "["; Grp 1 (plus (ncls (chars "]"))); txt "]"; ws; txt "("; Eos].

(** The display text of a URL match.  ([group1] is [group(1)]: the group
    takes part in every match of the two patterns it is asked of.) *)
Definition url_display (src : string) (raw_text : str) (mo : mobj) (u : str) : str :=
  let start := m_start mo in
  let prefix := Str.slice raw_text (start - 200) start in
  match search md_link_open prefix with
  | Some md_link => group1 prefix md_link
  | None =>
      if bool_decide (src = "jira"%string) &&
         match lastindex mo with Some n => 1 <=? n | None => false end
      then group1 raw_text mo
      else u
  end.

(** The body of the loop over the matches of a URL pattern. *)
Definition url_step (src : string) (raw_text : str) (lines : list str)
    (st : scan_state) (mo : mobj) : scan_state :=
  let u := Str.rstrip_by (Str.among (lit ")")) (group0 raw_text mo) in
  let d := url_display src raw_text mo u in
  if bool_decide ((u, d) ∈ refs_seen st) then st
  else
    Scan ({[ (u, d) ]} ∪ refs_seen st)
         (scan_refs st ++
          [Ref (Some u) d
               (_get_context_for_match lines (group0 raw_text mo) raw_text)]).

(** [any(ref_text in r["display"] or ref_text in r["url"] for r in refs)];
    [ref_text in None] raises [TypeError]. *)
Fixpoint already_captured (ref_text : str) (rs : list reference) : result bool :=
  match rs with
  | [] => Ok false
  | r :: rs' =>
      if Str.contains ref_text (display r) then Ok true
      else match url r with
           | None => Raise TypeError
           | Some u =>
               if Str.contains ref_text u then Ok true
               else already_captured ref_text rs'
           end
  end.

(** The URL built for a bare reference. *)
Definition bare_url (src : string) (ref_text : str) : option str :=
  if bool_decide (src = "jira"%string)
  then Some (lit "https://datadoghq.atlassian.net/browse/" ++ ref_text)
  else if bool_decide (src = "slack"%string) && Str.startswith ref_text (lit "#")
  then None
  else None.

(** The body of the loop over the matches of a bare-reference pattern. *)
Definition ref_step (src : string) (raw_text : str) (lines : list str)
    (st : scan_state) (mo : mobj) : result scan_state :=
  let ref_text := group0 raw_text mo in
  skip ← already_captured ref_text (scan_refs st);
  if (skip : bool) then Ok st
  else if bool_decide ((ref_text, ref_text) ∈ refs_seen st) then Ok st
  else
    Ok (Scan ({[ (ref_text, ref_text) ]} ∪ refs_seen st)
             (scan_refs st ++
              [Ref (bare_url src ref_text) ref_text
                   (_get_context_for_match lines ref_text raw_text)])).

(** The matches the two passes go through, in the order of the loops:
    pattern by pattern, and for each pattern in the order of [finditer]. *)
Definition url_matches (ty : source_type) (raw_text : str) : list mobj :=
  p ← url_patterns ty; finditer p raw_text.
Definition ref_matches (ty : source_type) (raw_text : str) : list mobj :=
  p ← ref_patterns ty; finditer p raw_text.

(** The state after the URL pass of one source type. *)
Definition url_pass (ty : source_type) (raw_text : str) (lines : list str)
  : scan_state :=
  foldl (url_step (src_key ty) raw_text lines) (Scan ∅ []) (url_matches ty raw_text).

(** The references of one source type: the URL pass, then the pass of the
    bare references. *)
Definition scan_type (ty : source_type) (raw_text : str) (lines : list str)
  : result (list reference) :=
  st ← for_each (ref_step (src_key ty) raw_text lines)
                (ref_matches ty raw_text) (url_pass ty raw_text lines);
  mret (scan_refs st).

(** The body of the loop over the source types. *)
Definition type_step (raw_text : str) (lines : list str)
    (sources : list source_group) (ty : source_type) : result (list source_group) :=
  rs ← scan_type ty raw_text lines;
  match rs with
  | [] => Ok sources
  | _ :: _ => Ok (sources ++ [Group (src_key ty) (src_label ty) (src_icon ty) rs])
  end.

Definition extract_sources (raw_text : str) : result (list source_group) :=
  let lines := Str.split_lines raw_text in
  for_each (type_step raw_text lines) _SOURCE_TYPES [].

(** ** Statements used below *)

(** Some pattern of the rule matches the text. *)
Definition matches_rule (r : area_rule) (text : str) : Prop :=
  Exists (fun p => found p text = true) (area_patterns r).

(** The priority of the earlier of two matching rules, for any two rules of
    the table. *)
Definition earlier_rule_wins : Prop :=
  forall text pre R1 mid R2 post,
    _COMPILED_AREA_RULES = pre ++ R1 :: mid ++ R2 :: post ->
    matches_rule R1 text -> matches_rule R2 text ->
    detect_product_area text = area_key R1.

(** The scenario of the tracker key cited by URL, then bare, next to a
    channel handle. *)
Definition scenario_text : str :=
  lit "See https://datadoghq.atlassian.net/browse/SCRS-123 for details, also mentioned in SCRS-123 again and in #security-team channel.".

(** The patterns whose matches are enumerated with [finditer]. *)
Definition scanned_patterns : list pattern :=
  (ty ← _SOURCE_TYPES; url_patterns ty ++ ref_patterns ty) ++
  [md_link_full; md_punct; spaces].

(** The reference a URL match stands for. *)
Definition url_reference (src : string) (raw_text : str) (lines : list str)
    (mo : mobj) : reference :=
  let u := Str.rstrip_by (Str.among (lit ")")) (group0 raw_text mo) in
  Ref (Some u) (url_display src raw_text mo u)
      (_get_context_for_match lines (group0 raw_text mo) raw_text).

(** The reference a bare match stands for. *)
Definition bare_reference (src : string) (raw_text : str) (lines : list str)
    (mo : mobj) : reference :=
  let ref_text := group0 raw_text mo in
  Ref (bare_url src ref_text) ref_text
      (_get_context_for_match lines ref_text raw_text).

(** The pair two references of a group must not share. *)
Definition ref_key (r : reference) : option str * str := (url r, display r).

(** The pair a URL match is deduplicated by. *)
Definition url_key (src : string) (raw_text : str) (mo : mobj) : str * str :=
  let u := Str.rstrip_by (Str.among (lit ")")) (group0 raw_text mo) in
  (u, url_display src raw_text mo u).

(** Matches listed from left to right in the text. *)
Definition in_text_order (ms : list mobj) : Prop :=
  StronglySorted (fun a b => m_start a < m_start b) ms.

(** No reference of [rs] has [x] inside its display or its url, and all of
    them have a url: the containment test goes through [rs] and finds
    nothing. *)
Definition clear_of (x : str) (rs : list reference) : Prop :=
  Forall (fun r => Str.contains x (display r) = false /\
                   exists u, url r = Some u /\ Str.contains x u = false) rs.

(** The group a source type contributes to the output, if any. *)
Definition group_of (raw_text : str) (ty : source_type) : option source_group :=
  match scan_type ty raw_text (Str.split_lines raw_text) with
  | Ok (r :: rs) => Some (Group (src_key ty) (src_label ty) (src_icon ty) (r :: rs))
  | _ => None
  end.

(** What the two passes over a source type leave: the references [rs] are
    those of the URL matches [mu] followed by those of the bare matches [mb],
    both lists being picked from the matches of the pass. *)
Record two_passes (ty : source_type) (raw_text : str) (rs : list reference)
    (mu mb : list mobj) : Prop := TwoPasses {
  tp_refs :
    rs = (url_reference (src_key ty) raw_text (Str.split_lines raw_text) <$> mu) ++
         (bare_reference (src_key ty) raw_text (Str.split_lines raw_text) <$> mb);
  tp_url_pass :
    scan_refs (url_pass ty raw_text (Str.split_lines raw_text)) =
    url_reference (src_key ty) raw_text (Str.split_lines raw_text) <$> mu;
  tp_url_sub : mu `sublist_of` url_matches ty raw_text;
  tp_ref_sub : mb `sublist_of` ref_matches ty raw_text;
  tp_url_nodup : NoDup (url_key (src_key ty) raw_text <$> mu);
  tp_ref_nodup : NoDup (group0 raw_text <$> mb);
  tp_ref_clear :
    Forall (fun m => clear_of (group0 raw_text m)
              (url_reference (src_key ty) raw_text (Str.split_lines raw_text) <$> mu))
           mb;
  tp_url_left : forall m m',
    m ∈ mu -> m' ∈ url_matches ty raw_text ->
    url_key (src_key ty) raw_text m' = url_key (src_key ty) raw_text m ->
    m_start m <= m_start m';
  tp_ref_left : forall m m',
    m ∈ mb -> m' ∈ ref_matches ty raw_text ->
    group0 raw_text m' = group0 raw_text m ->
    m_start m <= m_start m'
}.

(** The line [_get_context_for_match] works on: the first one that contains
    the needle. *)
Fixpoint first_line_with (lines : list str) (needle : str) : option str :=
  match lines with
  | [] => None
  | line :: lines' =>
      if Str.contains needle line then Some line
      else first_line_with lines' needle
  end.

(** The context of a reference is free of the matched literal whenever the
    literal is still there, verbatim, in the cleaned line. *)
Definition context_drops_literal : Prop :=
  forall raw_text gs g r ty m line,
    extract_sources raw_text = Ok gs -> g ∈ gs -> r ∈ refs g ->
    ty ∈ _SOURCE_TYPES -> key g = src_key ty ->
    m ∈ url_matches ty raw_text /\
    r = url_reference (src_key ty) raw_text (Str.split_lines raw_text) m \/
    m ∈ ref_matches ty raw_text /\
    r = bare_reference (src_key ty) raw_text (Str.split_lines raw_text) m ->
    first_line_with (Str.split_lines raw_text) (group0 raw_text m) = Some line ->
    Str.contains (group0 raw_text m) (clean_markdown line) = true ->
    Str.contains (group0 raw_text m) (context r) = false.

(** Every occurrence of [needle] in [s] stands between characters that are
    not characters of [needle], or at an end of [s]; [prev] is the character
    before [s]. *)
Fixpoint delimited_from (needle : str) (prev : option N) (s : str) : bool :=
  match s with
  | [] => true
  | c :: s' =>
      (if Str.startswith s needle
       then negb (from_option (Str.among needle) false prev) &&
            negb (from_option (Str.among needle) false (s !! length needle))
       else true)
      && delimited_from needle (Some c) s'
  end.

Definition delimited (needle s : str) : bool := delimited_from needle None s.

(** A pattern none of whose matches holds a newline: its classes are not
    negated and have neither [\s] nor the newline. *)
Definition item_in_line (it : citem) : bool :=
  match it with
  | ISpace => false
  | IChar c => negb (N_of_ascii c =? newline)%N
  | IWord | IDigit => true
  end.

Definition cset_in_line (s : cset) : bool :=
  match s with
  | CSet negated items => negb negated && forallb item_in_line items
  | CDot => true
  end.

Fixpoint re_in_line (r : re) : bool :=
  match r with
  | One s | Star s => cset_in_line s
  | Seq a b | Alt a b => re_in_line a && re_in_line b
  | Grp _ a => re_in_line a
  | Eps | Bnd | Eos => true
  end.

End Extractor.

(** * The rest of the program *)

(** ** The tables derived from the taxonomy, and their users *)

(** A dict display or comprehension: the entries are inserted in order, a
    later entry for a key replacing an earlier one. *)
Definition dict_of {V : Type} (entries : list (string * V)) : gmap string V :=
  foldl (fun m kv => <[kv.1 := kv.2]> m) ∅ entries.

(** A value of [PRODUCT_AREA_GROUPS]. *)
Record area_group_info := AreaGroup {
  group_label : string;
  group_slack : string;
  group_areas : list string
}.

Definition PRODUCT_AREA_GROUPS : gmap string area_group_info := dict_of [
  ("cloud_security",
   AreaGroup "Cloud Security" "#support-cloud-security" ["cspm"; "vm"; "ciem"]);
  ("code_security",
   AreaGroup "Code Security" "#support-code-security" ["sast"; "sca"; "iast"]);
  ("threat_management",
   AreaGroup "Threat Management" "#support-security-threats"
             ["siem"; "workload_protection"; "aap"])
]%string.

(** [{key: label for key, label, _group, _pats in PRODUCT_AREA_RULES}] *)
Definition PRODUCT_AREA_LABELS : gmap string string :=
  dict_of ((fun r => (area_key r, area_label r)) <$> PRODUCT_AREA_RULES).

(** [{key: group for key, _label, group, _pats in PRODUCT_AREA_RULES if group}];
    [None] and the empty string are falsy. *)
Definition AREA_TO_GROUP : gmap string string :=
  dict_of (omap (fun r =>
                   match area_group r with
                   | Some g => if bool_decide (g = ""%string) then None
                               else Some (area_key r, g)
                   | None => None
                   end) PRODUCT_AREA_RULES).

(** The text [get_archive_months] and [archive_ticket] classify: the first
    2000 characters of the file, or the empty text when it cannot be read. *)
Definition content_preview (file_text : option str) : str :=
  match file_text with
  | Some text => take 2000 text
  | None => []
  end.

(** The filter of the archive page, from the texts of the tickets of each
    month: [all_areas] collects the [product_area] of every ticket. *)
Definition archive_all_areas {U : Unicode} (months : list (list (option str))) : gset string :=
  foldl (fun all_areas tickets =>
           foldl (fun all_areas t =>
                    {[ detect_product_area (content_preview t) ]} ∪ all_areas)
                 all_areas tickets)
        ∅ months.

(** [[key for key, _, _, _ in PRODUCT_AREA_RULES if key in all_areas]] *)
Definition area_order (all_areas : gset string) : list string :=
  filter (fun k => k ∈ all_areas) (area_key <$> PRODUCT_AREA_RULES).

(** The text with its ASCII capitals in lower case. *)
Definition ascii_lower_str (s : str) : str := Chars.lower <$> s.

(** ** Auxiliary notions for the extractor *)

(** The bare-reference pattern of the slack row of [_SOURCE_TYPES]. *)
Definition slack_handle : pattern :=
  compile_i [txt "#"; two_or_more (cls (IWord :: chars "_-"))].

Definition has_url (r : reference) : Prop := is_Some (url r).

(** The characters [re.sub(r"[#*>`_~]", "", ...)] deletes. *)
Definition md_punct_char {U : Unicode} (c : N) : bool :=
  cset_has false (cls (chars "#*>`_~")) c.

(** ** Chat provider detection *)

(** The truth value of a string: it is not empty. *)
Definition truthy (s : str) : bool :=
  match s with
  | [] => false
  | _ :: _ => true
  end.

(** [for m in available: if p in m: return m] *)
Fixpoint first_containing (p : str) (available : list str) : option str :=
  match available with
  | [] => None
  | m :: available' =>
      if Str.contains p m then Some m else first_containing p available'
  end.

(** [for p in preferred: for m in available: if p in m: return m] *)
Fixpoint first_preferred (preferred available : list str) : option str :=
  match preferred with
  | [] => None
  | p :: preferred' =>
      match first_containing p available with
      | Some m => Some m
      | None => first_preferred preferred' available
      end
  end.

Definition preferred : list str := lit <$> [
  "qwen2.5:14b"; "qwen2.5:7b"; "qwen2.5";
  "llama3.1:8b"; "llama3.1"; "llama3:8b"; "llama3";
  "mistral"; "mistral:7b";
  "gemma2:9b"; "gemma2";
  "phi3:medium"; "phi3";
  "deepseek-r1:8b"; "deepseek-r1"
]%string.

(** [OLLAMA_MODEL] is read from the environment when the module is loaded;
    it is a parameter here. *)
Definition _pick_ollama_model (OLLAMA_MODEL : str) (available : list str) : str :=
  if truthy OLLAMA_MODEL && bool_decide (OLLAMA_MODEL ∈ available)
  then OLLAMA_MODEL
  else
    match (if truthy OLLAMA_MODEL
           then first_containing OLLAMA_MODEL available      (* partial match *)
           else None) with
    | Some m => m
    | None =>
        match first_preferred preferred available with
        | Some m => m
        | None =>
            match available with                    (* the first available model *)
            | m :: _ => m
            | [] => []
            end
        end
    end.

Module Chat.

(** The settings read from the environment. *)
Record settings := Settings {
  ANTHROPIC_API_KEY : str;
  GEMINI_API_KEY : str;
  GEMINI_MODEL : str;
  OLLAMA_MODEL : str
}.

(** What [_check_ollama] returns. *)
Record ollama_status := Ollama {
  running : bool;
  models : list str
}.

(** The dict [get_chat_provider] returns; ["all_models"] is present in the
    two ollama answers only. *)
Record provider_info := Provider {
  provider : string;
  model : str;
  label : str;
  available : bool;
  has_tools : bool;
  all_models : option (list str)
}.

Definition get_chat_provider (env : settings) (ollama : ollama_status)
  : provider_info :=
  if truthy (ANTHROPIC_API_KEY env) then
    Provider "anthropic" (lit "claude-sonnet-4-20250514") (lit "Claude (Anthropic)")
             true false None
  else if truthy (GEMINI_API_KEY env) then
    Provider "gemini" (GEMINI_MODEL env) (GEMINI_MODEL env ++ lit " (Gemini)")
             true true None
  else if running ollama && bool_decide (models ollama <> []) then
    let model := _pick_ollama_model (OLLAMA_MODEL env) (models ollama) in
    if truthy model then
      Provider "ollama" model (model ++ lit " (Ollama)") true false
               (Some (models ollama))
    else
      Provider "ollama" [] (lit "Ollama (no models)") false false (Some [])
  else
    Provider "none" [] [] false false None.

End Chat.

(** ** Navigation between investigations *)

(** [all_keys.index(key)], for a key of the list. *)
Fixpoint index_of `{EqDecision A} (key : A) (all_keys : list A) : nat :=
  match all_keys with
  | [] => 0
  | k :: all_keys' => if bool_decide (k = key) then 0 else S (index_of key all_keys')
  end.

(** [all_keys.index(key) if key in all_keys else -1] *)
Definition current_idx (all_keys : list str) (key : str) : Z :=
  if bool_decide (key ∈ all_keys) then Z.of_nat (index_of key all_keys) else (-1)%Z.

(** [all_keys[current_idx - 1] if current_idx > 0 else None] *)
Definition prev_key (all_keys : list str) (key : str) : option str :=
  let idx := current_idx all_keys key in
  if (0 <? idx)%Z then all_keys !! Z.to_nat (idx - 1) else None.

(** [all_keys[current_idx + 1]
     if current_idx >= 0 and current_idx < len(all_keys) - 1 else None] *)
Definition next_key (all_keys : list str) (key : str) : option str :=
  let idx := current_idx all_keys key in
  if (0 <=? idx)%Z && (idx <? Z.of_nat (length all_keys) - 1)%Z
  then all_keys !! Z.to_nat (idx + 1) else None.

(** [x] is the first element of [l]. *)
Definition starts_with {A} (x : A) (l : list A) : Prop := exists tl, l = x :: tl.

Section Pages.
Context {U : Unicode}.

(** ** Titles *)

(** [^#\s+(.+)], used with [re.match]: the match is tried at the start of
    the text only, where [^] holds (with or without [re.MULTILINE]). *)
Definition heading : pattern :=
  compile [txt "#"; plus (cls [ISpace]); Grp 1 (plus CDot)].

(** [m = re.match(r"^#\s+(.+)", text)] and, on a match,
    [m.group(1).strip()]. *)
Definition heading_title (text : str) : option str :=
  (fun mo => Str.strip (group1 text mo)) <$> match_at heading text 0.

(** The part of [s] before its first newline and, if there is one, the part
    after it. *)
Fixpoint cut_line (s : str) : str * option str :=
  match s with
  | [] => ([], None)
  | c :: s' =>
      if N.eqb c newline then ([], Some s')
      else let '(line, rest) := cut_line s' in (c :: line, rest)
  end.

(** [s.split("\n", maxsplit)]. *)
Fixpoint split_max (maxsplit : nat) (s : str) : list str :=
  match maxsplit with
  | 0 => [s]
  | S n =>
      match cut_line s with
      | (line, Some rest) => line :: split_max n rest
      | (line, None) => [line]
      end
  end.

(** The loop of [get_archive_months] over [first_lines]: the title of the
    first line that is a heading. *)
Fixpoint first_heading (first_lines : list str) : option str :=
  match first_lines with
  | [] => None
  | line :: first_lines' =>
      match heading_title line with
      | Some title => Some title
      | None => first_heading first_lines'
      end
  end.

(** The title of an archived ticket in [get_archive_months]: [t.stem] unless
    one of the pieces of [content_preview.split("\n", 5)] is a heading. *)
Definition archive_title (stem : str) (file_text : option str) : str :=
  default stem (first_heading (split_max 5 (content_preview file_text))).

(** The title of an investigation in [get_investigations]: the folder name
    unless the first line of [notes.md] is a heading. *)
Definition investigation_title (ticket_key : str) (notes : option str) : str :=
  match notes with
  | Some text =>
      let first_line := hd [] (Str.split_lines text) in
      default ticket_key (heading_title first_line)
  | None => ticket_key
  end.

(** The title in [read_md_file], [search_files] and [search_workspace]:
    [title_match.group(1).strip() if title_match else path.stem]. *)
Definition file_title (stem raw : str) : str :=
  default stem (heading_title raw).

(** ** Searching the markdown files *)

(** [str.lower()].  An ASCII character has the lower case of [Chars.lower];
    a capital sigma becomes a final sigma when a cased character comes
    before it and none comes after it, the characters that case ignores
    being passed over; any other character has the lower case of the
    table. *)
Definition is_cased (c : N) : bool :=
  if Chars.is_ascii c then Chars.is_letter c else uni_cased c.

(** Among the ASCII characters case ignores the apostrophe, the full stop,
    the colon, the circumflex and the grave accent. *)
Definition is_case_ignorable (c : N) : bool :=
  if Chars.is_ascii c then Str.among (lit "'.:^`") c else uni_case_ignorable c.

(** The first character of [s] that case does not ignore is cased. *)
Fixpoint cased_next (s : str) : bool :=
  match s with
  | [] => false
  | c :: s' => if is_case_ignorable c then cased_next s' else is_cased c
  end.

(** The lower case of [c] between the characters [before], the nearest
    first, and [after]. *)
Definition lower_char (before : str) (c : N) (after : str) : str :=
  if (c =? 931)%N then                                      (* capital sigma *)
    if cased_next before && negb (cased_next after)
    then [962%N]                                            (* final sigma *)
    else [963%N]                                            (* small sigma *)
  else if Chars.is_ascii c then [Chars.lower c]
  else uni_lower c.

Fixpoint lower_from (before s : str) : str :=
  match s with
  | [] => []
  | c :: s' => lower_char before c s' ++ lower_from (c :: before) s'
  end.

Definition lower_str (s : str) : str := lower_from [] s.

(** [sep.join(parts)]. *)
Fixpoint join (sep : str) (parts : list str) : str :=
  match parts with
  | [] => []
  | [part] => part
  | part :: parts' => part ++ sep ++ join sep parts'
  end.

(** The loop over [enumerate(lines)] that collects the snippets of a file:
    [rest] are the lines from index [i] on. *)
Fixpoint snippet_loop (query_lower : str) (lines rest : list str) (i : nat)
    (snippets : list str) : list str :=
  match rest with
  | [] => snippets
  | line :: rest' =>
      if Str.contains query_lower (lower_str line) then
        let start := i - 1 in                               (* max(0, i - 1) *)
        let end_ := length lines `min` (i + 2) in
        let snippet :=
          Str.strip (join [newline] (take (end_ - start) (drop start lines))) in
        let snippets := snippets ++ [snippet] in
        if 2 <=? length snippets then snippets              (* break *)
        else snippet_loop query_lower lines rest' (S i) snippets
      else snippet_loop query_lower lines rest' (S i) snippets
  end.

Definition find_snippets (query_lower content : str) : list str :=
  let lines := Str.split_lines content in
  snippet_loop query_lower lines lines 0 [].

(** A markdown file as the search sees it: its name, stem and path relative
    to [ROOT], its text ([None] when [read_text] raises) and the datetime of
    its last modification, as a number. *)
Record md_file := MdFile {
  file_name : str;
  file_stem : str;
  file_rel : str;
  file_text : option str;
  file_modified : Z
}.

(** An entry of the results of [search_files]. *)
Record search_hit := Hit {
  hit_title : str;
  hit_path : str;
  hit_section : str;
  hit_snippets : list str;
  hit_modified : Z
}.

(** [s.split("/")[0]]. *)
Fixpoint first_component (s : str) : str :=
  match s with
  | [] => []
  | c :: s' => if N.eqb c "/"%ch then [] else c :: first_component s'
  end.

(** The body of the loop over the files in [search_files], up to the
    [append]: [None] stands for [continue]. *)
Definition hit_of (query_lower : str) (f : md_file) : option search_hit :=
  if Str.startswith (file_name f) (lit ".") then None
  else
    match file_text f with
    | None => None
    | Some content =>
        if negb (Str.contains query_lower (lower_str content)) then None
        else
          Some (Hit (file_title (file_stem f) content) (file_rel f)
                    (first_component (file_rel f))
                    (find_snippets query_lower content) (file_modified f))
    end.

(** The loop over the files of a directory; [inl] is the [return] in the
    middle of the loop. *)
Fixpoint files_loop (query_lower : str) (max_results : Z) (files : list md_file)
    (results : list search_hit) : list search_hit + list search_hit :=
  match files with
  | [] => inr results
  | f :: files' =>
      match hit_of query_lower f with
      | None => files_loop query_lower max_results files' results
      | Some h =>
          let results := results ++ [h] in
          if (max_results <=? Z.of_nat (length results))%Z then inl results
          else files_loop query_lower max_results files' results
      end
  end.

(** The loop over the search directories; a directory that does not exist
    is [None]. *)
Fixpoint dirs_loop (query_lower : str) (max_results : Z)
    (search_dirs : list (option (list md_file))) (results : list search_hit)
  : list search_hit + list search_hit :=
  match search_dirs with
  | [] => inr results
  | None :: dirs' => dirs_loop query_lower max_results dirs' results
  | Some files :: dirs' =>
      match files_loop query_lower max_results files results with
      | inl results => inl results
      | inr results => dirs_loop query_lower max_results dirs' results
      end
  end.

(** [sorted(l, key=key, reverse=reverse)] and [l.sort(key=key,
    reverse=reverse)], where [lt] is [<] on the keys: the sort is stable,
    elements with equal keys keep their order, also with [reverse=True]. *)
Fixpoint sort_insert {A K} (lt : K -> K -> bool) (key : A -> K) (reverse : bool)
    (x : A) (l : list A) : list A :=
  match l with
  | [] => [x]
  | y :: l' =>
      if (if reverse then lt (key x) (key y) else lt (key y) (key x))
      then y :: sort_insert lt key reverse x l'
      else x :: l
  end.

Definition sort_by {A K} (lt : K -> K -> bool) (key : A -> K) (reverse : bool)
    (l : list A) : list A :=
  foldr (sort_insert lt key reverse) [] l.

(** The order of two elements, [a] before [b], in a sorted list: [b] is not
    smaller than [a]; with [reverse], not greater. *)
Definition in_order {A K} (lt : K -> K -> bool) (key : A -> K) (reverse : bool)
    (a b : A) : Prop :=
  if reverse then lt (key a) (key b) = false else lt (key b) (key a) = false.

(** [search_dirs] stands for the three directories of the workspace, each
    with the files [rglob("*.md")] yields, in that order. *)
Definition search_files (query : str) (max_results : Z)
    (search_dirs : list (option (list md_file))) : list search_hit :=
  let query_lower := lower_str query in
  match dirs_loop query_lower max_results search_dirs [] with
  | inl results => results
  | inr results => sort_by Z.ltb hit_modified true results
  end.

(** All the files of the search directories, in the order of the walk, and
    those among them that match. *)
Definition walked (search_dirs : list (option (list md_file))) : list md_file :=
  dir ← search_dirs; default [] dir.

Definition all_hits (query : str) (search_dirs : list (option (list md_file)))
  : list search_hit :=
  omap (hit_of (lower_str query)) (walked search_dirs).

(** *** [tools.search_workspace] *)

(** The body of the loop over the files in [search_workspace], up to the
    [append]. *)
Definition workspace_entry (query_lower : str) (f : md_file) : option str :=
  if Str.startswith (file_name f) (lit ".") then None
  else
    match file_text f with
    | None => None
    | Some content =>
        if negb (Str.contains query_lower (lower_str content)) then None
        else
          let title := file_title (file_stem f) content in
          let snippets := find_snippets query_lower content in
          Some (lit "**" ++ title ++ lit "** (" ++ file_rel f ++ lit "):" ++
                [newline] ++
                join ([newline] ++ lit "..." ++ [newline]) snippets)
    end.

(** The loop over the files of one directory; after an [append] that brings
    the results to ten the loop over this directory is left. *)
Fixpoint workspace_files_loop (query_lower : str) (files : list md_file)
    (results : list str) : list str :=
  match files with
  | [] => results
  | f :: files' =>
      match workspace_entry query_lower f with
      | None => workspace_files_loop query_lower files' results
      | Some entry =>
          let results := results ++ [entry] in
          if 10 <=? length results then results                  (* break *)
          else workspace_files_loop query_lower files' results
      end
  end.

Definition workspace_results (query : str)
    (search_dirs : list (option (list md_file))) : list str :=
  foldl (fun results dir =>
           match dir with
           | None => results                                    (* continue *)
           | Some files => workspace_files_loop (lower_str query) files results
           end)
        [] search_dirs.

Definition search_workspace (query : str)
    (search_dirs : list (option (list md_file))) : str :=
  match workspace_results query search_dirs with
  | [] => lit "No local files found matching '" ++ query ++ lit "'."
  | results =>
      join ([newline; newline] ++ lit "---" ++ [newline; newline]) results
  end.

(** ** The product areas of the investigations page *)

(** The loop of [investigations_list] over the investigations, [areas] being
    their product areas: it keeps the first occurrence of each area. *)
Fixpoint collect_areas (areas : list string) (seen_areas : gset string)
    (product_areas : list string) : list string :=
  match areas with
  | [] => product_areas
  | area :: areas' =>
      if bool_decide (area ∈ seen_areas)
      then collect_areas areas' seen_areas product_areas
      else collect_areas areas' ({[area]} ∪ seen_areas) (product_areas ++ [area])
  end.

Definition canonical_order : list string := area_key <$> PRODUCT_AREA_RULES.

(** [<] on booleans ([False < True]) and on pairs: the first components
    decide unless they are equal. *)
Definition bool_ltb (a b : bool) : bool := negb a && b.

Definition pair_ltb {A B} (eq1 lt1 : A -> A -> bool) (lt2 : B -> B -> bool)
    (a b : A * B) : bool :=
  if eq1 a.1 b.1 then lt2 a.2 b.2 else lt1 a.1 b.1.

(** [(a == "other", canonical_order.index(a) if a in canonical_order else 999)] *)
Definition area_sort_key (a : string) : bool * Z :=
  (bool_decide (a = "other"%string),
   if bool_decide (a ∈ canonical_order)
   then Z.of_nat (index_of a canonical_order) else 999%Z).

Definition area_key_ltb : bool * Z -> bool * Z -> bool :=
  pair_ltb Bool.eqb bool_ltb Z.ltb.

(** The [product_areas] that [investigations_list] passes to the page. *)
Definition product_areas (areas : list string) : list string :=
  sort_by area_key_ltb area_sort_key false (collect_areas areas ∅ []).

(** ** The folders of the archive *)

(** [s.split(sep)] for a separator of one character. *)
Fixpoint split_char (sep : N) (s : str) : list str :=
  match s with
  | [] => [[]]
  | c :: s' =>
      if N.eqb c sep then [] :: split_char sep s'
      else match split_char sep s' with
           | [] => [[c]]
           | part :: parts => (c :: part) :: parts
           end
  end.

(** [_PyUnicode_TransformDecimalAndSpaceToASCII], through which [int] reads a
    string that is not ASCII: a blank becomes a space and a decimal digit
    the ASCII digit of its value; the string ends with a question mark at
    the first other character from 127 on. *)
Fixpoint decimal_and_space_to_ascii (s : str) : str :=
  match s with
  | [] => []
  | c :: s' =>
      if (c <? 127)%N then c :: decimal_and_space_to_ascii s'
      else if Chars.is_space c then " "%ch :: decimal_and_space_to_ascii s'
      else match Chars.decimal c with
           | Some d => ("0"%ch + d)%N :: decimal_and_space_to_ascii s'
           | None => ["?"%ch]
           end
  end.

(** The blanks that [int] drops around the number: those of C. *)
Definition is_c_space (c : N) : bool :=
  ((9 <=? c) && (c <=? 13) || (c =? 32))%N.

Definition digit_value (c : N) : Z := Z.of_N c - 48.

(** The value of a decimal digit, ASCII or not. *)
Definition decimal_value (c : N) : Z := Z.of_N (default 0%N (Chars.decimal c)).

(** The digits of a number, which single underscores may separate;
    [need_digit] holds at the start and after an underscore. *)
Fixpoint int_digits (s : str) (need_digit : bool) (acc : Z) : option Z :=
  match s with
  | [] => if need_digit then None else Some acc
  | c :: s' =>
      if Chars.ascii_digit c then int_digits s' false (10 * acc + digit_value c)
      else if N.eqb c "_"%ch && negb need_digit then int_digits s' true acc
      else None
  end.

(** [int(s)]; [None] is the [ValueError], which a number of more than 4300
    digits raises as well. *)
Definition int (s : str) : option Z :=
  let s := if forallb Chars.is_ascii s then s else decimal_and_space_to_ascii s in
  let s := Str.strip_by is_c_space s in
  let '(negative, body) :=
    match s with
    | c :: body =>
        if N.eqb c "-"%ch then (true, body)
        else if N.eqb c "+"%ch then (false, body)
        else (false, s)
    | [] => (false, s)
    end in
  if 4300 <? length (filter (fun c => Chars.ascii_digit c = true) body) then None
  else (fun n => if negative : bool then (- n)%Z else n) <$> int_digits body true 0.

(** The key of a month folder in [get_archive_months]: the year and the month
    of a name [MM-YYYY], and [(0, 0)] after an [IndexError] or a
    [ValueError]. *)
Definition _month_sort_key (name : str) : Z * Z :=
  default (0, 0)%Z
    (let parts := split_char "-"%ch name in
     p1 ← parts !! 1; year ← int p1;
     p0 ← parts !! 0; month ← int p0;
     Some (year, month)).

(** The folder of an issue created at [created], in [_archive_from_issue]
    and in [archive_issue] of the two scripts; without a date the scripts
    use "unknown" and the application the month of [datetime.now()]:
    [otherwise] is that name. *)
Definition folder_name (created otherwise : str) : str :=
  if truthy created && (10 <=? length created) then
    let year := Str.slice created 0 4 in
    let month := Str.slice created 5 7 in
    month ++ lit "-" ++ year
  else otherwise.

(** [<] on strings: by the first character that differs, a proper prefix
    being smaller. *)
Fixpoint str_ltb (a b : str) : bool :=
  match a, b with
  | _, [] => false
  | [], _ :: _ => true
  | x :: a', y :: b' =>
      if N.eqb x y then str_ltb a' b' else (x <? y)%N
  end.

Definition month_key_ltb : Z * Z -> Z * Z -> bool := pair_ltb Z.eqb Z.ltb Z.ltb.

(** An entry of the archive directory: its name, whether it is a directory,
    and the files that [glob("*.md")] finds in it. *)
Record archive_entry := ArchiveEntry {
  entry_name : str;
  entry_is_dir : bool;
  entry_files : list md_file
}.

Record ticket_info := Ticket {
  ticket_key : str;
  ticket_path : str;
  ticket_title : str;
  ticket_area : string
}.

Record month_info := Month {
  month_name : str;
  month_count : nat;
  month_tickets : list ticket_info
}.

(** The body of the loop over the month folders. The files of one folder
    compare by their names. *)
Definition month_of (d : archive_entry) : month_info :=
  let tickets := sort_by str_ltb file_name true (entry_files d) in
  let ticket_list :=
    (fun t => Ticket (file_stem t) (file_rel t)
                     (archive_title (file_stem t) (file_text t))
                     (detect_product_area (content_preview (file_text t))))
      <$> tickets in
  Month (entry_name d) (length ticket_list) ticket_list.

(** [entries] is [ARCHIVE_DIR.iterdir()], and [None] when the directory does
    not exist. *)
Definition get_archive_months (entries : option (list archive_entry))
  : list month_info :=
  match entries with
  | None => []
  | Some entries =>
      month_of <$>
        filter (fun d => entry_is_dir d = true)
          (sort_by month_key_ltb (fun d => _month_sort_key (entry_name d)) true
                   entries)
  end.

(** [k1 <= k2] on the keys of the months. *)
Definition month_key_le (k1 k2 : Z * Z) : Prop :=
  (k1.1 < k2.1 \/ (k1.1 = k2.1 /\ k1.2 <= k2.2))%Z.

(** ** The list of investigations *)

(** The exceptions of [read_text(encoding="utf-8")]: the file is no UTF-8
    text, or the system does not let it be read ([OSError] and its
    subclasses). *)
Inductive read_error := UnicodeDecodeError | ReadOSError.

(** An entry of the investigations directory: its name, whether it is a
    directory, what reading its [notes.md] gives if there is one, whether it
    has a [response.md], the names of its markdown files, the modification
    times of all its files, and the status and assignee that [_read_meta]
    finds for it. *)
Record inv_dir := InvDir {
  dir_name : str;
  dir_is_dir : bool;
  dir_notes : option (read_error + str);
  dir_has_response : bool;
  dir_md_names : list str;
  dir_mod_times : list Z;
  dir_meta : str * str
}.

(** An element of the list of [get_investigations]; a datetime is counted
    from [datetime.min]. *)
Record investigation := Investigation {
  inv_key : str;
  inv_title : str;
  inv_has_notes : bool;
  inv_has_response : bool;
  inv_files : list str;
  inv_file_count : nat;
  inv_last_modified : option N;
  inv_path : str;
  inv_status : str;
  inv_assignee : str;
  inv_product_area : string
}.

(** [max(l)] of a list that is not empty. *)
Definition max_of (l : list Z) : Z :=
  match l with
  | [] => 0%Z
  | x :: l' => foldl Z.max x l'
  end.

(** [not d.is_dir() or d.name.startswith(".")] is false. *)
Definition visible (d : inv_dir) : bool :=
  negb (negb (dir_is_dir d) || Str.startswith (dir_name d) (lit ".")).

(** The notes of a directory are read without an exception. *)
Definition readable (d : inv_dir) : bool :=
  match dir_notes d with
  | Some (inl _) => false
  | _ => true
  end.

Section Investigations.
(** [datetime.fromtimestamp], which depends on the time zone of the machine. *)
Variable fromtimestamp : Z -> N.

(** The body of the loop over the directories once [notes.md] has been
    read, [notes] being its text. The second read, which ignores what it
    cannot decode and is guarded, then gives the same text. *)
Definition investigation_with (d : inv_dir) (notes : option str) : investigation :=
  let ticket_key := dir_name d in
  let title := investigation_title ticket_key notes in
  let md_files := sort_by str_ltb id false (dir_md_names d) in
  let last_modified :=
    match dir_mod_times d with
    | [] => None
    | mod_times => Some (fromtimestamp (max_of mod_times))
    end in
  let area_text :=
    match notes with
    | Some notes => title ++ lit " " ++ take 2000 notes
    | None => title
    end in
  Investigation ticket_key title (bool_decide (is_Some notes))
                (dir_has_response d) md_files (length md_files) last_modified
                (lit "investigations/" ++ dir_name d)
                (dir_meta d).1 (dir_meta d).2 (detect_product_area area_text).

(** The body of the loop: the first read of [notes.md] is not guarded, and
    its exception leaves the function. *)
Definition investigation_of (d : inv_dir) : read_error + investigation :=
  match dir_notes d with
  | None => inr (investigation_with d None)
  | Some (inl e) => inl e
  | Some (inr text) => inr (investigation_with d (Some text))
  end.

(** The loop over the directories. *)
Fixpoint investigations_loop (dirs : list inv_dir)
  : read_error + list investigation :=
  match dirs with
  | [] => inr []
  | d :: dirs' =>
      match investigation_of d with
      | inl e => inl e
      | inr i =>
          match investigations_loop dirs' with
          | inl e => inl e
          | inr investigations => inr (i :: investigations)
          end
      end
  end.

(** [x["last_modified"] or datetime.min] *)
Definition modified_key (x : investigation) : N := default 0%N (inv_last_modified x).

(** [entries] is [INVESTIGATIONS_DIR.iterdir()], and [None] when the
    directory does not exist. *)
Definition get_investigations (entries : option (list inv_dir))
  : read_error + list investigation :=
  match entries with
  | None => inr []
  | Some entries =>
      match investigations_loop
              (filter (fun d => visible d = true)
                      (sort_by str_ltb dir_name true entries)) with
      | inl e => inl e
      | inr investigations => inr (sort_by N.ltb modified_key true investigations)
      end
  end.

End Investigations.

End Pages.

(** ** Atlassian documents *)

(** A value that [json.loads] returns; the entries of a dict are in the
    order of insertion, each key once. *)
#[local] Unset Elimination Schemes.
Inductive json :=
| JNull
| JBool (b : bool)
| JInt (n : Z)
| JFloat (f : spec_float)
| JStr (s : str)
| JList (items : list json)
| JDict (entries : list (str * json)).
#[local] Set Elimination Schemes.

(** [bool(v)], as in [if not node]. *)
Definition json_truthy (v : json) : bool :=
  match v with
  | JNull => false
  | JBool b => b
  | JInt n => negb (n =? 0)%Z
  | JFloat (S754_zero _) => false
  | JFloat _ => true
  | JStr s => truthy s
  | JList items => match items with [] => false | _ :: _ => true end
  | JDict entries => match entries with [] => false | _ :: _ => true end
  end.

(** [d.get(key)] and, with [is_Some], [key in d]. *)
Fixpoint dict_get (key : str) (entries : list (str * json)) : option json :=
  match entries with
  | [] => None
  | (k, v) :: entries' =>
      if bool_decide (k = key) then Some v else dict_get key entries'
  end.

(** [v == s] for a string [s], [v] being the result of a [get]. *)
Definition is_str (v : option json) (s : str) : bool :=
  match v with
  | Some (JStr s') => bool_decide (s' = s)
  | _ => false
  end.

(** [for c in content]: the items of a list, the characters of a string, the
    keys of a dict; any other value raises [TypeError]. *)
Definition iterate (content : json) : result (list json) :=
  match content with
  | JList items => Ok items
  | JStr s => Ok ((fun c => JStr [c]) <$> s)
  | JDict entries => Ok ((fun e => JStr e.1) <$> entries)
  | _ => Raise TypeError
  end.

(** ["".join(parts)], which raises [TypeError] on a part that is no string. *)
Fixpoint join_strs (parts : list json) : result str :=
  match parts with
  | [] => Ok []
  | part :: parts' =>
      rest ← join_strs parts';
      match part with
      | JStr s => Ok (s ++ rest)
      | _ => Raise TypeError
      end
  end.

(** The generator [f(c) for c in items], consumed by [join]. *)
Fixpoint map_result {A B} (f : A -> result B) (l : list A) : result (list B) :=
  match l with
  | [] => Ok []
  | x :: l' => y ← f x; ys ← map_result f l'; Ok (y :: ys)
  end.

(** [_extract_adf_text] of [tools.py]. The recursion is written on the
    structure of the value: [joined] is the [join] over the items of a list,
    and [of_content] the [join] over [node["content"]], where the
    characters of a string and the keys of a dict are strings, which the
    function returns as they are. [_extract_adf_text_eq] below shows that
    the definition satisfies the equation that the source reads. The result
    is a value, since the text of a text node can be anything. *)
Fixpoint _extract_adf_text (node : json) : result json :=
  let joined :=
    fix joined (items : list json) : result str :=
      match items with
      | [] => Ok []
      | c :: items' =>
          part ← _extract_adf_text c;
          rest ← joined items';
          match part with
          | JStr s => Ok (s ++ rest)
          | _ => Raise TypeError
          end
      end in
  let of_content := fun content : json =>
    match content with
    | JList items => JStr <$> joined items
    | JStr s => Ok (JStr s)
    | JDict keys => Ok (JStr (concat (fst <$> keys)))
    | _ => Raise TypeError
    end in
  if negb (json_truthy node) then Ok (JStr [])
  else
    match node with
    | JStr _ => Ok node
    | JDict entries =>
        if is_str (dict_get (lit "type") entries) (lit "text")
        then Ok (default (JStr []) (dict_get (lit "text") entries))
        else
          (fix content_of (es : list (str * json)) : result json :=
             match es with
             | [] => Ok (JStr [])
             | (k, v) :: es' =>
                 if bool_decide (k = lit "content") then of_content v
                 else content_of es'
             end) entries
    | JList items => JStr <$> joined items
    | _ => Ok (JStr [])
    end.

(** [extract_node], the inner function of [extract_text] in
    [jira_client.py] and in [bulk_archive.py]. *)
Fixpoint extract_node (node : json) : result json :=
  let joined :=
    fix joined (items : list json) : result str :=
      match items with
      | [] => Ok []
      | c :: items' =>
          part ← extract_node c;
          rest ← joined items';
          match part with
          | JStr s => Ok (s ++ rest)
          | _ => Raise TypeError
          end
      end in
  let of_content := fun content : json =>
    match content with
    | JList items => JStr <$> joined items
    | JStr s => Ok (JStr s)
    | JDict keys => Ok (JStr (concat (fst <$> keys)))
    | _ => Raise TypeError
    end in
  match node with
  | JStr _ => Ok node
  | JDict entries =>
      if is_str (dict_get (lit "type") entries) (lit "text")
      then Ok (default (JStr []) (dict_get (lit "text") entries))
      else
        (fix content_of (es : list (str * json)) : result json :=
           match es with
           | [] => Ok (JStr [])
           | (k, v) :: es' =>
               if bool_decide (k = lit "content") then of_content v
               else content_of es'
           end) entries
  | JList items => JStr <$> joined items
  | _ => Ok (JStr [])
  end.

Definition extract_text (adf_content : json) : result json :=
  if negb (json_truthy adf_content) then Ok (JStr [])
  else extract_node adf_content.

(** The body of both functions, [rec] being the recursive call. *)
Definition extract_body (rec : json -> result json) (node : json) : result json :=
  match node with
  | JStr _ => Ok node
  | JDict entries =>
      if is_str (dict_get (lit "type") entries) (lit "text")
      then Ok (default (JStr []) (dict_get (lit "text") entries))
      else
        match dict_get (lit "content") entries with
        | Some content =>
            items ← iterate content;
            parts ← map_result rec items;
            JStr <$> join_strs parts
        | None => Ok (JStr [])
        end
  | JList items => parts ← map_result rec items; JStr <$> join_strs parts
  | _ => Ok (JStr [])
  end.

(** A document in the Atlassian format: a text node, or a node whose
    content, if it has one, is a list of nodes. *)
#[local] Unset Elimination Schemes.
Inductive adf_node : json -> Prop :=
| adf_text entries s :
    dict_get (lit "type") entries = Some (JStr (lit "text")) ->
    dict_get (lit "text") entries = Some (JStr s) ->
    adf_node (JDict entries)
| adf_block entries items :
    is_str (dict_get (lit "type") entries) (lit "text") = false ->
    dict_get (lit "content") entries = Some (JList items) ->
    Forall adf_node items ->
    adf_node (JDict entries)
| adf_leaf entries :
    is_str (dict_get (lit "type") entries) (lit "text") = false ->
    dict_get (lit "content") entries = None ->
    adf_node (JDict entries).
#[local] Set Elimination Schemes.

Section EnvFile.
Context {U : Unicode}.

(** ** The [.env] file *)

(** The lines that [for line in f] yields for a file opened in text mode:
    a line ends with "\n", with "\r\n" or with "\r", which all read as
    "\n". *)
Fixpoint file_lines (text : str) : list str :=
  match text with
  | [] => []
  | c :: text' =>
      if N.eqb c newline then [newline] :: file_lines text'
      else if N.eqb c 13 then                               (* carriage return *)
        [newline] ::
          match text' with
          | c' :: text'' =>
              if N.eqb c' newline then file_lines text'' else file_lines text'
          | [] => []
          end
      else
        match file_lines text' with
        | [] => [[c]]
        | line :: lines => (c :: line) :: lines
        end
  end.

(** [s.split(sep, 1)] for a string that contains [sep]: the parts before and
    after the first [sep]. *)
Fixpoint split_once (sep : N) (s : str) : str * str :=
  match s with
  | [] => ([], [])
  | c :: s' =>
      if N.eqb c sep then ([], s')
      else let '(before, after) := split_once sep s' in (c :: before, after)
  end.

(** The assignment in a line of the file, if the line has one: the
    condition and the body of the loops of [_load_env_file] and of
    [load_env], up to the assignment. *)
Definition env_entry (line : str) : option (str * str) :=
  let line := Str.strip line in
  if truthy line && negb (Str.startswith line (lit "#"))
     && Str.contains (lit "=") line
  then
    let '(key, value) := split_once "="%ch line in
    Some (Str.strip key, Str.strip value)
  else None.

(** [load_env] of [bulk_archive.py], where a missing file gives no
    variables; [load_env] of [jira_client.py] has the same loop and leaves
    the program when the file is missing. *)
Definition load_env (file : option str) : gmap str str :=
  match file with
  | None => ∅
  | Some text =>
      foldl (fun env line =>
               match env_entry line with
               | Some (key, value) => <[key := value]> env
               | None => env
               end)
            ∅ (file_lines text)
  end.

Inductive env_error := OSError | ValueError.

(** [os.environ[key] = value]: a null character in the name or in the value
    is a [ValueError], and an empty name is refused by the system. *)
Definition putenv (environ : gmap str str) (key value : str)
  : env_error + gmap str str :=
  if bool_decide (0%N ∈ key) || bool_decide (0%N ∈ value)
  then inl ValueError
  else if bool_decide (key = []) then inl OSError
  else inr (<[key := value]> environ).

(** The loop of [_load_env_file] over the lines, [environ] being
    [os.environ]. *)
Fixpoint load_env_lines (lines : list str) (environ : gmap str str)
  : env_error + gmap str str :=
  match lines with
  | [] => inr environ
  | line :: lines' =>
      match env_entry line with
      | Some (key, value) =>
          if bool_decide (is_Some (environ !! key))
          then load_env_lines lines' environ
          else
            match putenv environ key value with
            | inl e => inl e
            | inr environ' => load_env_lines lines' environ'
            end
      | None => load_env_lines lines' environ
      end
  end.

Definition _load_env_file (file : option str) (environ : gmap str str)
  : env_error + gmap str str :=
  match file with
  | None => inr environ
  | Some text => load_env_lines (file_lines text) environ
  end.

(** An assignment that [os.environ] accepts. *)
Definition assignable (e : str * str) : Prop :=
  (0%N ∉ fst e) /\ (0%N ∉ snd e) /\ fst e <> [].

#[global] Instance assignable_dec e : Decision (assignable e).
Proof. unfold assignable. apply _. Defined.

(** The assignments of a file, in the order of its lines. *)
Definition env_entries (text : str) : list (str * str) :=
  omap env_entry (file_lines text).

End EnvFile.

(** ** The summary of an archived ticket *)

(** The insertion of the summary in [_archive_from_issue], after the first
    line of the markdown of the issue; [ai_summary] is the answer of
    [_generate_summary_sync], empty when there is none. *)
Definition with_summary (key md ai_summary : str) : str :=
  if truthy ai_summary then
    let lines := split_max 1 md in
    let heading :=
      match lines with
      | line :: _ => line
      | [] => lit "# " ++ key
      end in
    let rest := default [] (lines !! 1) in
    heading ++ [newline; newline] ++ lit "> **AI Summary:** " ++ ai_summary
            ++ [newline] ++ rest
  else md.

(** ** The tree of the documentation *)

(** An entry of a directory: a directory with its entries, or anything else,
    with its path from [ROOT]. *)
#[local] Unset Elimination Schemes.
Inductive fs_entry :=
| FsDir (name : str) (items : list fs_entry)
| FsFile (name : str) (rel : str).

(** A node of the tree that [get_docs_tree] returns. *)
Inductive doc_node :=
| DocFile (name path : str)
| DocDir (name : str) (children : list doc_node).
#[local] Set Elimination Schemes.

Definition fs_name (item : fs_entry) : str :=
  match item with
  | FsDir name _ => name
  | FsFile name _ => name
  end.

(** [item.name.startswith(".") or item.name.startswith("_")] *)
Definition hidden (name : str) : bool :=
  Str.startswith name (lit ".") || Str.startswith name (lit "_").

(** [s.endswith(suffix)] *)
Definition endswith (s suffix : str) : bool :=
  Str.startswith (reverse s) (reverse suffix).

(** [item.suffix == ".md"] for a name that does not start with a dot: the
    name ends with ".md" and has something before it. *)
Definition is_md (name : str) : bool :=
  endswith name (lit ".md") && (3 <? length name).

(** [item.stem] of such a name. *)
Definition md_stem (name : str) : str := take (length name - 3) name.

(** What the loop of [get_docs_tree] appends for one item. The recursion is
    written on the structure of the directory: the items are paired with
    their nodes before they are sorted; [get_docs_tree_eq] below shows that
    the definition satisfies the equation that the source reads. *)
Fixpoint node_of (item : fs_entry) : option doc_node :=
  match item with
  | FsDir name items =>
      if hidden name then None
      else
        let paired :=
          (fix paired (items : list fs_entry) : list (str * option doc_node) :=
             match items with
             | [] => []
             | i :: items' => (fs_name i, node_of i) :: paired items'
             end) items in
        let children := omap snd (sort_by str_ltb fst false paired) in
        match children with
        | [] => None
        | _ :: _ => Some (DocDir name children)
        end
  | FsFile name rel =>
      if hidden name then None
      else if is_md name then Some (DocFile (md_stem name) rel)
      else None
  end.

(** [base_dir] holds the entries of the directory, and is [None] when the
    directory does not exist. *)
Definition get_docs_tree (base_dir : option (list fs_entry)) : list doc_node :=
  match base_dir with
  | None => []
  | Some items => omap node_of (sort_by str_ltb fs_name false items)
  end.

(** A tree without hidden names and without empty directories. *)
#[local] Unset Elimination Schemes.
Inductive doc_ok : doc_node -> Prop :=
| doc_ok_file name path :
    hidden name = false -> doc_ok (DocFile name path)
| doc_ok_dir name children :
    hidden name = false -> children <> [] -> Forall doc_ok children ->
    doc_ok (DocDir name children).
#[local] Set Elimination Schemes.

(** The number of pages below a node. *)
Fixpoint pages (node : doc_node) : nat :=
  match node with
  | DocFile _ _ => 1
  | DocDir _ children =>
      (fix sum (children : list doc_node) : nat :=
         match children with
         | [] => 0
         | c :: children' => pages c + sum children'
         end) children
  end.

(** ** Some rows of the tables *)

(** [a <= c <= b] *)
Definition between (a b c : N) : bool := ((a <=? c) && (c <=? b))%N.

(** The rows of the Unicode tables for the characters from 128 to 255, for
    the four characters outside that [re.IGNORECASE] folds onto the letters
    i, k and s (the capital I with a dot, the dotless i, the long s and the
    Kelvin sign), for the three sigmas, for the Arabic-Indic digits and for
    the combining dot above; every other character is taken as one that is
    not assigned. *)
Definition unicode_sample : Unicode.
Proof.
  refine {|
    uni_isspace c := Str.among [133; 160]%N c;
    uni_isalnum c :=
      Str.among [170; 178; 179; 181; 185; 186; 188; 189; 190;
                 304; 305; 383; 8490; 931; 962; 963]%N c
      || between 192 214 c || between 216 246 c || between 248 255 c
      || between 1632 1641 c;
    uni_decimal c := if between 1632 1641 c then Some (c - 1632)%N else None;
    uni_tolower c :=
      if between 192 214 c || between 216 222 c then (c + 32)%N
      else if (c =? 304)%N then "i"%ch
      else if (c =? 8490)%N then "k"%ch
      else if (c =? 931)%N then 963%N
      else c;
    uni_fixes c :=
      if (c =? "i"%ch)%N then [305%N]
      else if (c =? "s"%ch)%N then [383%N]
      else [];
    uni_lower c :=
      if between 192 214 c || between 216 222 c then [(c + 32)%N]
      else if (c =? 304)%N then ["i"%ch; 775%N]
      else if (c =? 8490)%N then ["k"%ch]
      else if (c =? 931)%N then [963%N]
      else [c];
    uni_cased c :=
      Str.among [170; 181; 186; 304; 305; 383; 8490; 931; 962; 963]%N c
      || between 192 214 c || between 216 246 c || between 248 255 c;
    uni_case_ignorable c := Str.among [168; 173; 175; 180; 183; 184; 775]%N c
  |}.
  - intros c Hc. unfold between.
    repeat match goal with
           | |- context [if ?b then _ else _] => destruct b eqn:?
           end;
      rewrite ?elem_of_cons, elem_of_nil; lia.
  - intros c d. unfold between.
    destruct (_ && _) eqn:Hc; [|done]. intros [= <-].
    apply andb_true_iff in Hc as [?%N.leb_le ?%N.leb_le]. lia.
  - intros c d. unfold between, Str.among.
    destruct (_ && _) eqn:Hc; [|done]. intros _. cbn [existsb].
    apply andb_true_iff in Hc as [?%N.leb_le ?%N.leb_le].
    repeat match goal with
           | |- context [N.eqb ?a ?b] => destruct (N.eqb_spec a b)
           end; (done || lia).
Defined.

(** * Properties *)

(** The statements without a parameter for the tables, which are examples,
    take the rows of [unicode_sample]. *)
#[local] Existing Instance unicode_sample | 100.

(** ** Facts about strings and matches *)

Section StrFacts.

Lemma startswith_spec (s p : str) :
  Str.startswith s p = true <-> exists b, s = p ++ b.
Proof.
  revert s. induction p as [|c p IH]; intros [|d s]; simpl.
  - split; [intros _; by exists [] | done].
  - split; [intros _; by exists (d :: s) | done].
  - split; [done | intros [b Hb]; discriminate].
  - rewrite andb_true_iff, N.eqb_eq, IH. split.
    + intros [-> [b ->]]. eauto.
    + intros [b [= -> ->]]. eauto.
Qed.

Lemma contains_spec (n s : str) :
  Str.contains n s = true <-> exists a b, s = a ++ n ++ b.
Proof.
  induction s as [|c s IH].
  - cbn [Str.contains]. rewrite orb_false_r, startswith_spec. split.
    + intros [b ->]. by exists [], b.
    + intros (a & b & H). symmetry in H.
      apply app_eq_nil in H as [-> H]. eauto.
  - cbn [Str.contains]. rewrite orb_true_iff, startswith_spec, IH. split.
    + intros [[b ->]|(a & b & ->)]; [by exists [], b | by exists (c :: a), b].
    + intros (a & b & H). destruct a as [|d a].
      * left. eauto.
      * right. injection H as -> ->. eauto.
Qed.

Lemma contains_refl (x : str) : Str.contains x x = true.
Proof. apply contains_spec. exists [], []. by rewrite app_nil_r. Qed.

(** Containment goes up from an infix. *)
Lemma contains_infix (n s a b : str) :
  Str.contains n s = true -> Str.contains n (a ++ s ++ b) = true.
Proof.
  rewrite !contains_spec. intros (a' & b' & ->).
  exists (a ++ a'), (b' ++ b). by rewrite <- !app_assoc.
Qed.

Lemma split_lines_cons (s : str) : exists l ls, Str.split_lines s = l :: ls.
Proof.
  induction s as [|c s (l & ls & IH)]; cbn [Str.split_lines]; [by eexists _, _|].
  destruct (N.eqb c newline); [by eexists _, _|]. rewrite IH. by eexists _, _.
Qed.

Lemma startswith_contains (s q : str) :
  Str.startswith s q = true -> Str.contains q s = true.
Proof.
  intros [b ->]%startswith_spec. apply contains_spec. by exists [], b.
Qed.

Lemma contains_cons (q s : str) c :
  Str.contains q s = true -> Str.contains q (c :: s) = true.
Proof.
  intros (a & b & ->)%contains_spec. apply contains_spec. by exists (c :: a), b.
Qed.

(** A prefix without a newline lies in the first line. *)
Lemma first_line_prefix (s q : str) :
  newline ∉ q -> Str.startswith s q = true ->
  exists l ls, Str.split_lines s = l :: ls /\ Str.startswith l q = true.
Proof.
  revert q. induction s as [|c s IH]; intros q Hq Hs.
  - destruct q; [|done]. by exists [], [].
  - destruct q as [|x q].
    { destruct (split_lines_cons (c :: s)) as (l & ls & ->).
      exists l, ls. split; [done|]. by destruct l. }
    cbn [Str.startswith] in Hs. apply andb_true_iff in Hs as [Hx Hs].
    apply N.eqb_eq in Hx as ->.
    apply not_elem_of_cons in Hq as [Hc Hq].
    destruct (IH q Hq Hs) as (l & ls & Hl & Hlq).
    cbn [Str.split_lines]. destruct (N.eqb_spec c newline); [done|].
    rewrite Hl. exists (c :: l), ls. split; [done|].
    cbn [Str.startswith]. by rewrite N.eqb_refl.
Qed.

(** A text without a newline that occurs in [s] occurs in a line of [s]. *)
Lemma contains_in_some_line (q s : str) :
  newline ∉ q -> Str.contains q s = true ->
  Exists (fun l => Str.contains q l = true) (Str.split_lines s).
Proof.
  intros Hq. induction s as [|c s IH]; cbn [Str.contains].
  - rewrite orb_false_r. intros Hs. destruct q; [|done]. by left.
  - intros [Hs|Hs]%orb_true_iff.
    + destruct (first_line_prefix _ _ Hq Hs) as (l & ls & -> & Hl).
      left. by apply startswith_contains.
    + specialize (IH Hs). cbn [Str.split_lines].
      destruct (N.eqb c newline); [by right|].
      destruct (Str.split_lines s) as [|l ls]; [by apply Exists_nil in IH|].
      apply Exists_cons in IH as [Hl|Hls]; [left | by right].
      by apply contains_cons.
Qed.

End StrFacts.

Section ReFacts.
Context {U : Unicode}.
Context (p : pattern) (t : str).

Lemma match_at_start i mo : match_at p t i = Some mo -> m_start mo = i.
Proof.
  unfold match_at. destruct (matches _ _ _ _ _) as [|[j c] ?]; [done|].
  by intros [= <-].
Qed.

(** The matches of a scan start at positions of the scan, in its order. *)
Lemma finditer_in_order starts next :
  StronglySorted lt starts ->
  in_text_order (finditer_in p t starts next) /\
  Forall (fun mo => m_start mo ∈ starts) (finditer_in p t starts next).
Proof.
  revert next. induction starts as [|i starts IH]; intros next Hs; simpl.
  - split; constructor.
  - apply StronglySorted_cons in Hs as [Hi Hs].
    assert (Hup : forall ms, Forall (fun mo => m_start mo ∈ starts) ms ->
                             Forall (fun mo => m_start mo ∈ i :: starts) ms).
    { intros ms Hms. eapply Forall_impl; [exact Hms|].
      intros mo ?. by apply elem_of_cons; right. }
    destruct (i <? next).
    { destruct (IH next Hs). auto. }
    destruct (match_at p t i) as [mo|] eqn:Hm.
    2:{ destruct (IH next Hs). auto. }
    destruct (IH (m_end mo `max` S i) Hs) as [Ho Hin]. split.
    + apply StronglySorted_cons. split; [|done].
      rewrite (match_at_start _ _ Hm).
      eapply Forall_impl; [exact Hin|]. intros mo' Hmo'. cbn beta in *.
      rewrite Forall_forall in Hi. by apply Hi.
    + constructor; [|auto]. rewrite (match_at_start _ _ Hm).
      apply elem_of_cons; by left.
Qed.

(** A match takes at least [min_len] characters. *)
Lemma matches_min_len icase (r : re) i cs j cs' :
  (j, cs') ∈ matches icase t r i cs -> i + min_len r <= j.
Proof.
  revert i cs j cs'.
  induction r as [|s|s|a IHa b IHb|a IHa b IHb| | |n a IHa];
    intros i cs j cs'; cbn [matches min_len].
  - intros [= -> _]%list_elem_of_singleton. lia.
  - destruct (t !! i) as [c|]; [|by intros ?%elem_of_nil].
    destruct (cset_has icase s c); [|by intros ?%elem_of_nil].
    intros [= -> _]%list_elem_of_singleton. lia.
  - intros (k & [= -> _] & _)%list_elem_of_fmap. lia.
  - intros ([j1 c1] & Hb & Ha)%list_elem_of_bind.
    apply IHa in Ha. apply IHb in Hb. lia.
  - intros [Ha|Hb]%elem_of_app; [apply IHa in Ha | apply IHb in Hb]; lia.
  - destruct (boundary t i); [|by intros ?%elem_of_nil].
    intros [= -> _]%list_elem_of_singleton. lia.
  - destruct (at_end t i); [|by intros ?%elem_of_nil].
    intros [= -> _]%list_elem_of_singleton. lia.
  - intros ([j1 c1] & [= -> _] & Ha)%list_elem_of_fmap. by apply IHa in Ha.
Qed.

Lemma match_at_min_len i mo :
  match_at p t i = Some mo -> m_start mo + min_len (pat_re p) <= m_end mo.
Proof.
  unfold match_at.
  destruct (matches _ _ _ _ _) as [|[j c] l] eqn:Hm; [done|].
  intros [= <-]. cbn [m_start m_end].
  apply (matches_min_len (pat_icase p) _ _ [] _ c). rewrite Hm. left.
Qed.

Lemma seq_sorted a n : StronglySorted lt (seq a n).
Proof.
  revert a. induction n as [|n IH]; intros a; simpl; constructor; [apply IH|].
  apply Forall_forall. intros x Hx%elem_of_seq. lia.
Qed.

Lemma finditer_order : in_text_order (finditer p t).
Proof. apply finditer_in_order, seq_sorted. Qed.

End ReFacts.

Section MoreReFacts.
Context {U : Unicode}.
Context (p : pattern) (t : str).

(** Every match of a scan is the match of the pattern at its start. *)
Lemma finditer_in_match_at starts next :
  Forall (fun mo => match_at p t (m_start mo) = Some mo)
         (finditer_in p t starts next).
Proof.
  revert next. induction starts as [|i starts IH]; intros next; cbn [finditer_in].
  - constructor.
  - destruct (i <? next); [apply IH|].
    destruct (match_at p t i) as [mo|] eqn:Hm; [|apply IH].
    constructor; [|apply IH]. by rewrite (match_at_start _ _ _ _ Hm).
Qed.

Lemma finditer_match_at mo :
  mo ∈ finditer p t -> match_at p t (m_start mo) = Some mo.
Proof.
  intros Hmo. pose proof (finditer_in_match_at (seq 0 (S (length t))) 0) as H.
  rewrite Forall_forall in H. by apply H.
Qed.

End MoreReFacts.

(** No pattern that goes through [finditer] matches the empty string: a scan
    always resumes at the end of the match. *)
Lemma scanned_patterns_advance {U : Unicode} p t i mo :
  p ∈ scanned_patterns ->
  match_at p t i = Some mo -> m_end mo `max` S i = m_end mo.
Proof.
  intros Hp Hm.
  assert (Hmin : Forall (fun p => 1 <= min_len (pat_re p)) scanned_patterns).
  { apply (bool_decide_unpack _). vm_compute. exact I. }
  rewrite Forall_forall in Hmin. specialize (Hmin p Hp).
  apply match_at_min_len in Hm as Hlen.
  apply match_at_start in Hm. lia.
Qed.

Lemma in_text_order_sublist ms ms' :
  ms' `sublist_of` ms -> in_text_order ms -> in_text_order ms'.
Proof.
  unfold in_text_order. induction 1 as [|x l1 l2 Hsub IH|x l1 l2 Hsub IH]; intros Hs.
  - constructor.
  - apply StronglySorted_cons in Hs as [Hx Hs].
    apply StronglySorted_cons. split; [|auto].
    rewrite Forall_forall in *. intros y Hy. apply Hx.
    by apply (sublist_subseteq _ _ Hsub).
  - apply StronglySorted_cons in Hs as [_ Hs]. auto.
Qed.

(** ** Context snippets *)

Section Snippets.
Context {U : Unicode}.

Lemma lstrip_by_suffix f (s : str) : exists a, s = a ++ Str.lstrip_by f s.
Proof.
  induction s as [|c s [a IH]]; simpl.
  - by exists [].
  - destruct (f c); [|by exists []]. exists (c :: a). simpl. by f_equal.
Qed.

Lemma rstrip_by_prefix f (s : str) : exists b, s = Str.rstrip_by f s ++ b.
Proof.
  unfold Str.rstrip_by. destruct (lstrip_by_suffix f (reverse s)) as [a Ha].
  exists (reverse a). rewrite <- reverse_app, <- Ha. by rewrite reverse_involutive.
Qed.

Lemma strip_by_infix f (s : str) : exists a b, s = a ++ Str.strip_by f s ++ b.
Proof.
  unfold Str.strip_by. destruct (lstrip_by_suffix f s) as [a Ha].
  destruct (rstrip_by_prefix f (Str.lstrip_by f s)) as [b Hb].
  exists a, b. by rewrite <- Hb.
Qed.

Lemma contains_strip_by f (n s : str) :
  Str.contains n s = false -> Str.contains n (Str.strip_by f s) = false.
Proof.
  intros Hs. apply not_true_is_false. intros Hc.
  destruct (strip_by_infix f s) as (a & b & Heq).
  rewrite Heq, (contains_infix _ _ a b Hc) in Hs. done.
Qed.

(** An occurrence in a truncated text with its ellipsis is an occurrence in
    the text, or it runs into the ellipsis. *)
Lemma contains_truncated (n s : str) k :
  Str.contains n (take k s ++ lit "...") = true ->
  Str.contains n s = true \/ "."%ch ∈ n.
Proof.
  intros (a & b & Heq)%contains_spec.
  assert (Hpre : forall l, take k s = a ++ n ++ l -> Str.contains n s = true).
  { intros l Hl. apply contains_spec. exists a, (l ++ drop k s).
    rewrite <- (take_drop k s) at 1. rewrite Hl. by rewrite <- !app_assoc. }
  rewrite (app_assoc a n b) in Heq.
  apply app_eq_app in Heq as [l [[Hx _]|[Hx Hy]]].
  { left. apply (Hpre l). by rewrite Hx, <- app_assoc. }
  destruct (decide (l = [])) as [->|Hl].
  { left. apply (Hpre []). by rewrite app_nil_r in *. }
  destruct n as [|c0 n0] using rev_ind.
  { left. apply contains_spec. by exists [], s. }
  right. clear IHn0.
  destruct (exists_last Hl) as (l' & d & ->).
  rewrite !app_assoc in Hx. apply app_inj_tail in Hx as [_ ->].
  assert (Hd : d ∈ lit "...").
  { rewrite Hy. apply elem_of_app. left. apply elem_of_app. right. left. }
  apply elem_of_app. right.
  vm_compute in Hd.
  repeat (apply elem_of_cons in Hd as [->|Hd]; [left|]).
  by apply elem_of_nil in Hd.
Qed.

Lemma context_of_line_length needle line :
  length (context_of_line needle line) <= 150.
Proof.
  unfold context_of_line. cbn zeta.
  destruct (150 <? length (without_needle needle line)) eqn:Hlen.
  - rewrite length_app, length_take. change (length (lit "...")) with 3. lia.
  - apply Nat.ltb_ge in Hlen. lia.
Qed.

Lemma get_context_first_line lines needle full_text :
  _get_context_for_match lines needle full_text =
  match first_line_with lines needle with
  | Some line => context_of_line needle line
  | None => []
  end.
Proof.
  induction lines as [|line lines IH]; [done|]. simpl.
  by destruct (Str.contains needle line).
Qed.

Lemma get_context_length lines needle full_text :
  length (_get_context_for_match lines needle full_text) <= 150.
Proof.
  rewrite get_context_first_line. destruct (first_line_with lines needle).
  - apply context_of_line_length.
  - simpl. lia.
Qed.

Lemma get_context_no_line lines needle full_text :
  Forall (fun line => Str.contains needle line = false) lines ->
  _get_context_for_match lines needle full_text = [].
Proof. induction 1 as [|line lines Hl _ IH]; [done|]. simpl. by rewrite Hl. Qed.

Lemma lstrip_by_split f (s : str) :
  exists a, s = a ++ Str.lstrip_by f s /\ Forall (fun c => f c = true) a /\
            match Str.lstrip_by f s with [] => True | c :: _ => f c = false end.
Proof.
  induction s as [|c s (a & Hs & Ha & Hh)]; cbn [Str.lstrip_by].
  - by exists [].
  - destruct (f c) eqn:Hc.
    + exists (c :: a). split_and!; [cbn; by f_equal | by constructor | done].
    + by exists [].
Qed.

Lemma lstrip_by_app f (a rest : str) :
  Forall (fun c => f c = true) a ->
  match rest with [] => True | c :: _ => f c = false end ->
  Str.lstrip_by f (a ++ rest) = rest.
Proof.
  intros Ha Hrest. induction Ha as [|c a Hc _ IH]; cbn [app Str.lstrip_by].
  - destruct rest as [|c rest]; [done|]. cbn [Str.lstrip_by]. by rewrite Hrest.
  - by rewrite Hc.
Qed.

End Snippets.

(** ** The two passes over one source type *)

Section Passes.
Context {U : Unicode}.
Context (src : string) (raw_text : str) (lines : list str).

Local Abbreviation ustep := (url_step src raw_text lines).
Local Abbreviation rstep := (ref_step src raw_text lines).
Local Abbreviation uref := (url_reference src raw_text lines).
Local Abbreviation bref := (bare_reference src raw_text lines).
Local Abbreviation ukey := (url_key src raw_text).
Local Abbreviation text_of := (group0 raw_text).

Lemma url_step_unfold st mo :
  ustep st mo =
  if bool_decide (ukey mo ∈ refs_seen st) then st
  else Scan ({[ ukey mo ]} ∪ refs_seen st) (scan_refs st ++ [uref mo]).
Proof. reflexivity. Qed.

(** The URL pass keeps the matches whose key is new, at their leftmost
    occurrence. *)
Lemma url_loop_spec ms :
  in_text_order ms -> forall st0,
  exists kept,
    scan_refs (foldl ustep st0 ms) = scan_refs st0 ++ (uref <$> kept) /\
    refs_seen st0 ⊆ refs_seen (foldl ustep st0 ms) /\
    kept `sublist_of` ms /\
    Forall (fun m => ukey m ∉ refs_seen st0) kept /\
    NoDup (ukey <$> kept) /\
    (forall m m', m ∈ kept -> m' ∈ ms -> ukey m' = ukey m ->
                  m_start m <= m_start m').
Proof.
  induction ms as [|x l IH]; intros Hord st0.
  { exists []. simpl. rewrite app_nil_r.
    split_and!; [done | done | constructor | constructor | constructor |].
    intros m m' Hm. by apply elem_of_nil in Hm. }
  apply StronglySorted_cons in Hord as [Hx Hord]. rewrite Forall_forall in Hx.
  cbn [foldl]. rewrite url_step_unfold. case_bool_decide as Hseen.
  - destruct (IH Hord st0) as (kept & Hrefs & Hsub & Hsl & Hnew & Hnd & Hleft).
    exists kept. split_and!; try done.
    + by apply sublist_cons.
    + intros m m' Hm [->|Hm']%elem_of_cons Hk; [|by eauto].
      rewrite Forall_forall in Hnew. destruct (Hnew m Hm). congruence.
  - destruct (IH Hord (Scan ({[ ukey x ]} ∪ refs_seen st0)
                            (scan_refs st0 ++ [uref x])))
      as (kept & Hrefs & Hsub & Hsl & Hnew & Hnd & Hleft).
    cbn [scan_refs refs_seen] in *.
    assert (Hnew' : forall m, m ∈ kept -> ukey m <> ukey x /\ ukey m ∉ refs_seen st0).
    { rewrite Forall_forall in Hnew. intros m Hm.
      specialize (Hnew m Hm). cbn beta in Hnew.
      apply not_elem_of_union in Hnew as [Hne ?].
      by apply not_elem_of_singleton in Hne. }
    clear Hnew. exists (x :: kept). split_and!.
    + rewrite Hrefs, fmap_cons, <- app_assoc. done.
    + etrans; [apply union_subseteq_r|exact Hsub].
    + by apply sublist_skip.
    + apply Forall_forall. intros m [->|Hm]%elem_of_cons; [done|].
      by destruct (Hnew' m Hm).
    + rewrite fmap_cons. apply NoDup_cons. split; [|done].
      intros (m & Hk & Hm)%list_elem_of_fmap. by destruct (Hnew' m Hm).
    + intros m m' [->|Hm]%elem_of_cons [->|Hm']%elem_of_cons Hk.
      * done.
      * specialize (Hx m' Hm'). cbn beta in Hx. lia.
      * by destruct (Hnew' m Hm).
      * by eauto.
Qed.

Lemma already_captured_app x a b :
  already_captured x (a ++ b) =
  (found_in_a ← already_captured x a;
   if (found_in_a : bool) then Ok true else already_captured x b).
Proof.
  induction a as [|r a IH]; [done|]. cbn [app already_captured].
  destruct (Str.contains x (display r)); [done|].
  destruct (url r) as [u|]; [|done].
  by destruct (Str.contains x u).
Qed.

Lemma already_captured_clear x rs :
  already_captured x rs = Ok false <-> clear_of x rs.
Proof.
  unfold clear_of. induction rs as [|r rs IH]; cbn [already_captured].
  { split; [constructor | done]. }
  rewrite Forall_cons, <- IH.
  destruct (Str.contains x (display r)).
  { split; [done | intros [[? _] _]; done]. }
  destruct (url r) as [u|].
  2:{ split; [done | intros [[_ (u & ? & _)] _]; done]. }
  destruct (Str.contains x u) eqn:Hu.
  { split; [done | intros [[_ (u' & [= <-] & ?)] _]; congruence]. }
  split; [eauto | tauto].
Qed.

(** The two outcomes of the body of the bare-reference loop when it does not
    raise: the match is passed over, or its reference is appended. *)
Lemma ref_step_cases st mo st' :
  rstep st mo = Ok st' ->
  (st' = st /\
   (already_captured (text_of mo) (scan_refs st) = Ok true \/
    (text_of mo, text_of mo) ∈ refs_seen st)) \/
  (st' = Scan ({[ (text_of mo, text_of mo) ]} ∪ refs_seen st)
              (scan_refs st ++ [bref mo]) /\
   clear_of (text_of mo) (scan_refs st) /\
   (text_of mo, text_of mo) ∉ refs_seen st).
Proof.
  unfold ref_step. cbn zeta.
  destruct (already_captured (text_of mo) (scan_refs st)) as [[|]|e] eqn:Hc;
    cbn [mbind result_bind]; [intros [= <-]; auto | | done].
  case_bool_decide as Hseen; intros [= <-]; [auto|].
  right. repeat split; [|done]. by apply already_captured_clear.
Qed.

(** The pass of the bare references keeps matches whose text is in no
    reference captured so far, at their leftmost occurrence. *)
Lemma ref_loop_spec ms :
  in_text_order ms -> forall st0 st1,
  for_each rstep ms st0 = Ok st1 ->
  exists kept,
    scan_refs st1 = scan_refs st0 ++ (bref <$> kept) /\
    refs_seen st0 ⊆ refs_seen st1 /\
    kept `sublist_of` ms /\
    Forall (fun m => clear_of (text_of m) (scan_refs st0) /\
                     (text_of m, text_of m) ∉ refs_seen st0) kept /\
    NoDup (text_of <$> kept) /\
    (forall m m', m ∈ kept -> m' ∈ ms -> text_of m' = text_of m ->
                  m_start m <= m_start m').
Proof.
  induction ms as [|x l IH]; intros Hord st0 st1 Hrun.
  { injection Hrun as <-. exists []. simpl. rewrite app_nil_r.
    split_and!; [done | done | constructor | constructor | constructor |].
    intros m m' Hm. by apply elem_of_nil in Hm. }
  apply StronglySorted_cons in Hord as [Hx Hord]. rewrite Forall_forall in Hx.
  cbn [for_each] in Hrun.
  destruct (rstep st0 x) as [s'|e] eqn:Hstep; [|done].
  cbn [mbind result_bind] in Hrun.
  destruct (IH Hord s' st1 Hrun) as (kept & Hrefs & Hsub & Hsl & Hnew & Hnd & Hleft).
  rewrite Forall_forall in Hnew.
  apply ref_step_cases in Hstep as [[-> Hblocked]|(-> & Hclear & Hfresh)].
  - exists kept. split_and!; try done.
    + by apply sublist_cons.
    + by apply Forall_forall.
    + intros m m' Hm [->|Hm']%elem_of_cons Hk; [|by eauto].
      destruct (Hnew m Hm) as [Hc Hf]. rewrite Hk in Hblocked.
      apply already_captured_clear in Hc. destruct Hblocked; congruence.
  - cbn [scan_refs refs_seen] in *.
    assert (Hne : forall m, m ∈ kept -> text_of m <> text_of x).
    { intros m Hm Heq. destruct (Hnew m Hm) as [Hc _].
      apply Forall_app in Hc as [_ Hc]. apply Forall_singleton in Hc as [Hc _].
      cbn [bare_reference display] in Hc. rewrite Heq, contains_refl in Hc. done. }
    exists (x :: kept). split_and!.
    + rewrite Hrefs, fmap_cons, <- app_assoc. done.
    + etrans; [apply union_subseteq_r|exact Hsub].
    + by apply sublist_skip.
    + apply Forall_forall. intros m [->|Hm]%elem_of_cons; [done|].
      destruct (Hnew m Hm) as [Hc Hf]. split.
      * by apply Forall_app in Hc as [Hc _].
      * by apply not_elem_of_union in Hf as [_ ?].
    + rewrite fmap_cons. apply NoDup_cons. split; [|done].
      intros (m & Hk & Hm)%list_elem_of_fmap. by destruct (Hne m Hm).
    + intros m m' [->|Hm]%elem_of_cons [->|Hm']%elem_of_cons Hk.
      * done.
      * specialize (Hx m' Hm'). cbn beta in Hx. lia.
      * by destruct (Hne m Hm).
      * by eauto.
Qed.

End Passes.

(** ** The loop over the source types *)

Section Extraction.
Context {U : Unicode}.
Context (raw_text : str).

Local Abbreviation lines := (Str.split_lines raw_text).

Lemma scan_type_spec ty rs :
  in_text_order (url_matches ty raw_text) ->
  in_text_order (ref_matches ty raw_text) ->
  scan_type ty raw_text lines = Ok rs ->
  exists mu mb, two_passes ty raw_text rs mu mb.
Proof.
  intros Hu Hr. unfold scan_type.
  destruct (for_each _ _ _) as [st1|e] eqn:Hrun; [|done].
  cbn [mbind result_bind mret result_ret]. intros [= <-].
  destruct (url_loop_spec (src_key ty) raw_text lines _ Hu (Scan ∅ []))
    as (mu & Hrefs & _ & Hsub & _ & Hnd & Hleft).
  fold (url_pass ty raw_text lines) in Hrefs. cbn [scan_refs app] in Hrefs.
  destruct (ref_loop_spec (src_key ty) raw_text lines _ Hr _ _ Hrun)
    as (mb & Hrefs' & _ & Hsub' & Hclear & Hnd' & Hleft').
  exists mu, mb. split; try done.
  - by rewrite Hrefs', Hrefs.
  - rewrite <- Hrefs. eapply Forall_impl; [exact Hclear|]. by intros m [? _].
Qed.

(** Each source type of the table has at most one pattern of each kind, so
    the matches of a pass are met from left to right. *)
Lemma one_pattern_in_order (ps : list pattern) :
  length ps <= 1 -> in_text_order (p ← ps; finditer p raw_text).
Proof.
  destruct ps as [|p [|q ps]]; cbn; intros Hlen.
  - constructor.
  - rewrite app_nil_r. apply finditer_order.
  - lia.
Qed.

Lemma table_in_order ty :
  ty ∈ _SOURCE_TYPES ->
  in_text_order (url_matches ty raw_text) /\
  in_text_order (ref_matches ty raw_text).
Proof.
  intros Hty.
  assert (Hone : Forall (fun ty => length (url_patterns ty) <= 1 /\
                                   length (ref_patterns ty) <= 1) _SOURCE_TYPES).
  { unfold _SOURCE_TYPES.
    repeat (apply Forall_cons; split; [split; cbn; lia|]). constructor. }
  rewrite Forall_forall in Hone. destruct (Hone ty Hty).
  split; by apply one_pattern_in_order.
Qed.

Lemma type_step_spec acc ty acc' :
  type_step raw_text lines acc ty = Ok acc' ->
  acc' = acc ++ option_list (group_of raw_text ty).
Proof.
  unfold type_step, group_of.
  destruct (scan_type ty raw_text lines) as [[|r rs]|e];
    cbn [mbind result_bind option_list]; [|by intros [= <-] | done].
  intros [= <-]. by rewrite app_nil_r.
Qed.

Lemma type_loop_spec tys acc gs :
  for_each (type_step raw_text lines) tys acc = Ok gs ->
  gs = acc ++ omap (group_of raw_text) tys.
Proof.
  revert acc. induction tys as [|ty tys IH]; intros acc; cbn [for_each omap].
  { intros [= <-]. by rewrite app_nil_r. }
  destruct (type_step raw_text lines acc ty) as [acc'|e] eqn:Hstep;
    cbn [mbind result_bind]; [|done].
  apply type_step_spec in Hstep as ->. intros ->%IH.
  rewrite <- app_assoc. cbn [omap list_omap]. by destruct (group_of raw_text ty).
Qed.

Lemma extract_sources_groups gs :
  extract_sources raw_text = Ok gs ->
  gs = omap (group_of raw_text) _SOURCE_TYPES.
Proof. intros H. by apply type_loop_spec in H. Qed.

Lemma group_of_Some ty g :
  group_of raw_text ty = Some g ->
  g = Group (src_key ty) (src_label ty) (src_icon ty) (refs g) /\
  scan_type ty raw_text lines = Ok (refs g) /\ refs g <> [].
Proof.
  unfold group_of. destruct (scan_type ty raw_text lines) as [[|r rs]|e]; try done.
  by intros [= <-].
Qed.

(** A group of the output is what the two passes over its source type
    leave. *)
Lemma group_in_output gs g :
  extract_sources raw_text = Ok gs -> g ∈ gs ->
  exists ty mu mb,
    ty ∈ _SOURCE_TYPES /\ key g = src_key ty /\ refs g <> [] /\
    two_passes ty raw_text (refs g) mu mb.
Proof.
  intros ->%extract_sources_groups (ty & Hty & Hg)%list_elem_of_omap.
  apply group_of_Some in Hg as (Hg & Hscan & Hne).
  destruct (table_in_order ty Hty) as [Hu Hr].
  destruct (scan_type_spec ty _ Hu Hr Hscan) as (mu & mb & Htp).
  exists ty, mu, mb. split_and!; try done. by rewrite Hg.
Qed.

End Extraction.

(** ** The table of source types *)

Lemma source_keys :
  src_key <$> _SOURCE_TYPES =
  ["jira"; "confluence"; "datadog_docs"; "github"; "slack"; "terraform"]%string.
Proof. reflexivity. Qed.

(** Case analysis on a membership [H] in a list that is written out. *)
Ltac cases_of_list H :=
  repeat first
    [ apply elem_of_cons in H as [->|H]
    | by apply elem_of_nil in H ].

(** A source type of the table is known by its key. *)
Lemma source_key_inj ty ty' :
  ty ∈ _SOURCE_TYPES -> ty' ∈ _SOURCE_TYPES ->
  src_key ty = src_key ty' -> ty = ty'.
Proof.
  unfold _SOURCE_TYPES. intros Hty Hty'.
  cases_of_list Hty; cases_of_list Hty'; cbn [src_key]; intros Hk;
    first [reflexivity | discriminate Hk].
Qed.

Lemma group_keys_sublist {U : Unicode} raw_text tys :
  (key <$> omap (group_of raw_text) tys) `sublist_of` (src_key <$> tys).
Proof.
  induction tys as [|ty tys IH]; [constructor|].
  cbn [omap list_omap]. destruct (group_of raw_text ty) as [g|] eqn:Hg.
  - apply group_of_Some in Hg as [-> _]. rewrite !fmap_cons. cbn [key].
    by apply sublist_skip.
  - rewrite fmap_cons. by apply sublist_cons.
Qed.

(** ** The classifier *)

Section Classifier.
Context {U : Unicode}.
Context (text : str).

Lemma any_pattern_Exists pats :
  any_pattern pats text = true <-> Exists (fun p => found p text = true) pats.
Proof.
  induction pats as [|p pats IH]; simpl.
  - rewrite Exists_nil. split; [discriminate | tauto].
  - rewrite Exists_cons. destruct (found p text) eqn:Hp.
    + tauto.
    + rewrite IH. split; [tauto | intros [?|?]; [discriminate | assumption]].
Qed.

Lemma any_pattern_none (r : area_rule) :
  ~ matches_rule r text -> any_pattern (area_patterns r) text = false.
Proof.
  intros Hno. apply not_true_is_false. intros Hany.
  apply Hno, any_pattern_Exists, Hany.
Qed.

(** Rules without a matching pattern are passed over. *)
Lemma scan_rules_skip pre rest :
  Forall (fun r => ~ matches_rule r text) pre ->
  scan_rules (pre ++ rest) text = scan_rules rest text.
Proof.
  induction 1 as [|r pre Hr _ IH]; [reflexivity|].
  simpl. rewrite (any_pattern_none r Hr), IH. by destruct (area_patterns r).
Qed.

(** The scan stops at a rule with a matching pattern. *)
Lemma scan_rules_hit r rest :
  matches_rule r text -> scan_rules (r :: rest) text = area_key r.
Proof.
  intros Hr. simpl. apply any_pattern_Exists in Hr as Hany. rewrite Hany.
  destruct (area_patterns r) eqn:E; [|reflexivity].
  unfold matches_rule in Hr. rewrite E in Hr. by apply Exists_nil in Hr.
Qed.

Lemma scan_rules_none rules :
  Forall (fun r => ~ matches_rule r text) rules ->
  scan_rules rules text = "other"%string.
Proof.
  intros H. rewrite <- (app_nil_r rules). by rewrite scan_rules_skip.
Qed.

End Classifier.

(** C4, as stated, fails, whatever the tables of the interpreter: with
    "siem" in the text as well, the cspm and vm rules both match and the
    answer is the still earlier siem rule. *)
Lemma earlier_rule_wins_fails : ~ exists U : Unicode, earlier_rule_wins.
Proof.
  intros [U H].
  specialize (H (lit "siem cspm vulnerability")
                (take 3 _COMPILED_AREA_RULES)
                (AreaRule "cspm" "CSPM" (Some "cloud_security") _) []
                (AreaRule "vm" "Vulnerability Mgmt" (Some "cloud_security") _)
                (drop 5 _COMPILED_AREA_RULES) eq_refl).
  assert (Hc : detect_product_area (lit "siem cspm vulnerability") = "siem"%string)
    by (vm_compute; reflexivity).
  rewrite Hc in H.
  enough ("siem" = "cspm")%string by discriminate.
  apply H; apply Exists_cons; [left | right; apply Exists_cons; left];
    vm_compute; reflexivity.
Qed.

(** C4, amended: of two matching rules the earlier one gives the answer when
    no rule before it matches and the text is not an organization deletion
    request. *)
Theorem first_matching_rule_wins {U : Unicode} text pre R1 mid R2 post :
  _COMPILED_AREA_RULES = pre ++ R1 :: mid ++ R2 :: post ->
  found org_deletion text = false ->
  Forall (fun r => ~ matches_rule r text) pre ->
  matches_rule R1 text -> matches_rule R2 text ->
  detect_product_area text = area_key R1.
Proof.
  intros Htable Horg Hpre H1 _. unfold detect_product_area.
  rewrite Horg, Htable, scan_rules_skip by assumption.
  by apply scan_rules_hit.
Qed.

Lemma first_matching_rule_wins_witness :
  detect_product_area (lit "cspm vulnerability") = "cspm"%string.
Proof.
  apply (first_matching_rule_wins (lit "cspm vulnerability")
           (take 3 _COMPILED_AREA_RULES)
           (AreaRule "cspm" "CSPM" (Some "cloud_security") _) []
           (AreaRule "vm" "Vulnerability Mgmt" (Some "cloud_security") _)
           (drop 5 _COMPILED_AREA_RULES) eq_refl).
  - vm_compute; reflexivity.
  - apply (bool_decide_unpack _). vm_compute. exact I.
  - apply Exists_cons; left. vm_compute; reflexivity.
  - apply Exists_cons; right. apply Exists_cons; left. vm_compute; reflexivity.
Defined.

(** C5: a text with the organization-deletion phrase is classified "other",
    whatever else it contains. *)
Theorem org_deletion_is_other {U : Unicode} text :
  found org_deletion text = true ->
  detect_product_area text = "other"%string.
Proof. intros H. unfold detect_product_area. by rewrite H. Qed.

Lemma org_deletion_is_other_witness :
  found (compile_i [Bnd; txt "cspm"; Bnd])
        (lit "Org  Deletion
request for the CSPM account") = true /\
  detect_product_area (lit "Org  Deletion
request for the CSPM account") = "other"%string.
Proof.
  split; [vm_compute; reflexivity|].
  apply org_deletion_is_other. vm_compute; reflexivity.
Defined.

(** C9: the empty text is classified "other" and has no sources; so is every
    text in which no pattern of the table matches and the deletion phrase
    does not occur. *)
Theorem fallback_totality {U : Unicode} text :
  found org_deletion text = false ->
  Forall (fun r => ~ matches_rule r text) _COMPILED_AREA_RULES ->
  detect_product_area text = "other"%string /\
  detect_product_area (lit "") = "other"%string /\
  extract_sources (lit "") = Ok [].
Proof.
  intros Horg Hnone. split; [|split; vm_compute; reflexivity].
  unfold detect_product_area. rewrite Horg. by apply scan_rules_none.
Qed.

Lemma fallback_totality_witness :
  detect_product_area (lit "the dashboard does not load") = "other"%string.
Proof.
  apply (fallback_totality (lit "the dashboard does not load")).
  - vm_compute; reflexivity.
  - apply (bool_decide_unpack _). vm_compute. exact I.
Defined.

(** ** The extractor on concrete texts *)

(** C1 fails on the code: the second of two channel handles is compared with
    the url of the first, which is [None]. *)
Theorem two_channels_raise {U : Unicode} :
  extract_sources (lit "#channel-one and #channel-two") = Raise TypeError.
Proof. vm_compute; reflexivity. Qed.

(** C6: the scenario yields a jira group with the one reference of the
    browse URL, displayed as its key, and a slack group with the one channel
    handle, which has no url. *)
Theorem scenario_sources {U : Unicode} :
  extract_sources scenario_text =
  Ok [Group "jira" "JIRA" "ticket"
        [Ref (Some (lit "https://datadoghq.atlassian.net/browse/SCRS-123"))
             (lit "SCRS-123")
             (lit "See  for details, also mentioned in SCRS-123 again and in security-team channel")];
      Group "slack" "Slack" "chat"
        [Ref None (lit "#security-team")
             (lit "See https://datadoghq.atlassian.net/browse/SCRS-123 for details, also mentioned in SCRS-123 again and in security-team channel")]].
Proof. vm_compute; reflexivity. Qed.

(** ** The extractor on every text *)

(** C2: an identifier that lies inside a display label or a url captured by
    the URL pass of a source type has no entry among the bare references of
    that type's group. *)
Theorem captured_identifier_not_repeated {U : Unicode} raw_text gs g :
  extract_sources raw_text = Ok gs -> g ∈ gs ->
  exists ty mb,
    ty ∈ _SOURCE_TYPES /\ key g = src_key ty /\
    mb `sublist_of` ref_matches ty raw_text /\
    refs g =
      scan_refs (url_pass ty raw_text (Str.split_lines raw_text)) ++
      (bare_reference (src_key ty) raw_text (Str.split_lines raw_text) <$> mb) /\
    forall ident r,
      r ∈ scan_refs (url_pass ty raw_text (Str.split_lines raw_text)) ->
      Str.contains ident (display r) = true \/
      (exists u, url r = Some u /\ Str.contains ident u = true) ->
      forall b,
        b ∈ bare_reference (src_key ty) raw_text (Str.split_lines raw_text) <$> mb ->
        display b <> ident.
Proof.
  intros Hex Hg.
  destruct (group_in_output _ _ _ Hex Hg) as (ty & mu & mb & Hty & Hkey & _ & Htp).
  destruct Htp as [Hrefs Hup _ Hsub _ _ Hclear _ _].
  exists ty, mb. split_and!; try done.
  { by rewrite Hup. }
  intros ident r Hr Hin b (m & -> & Hm)%list_elem_of_fmap Heq.
  cbn [bare_reference display] in Heq. subst ident.
  rewrite Forall_forall in Hclear. specialize (Hclear m Hm).
  unfold clear_of in Hclear. rewrite Forall_forall, <- Hup in Hclear.
  destruct (Hclear r Hr) as (Hd & u & Hu & Hcu).
  destruct Hin as [Hin|(u' & Hu' & Hin)]; congruence.
Qed.

Lemma captured_identifier_not_repeated_witness :
  exists ty mb,
    ty ∈ _SOURCE_TYPES /\ src_key ty = "jira"%string /\
    mb `sublist_of` ref_matches ty (lit "http://datadoghq.atlassian.net/browse/ZD-1 ZD-1") /\
    length mb = 0.
Proof.
  destruct (captured_identifier_not_repeated
              (lit "http://datadoghq.atlassian.net/browse/ZD-1 ZD-1")
              [Group "jira" "JIRA" "ticket"
                 [Ref (Some (lit "http://datadoghq.atlassian.net/browse/ZD-1"))
                      (lit "ZD-1") (lit "ZD-1")]]
              (Group "jira" "JIRA" "ticket"
                 [Ref (Some (lit "http://datadoghq.atlassian.net/browse/ZD-1"))
                      (lit "ZD-1") (lit "ZD-1")]))
    as (ty & mb & Hty & Hkey & Hsub & Hrefs & _).
  { vm_compute; reflexivity. }
  { apply elem_of_cons. by left. }
  exists ty, mb. split_and!; try done.
  apply (f_equal length) in Hrefs.
  rewrite length_app, length_fmap in Hrefs. cbn [refs length] in Hrefs.
  assert (length (scan_refs (url_pass ty
                     (lit "http://datadoghq.atlassian.net/browse/ZD-1 ZD-1")
                     (Str.split_lines
                        (lit "http://datadoghq.atlassian.net/browse/ZD-1 ZD-1")))) = 1)
    as Hone.
  { revert Hkey. clear -Hty. unfold _SOURCE_TYPES in Hty.
    cases_of_list Hty; cbn [src_key key]; intros Hk; try discriminate Hk.
    vm_compute; reflexivity. }
  lia.
Defined.

(** C3: no group has two references with the same url and display; the
    references are those of two duplicate-free lists of matches, to each of
    which the context is attached. *)
Theorem no_duplicate_references {U : Unicode} raw_text gs g :
  extract_sources raw_text = Ok gs -> g ∈ gs ->
  NoDup (ref_key <$> refs g) /\
  exists ty mu mb,
    ty ∈ _SOURCE_TYPES /\ key g = src_key ty /\
    NoDup (url_key (src_key ty) raw_text <$> mu) /\
    NoDup (group0 raw_text <$> mb) /\
    refs g =
      (url_reference (src_key ty) raw_text (Str.split_lines raw_text) <$> mu) ++
      (bare_reference (src_key ty) raw_text (Str.split_lines raw_text) <$> mb).
Proof.
  intros Hex Hg.
  destruct (group_in_output _ _ _ Hex Hg) as (ty & mu & mb & Hty & Hkey & _ & Htp).
  destruct Htp as [Hrefs _ _ _ Hnu Hnb Hclear _ _].
  split; [|by exists ty, mu, mb].
  rewrite Hrefs, fmap_app. apply NoDup_app. split_and!.
  - rewrite <- list_fmap_compose.
    pose (f := fun k : str * str => (Some k.1, k.2)).
    assert (Inj (=) (=) f) by (intros [a b] [c d] [= -> ->]; done).
    change (NoDup ((f ∘ url_key (src_key ty) raw_text) <$> mu)).
    rewrite list_fmap_compose. by apply (NoDup_fmap_2 f).
  - intros k (r1 & -> & (m & -> & Hm)%list_elem_of_fmap)%list_elem_of_fmap
             (r2 & Hk & (m' & -> & Hm')%list_elem_of_fmap)%list_elem_of_fmap.
    rewrite Forall_forall in Hclear. specialize (Hclear m' Hm').
    unfold clear_of in Hclear. rewrite Forall_forall in Hclear.
    destruct (Hclear _ (list_elem_of_fmap_2 _ _ _ Hm)) as [Hc _].
    assert (Hd : display (url_reference (src_key ty) raw_text
                            (Str.split_lines raw_text) m) = group0 raw_text m')
      by exact (f_equal snd Hk).
    rewrite Hd, contains_refl in Hc. done.
  - apply (NoDup_fmap_1 snd). by rewrite <- !list_fmap_compose.
Qed.

Lemma no_duplicate_references_witness :
  NoDup [(Some (lit "http://datadoghq.atlassian.net/browse/ZD-1"), lit "ZD-1");
         (Some (lit "https://datadoghq.atlassian.net/browse/ZD-2"), lit "ZD-2")].
Proof.
  apply (no_duplicate_references
           (lit "http://datadoghq.atlassian.net/browse/ZD-1 ZD-1 ZD-2 ZD-2")
           [Group "jira" "JIRA" "ticket"
              [Ref (Some (lit "http://datadoghq.atlassian.net/browse/ZD-1"))
                   (lit "ZD-1") (lit "ZD-1 ZD-2 ZD-2");
               Ref (Some (lit "https://datadoghq.atlassian.net/browse/ZD-2"))
                   (lit "ZD-2")
                   (lit "http://datadoghq.atlassian.net/browse/ZD-1 ZD-1")]]
           (Group "jira" "JIRA" "ticket"
              [Ref (Some (lit "http://datadoghq.atlassian.net/browse/ZD-1"))
                   (lit "ZD-1") (lit "ZD-1 ZD-2 ZD-2");
               Ref (Some (lit "https://datadoghq.atlassian.net/browse/ZD-2"))
                   (lit "ZD-2")
                   (lit "http://datadoghq.atlassian.net/browse/ZD-1 ZD-1")])).
  - vm_compute; reflexivity.
  - apply elem_of_cons. by left.
Defined.

(** C7: the groups are those of the source types with at least one
    reference, in the order of the table, wherever their matches are in the
    text. *)
Theorem groups_follow_table {U : Unicode} raw_text gs :
  extract_sources raw_text = Ok gs ->
  (key <$> gs) `sublist_of`
    ["jira"; "confluence"; "datadog_docs"; "github"; "slack"; "terraform"]%string /\
  (forall ty, ty ∈ _SOURCE_TYPES ->
     (exists g, g ∈ gs /\ key g = src_key ty) <->
     (exists r rs, scan_type ty raw_text (Str.split_lines raw_text) = Ok (r :: rs))) /\
  (forall g, g ∈ gs ->
     exists ty, ty ∈ _SOURCE_TYPES /\
       g = Group (src_key ty) (src_label ty) (src_icon ty) (refs g) /\
       scan_type ty raw_text (Str.split_lines raw_text) = Ok (refs g) /\
       refs g <> []).
Proof.
  intros ->%extract_sources_groups. split_and!.
  - rewrite <- source_keys. apply group_keys_sublist.
  - intros ty Hty. split.
    + intros (g & (ty' & Hty' & Hg)%list_elem_of_omap & Hkey).
      apply group_of_Some in Hg as (Hg & Hscan & Hne).
      rewrite Hg in Hkey. cbn [key] in Hkey.
      rewrite <- (source_key_inj _ _ Hty' Hty Hkey).
      destruct (refs g) as [|r rs]; [done|]. eauto.
    + intros (r & rs & Hscan).
      exists (Group (src_key ty) (src_label ty) (src_icon ty) (r :: rs)).
      split; [|done]. apply list_elem_of_omap. exists ty. split; [done|].
      unfold group_of. by rewrite Hscan.
  - intros g (ty & Hty & Hg)%list_elem_of_omap.
    apply group_of_Some in Hg. eauto.
Qed.

Lemma groups_follow_table_witness :
  ["jira"; "slack"]%string `sublist_of`
    ["jira"; "confluence"; "datadog_docs"; "github"; "slack"; "terraform"]%string.
Proof.
  apply (groups_follow_table
           (lit "ask in #help about ZD-7")
           [Group "jira" "JIRA" "ticket"
              [Ref (Some (lit "https://datadoghq.atlassian.net/browse/ZD-7"))
                   (lit "ZD-7") (lit "ask in help about")];
            Group "slack" "Slack" "chat"
              [Ref None (lit "#help") (lit "ask in help about ZD-7")]]).
  vm_compute; reflexivity.
Defined.

(** C10: in a group the references of the URL matches come first, then those
    of the bare matches, even when a bare match is further left in the text;
    within each pass the references follow the text from left to right, each
    at the leftmost match with its key. *)
Theorem url_references_then_bare {U : Unicode} raw_text gs g :
  extract_sources raw_text = Ok gs -> g ∈ gs ->
  exists ty mu mb,
    ty ∈ _SOURCE_TYPES /\ key g = src_key ty /\
    refs g =
      (url_reference (src_key ty) raw_text (Str.split_lines raw_text) <$> mu) ++
      (bare_reference (src_key ty) raw_text (Str.split_lines raw_text) <$> mb) /\
    mu `sublist_of` url_matches ty raw_text /\
    mb `sublist_of` ref_matches ty raw_text /\
    in_text_order mu /\ in_text_order mb /\
    (forall m m', m ∈ mu -> m' ∈ url_matches ty raw_text ->
       url_key (src_key ty) raw_text m' = url_key (src_key ty) raw_text m ->
       m_start m <= m_start m') /\
    (forall m m', m ∈ mb -> m' ∈ ref_matches ty raw_text ->
       group0 raw_text m' = group0 raw_text m ->
       m_start m <= m_start m').
Proof.
  intros Hex Hg.
  destruct (group_in_output _ _ _ Hex Hg) as (ty & mu & mb & Hty & Hkey & _ & Htp).
  destruct Htp as [Hrefs _ Hsu Hsb _ _ _ Hlu Hlb].
  destruct (table_in_order raw_text ty Hty) as [Hou Hob].
  exists ty, mu, mb. split_and!; try done.
  - by apply (in_text_order_sublist _ _ Hsu).
  - by apply (in_text_order_sublist _ _ Hsb).
Qed.

Lemma url_references_then_bare_witness :
  exists ty mu mb,
    [Ref (Some (lit "http://datadoghq.atlassian.net/browse/ZD-1"))
         (lit "ZD-1") (lit "SCRS-9 then");
     Ref (Some (lit "https://datadoghq.atlassian.net/browse/SCRS-9"))
         (lit "SCRS-9") (lit "then http://datadoghq.atlassian.net/browse/ZD-1")] =
    (url_reference (src_key ty) (lit "SCRS-9 then http://datadoghq.atlassian.net/browse/ZD-1")
       (Str.split_lines (lit "SCRS-9 then http://datadoghq.atlassian.net/browse/ZD-1")) <$> mu) ++
    (bare_reference (src_key ty) (lit "SCRS-9 then http://datadoghq.atlassian.net/browse/ZD-1")
       (Str.split_lines (lit "SCRS-9 then http://datadoghq.atlassian.net/browse/ZD-1")) <$> mb) /\
    in_text_order mu /\ in_text_order mb.
Proof.
  destruct (url_references_then_bare
              (lit "SCRS-9 then http://datadoghq.atlassian.net/browse/ZD-1")
              [Group "jira" "JIRA" "ticket"
                 [Ref (Some (lit "http://datadoghq.atlassian.net/browse/ZD-1"))
                      (lit "ZD-1") (lit "SCRS-9 then");
                  Ref (Some (lit "https://datadoghq.atlassian.net/browse/SCRS-9"))
                      (lit "SCRS-9")
                      (lit "then http://datadoghq.atlassian.net/browse/ZD-1")]]
              (Group "jira" "JIRA" "ticket"
                 [Ref (Some (lit "http://datadoghq.atlassian.net/browse/ZD-1"))
                      (lit "ZD-1") (lit "SCRS-9 then");
                  Ref (Some (lit "https://datadoghq.atlassian.net/browse/SCRS-9"))
                      (lit "SCRS-9")
                      (lit "then http://datadoghq.atlassian.net/browse/ZD-1")]))
    as (ty & mu & mb & _ & _ & Hrefs & _ & _ & Hou & Hob & _).
  - vm_compute; reflexivity.
  - apply elem_of_cons. by left.
  - exists ty, mu, mb. split_and!; done.
Defined.

(** ** The context of a reference *)

Section Replace.
Context (n : str).

Lemma among_spec (l : str) c : Str.among l c = true <-> c ∈ l.
Proof.
  unfold Str.among. rewrite existsb_exists. split.
  - intros (x & Hx & ->%N.eqb_eq). by apply list_elem_of_In.
  - intros Hc. exists c. split; [by apply list_elem_of_In | apply N.eqb_refl].
Qed.

Lemma remove_from_skip (s : str) k :
  Str.remove_from n s k = Str.remove_from n (drop k s) 0.
Proof.
  revert k. induction s as [|c s IH]; intros [|k]; cbn [Str.remove_from drop];
    auto.
Qed.

(** An occurrence at the start is deleted. *)
Lemma remove_from_occurrence (b : str) :
  n <> [] -> Str.remove_from n (n ++ b) 0 = Str.remove_from n b 0.
Proof.
  intros Hn.
  assert (Hst : Str.startswith (n ++ b) n = true)
    by (apply startswith_spec; by exists b).
  destruct (n ++ b) as [|c s] eqn:Hs.
  { apply app_eq_nil in Hs as [? _]. done. }
  cbn [Str.remove_from]. rewrite Hst, remove_from_skip. f_equal.
  clear Hst. destruct n as [|c' n']; [done|]. injection Hs as <- <-.
  replace (length (c' :: n') - 1) with (length n') by (cbn [length]; lia).
  by rewrite drop_app_length.
Qed.

(** Where no occurrence starts the characters are kept. *)
Lemma remove_from_keep (run rest : str) :
  (forall a b, run = a ++ b -> b <> [] -> Str.startswith (b ++ rest) n = false) ->
  Str.remove_from n (run ++ rest) 0 = run ++ Str.remove_from n rest 0.
Proof.
  induction run as [|c run IH]; intros Hno; [done|].
  cbn [app Str.remove_from].
  pose proof (Hno [] (c :: run) eq_refl) as Hc. cbn [app] in Hc.
  rewrite Hc by done. f_equal. apply IH.
  intros a b -> Hb. by apply (Hno (c :: a) b).
Qed.

(** An occurrence in a text around a character that is not in [n] lies on
    one side of that character. *)
Lemma contains_around (u v : str) x :
  x ∉ n -> Str.contains n (u ++ x :: v) = true ->
  Str.contains n u = true \/ Str.contains n v = true.
Proof.
  intros Hx (a & b & Heq)%contains_spec.
  apply app_eq_app in Heq as [l [[Hu Hn]|[Ha Hv]]].
  - symmetry in Hn. apply app_eq_app in Hn as [l2 [[Hl Hb]|[Hn Hxv]]].
    + left. apply contains_spec. exists a, l2. by rewrite Hu, Hl.
    + destruct l2 as [|y l2].
      * left. apply contains_spec. exists a, []. rewrite app_nil_r in *.
        by rewrite Hu, Hn.
      * injection Hxv as -> _. destruct Hx. rewrite Hn.
        apply elem_of_app. right. left.
  - destruct l as [|y l].
    + cbn [app] in Hv. destruct n as [|c n'].
      * left. apply contains_spec. exists [], u. done.
      * injection Hv as -> _. destruct Hx. left.
    + injection Hv as -> ->. right. apply contains_spec. by exists l, b.
Qed.

(** The occurrences of [n] in [s] are delimited. *)
Definition all_delimited (s : str) : Prop :=
  forall a b, s = a ++ n ++ b ->
    (forall c, last a = Some c -> c ∉ n) /\ (forall c, head b = Some c -> c ∉ n).

Lemma delimited_from_spec prev (s : str) :
  delimited_from n prev s = true ->
  forall a b, s = a ++ n ++ b ->
    (forall c, last a = Some c \/ (a = [] /\ prev = Some c) -> c ∉ n) /\
    (forall c, head b = Some c -> c ∉ n).
Proof.
  revert prev. induction s as [|c0 s IH]; intros prev Hd a b Heq.
  { symmetry in Heq. apply app_eq_nil in Heq as [_ [-> _]%app_eq_nil].
    split; intros c _; apply not_elem_of_nil. }
  cbn [delimited_from] in Hd. apply andb_true_iff in Hd as [Hhere Hd].
  destruct a as [|a0 a].
  - cbn [app] in Heq.
    assert (Str.startswith (c0 :: s) n = true) as Hs
      by (apply startswith_spec; by exists b).
    rewrite Hs in Hhere. apply andb_true_iff in Hhere as [Hp Hn].
    apply negb_true_iff in Hp, Hn. split.
    + intros c [Hc|[_ ->]]; [done|]. cbn in Hp.
      intros Hin%among_spec. congruence.
    + intros c Hc. rewrite Heq, lookup_app_r, Nat.sub_diag in Hn by done.
      destruct b as [|y b]; [done|]. injection Hc as ->. cbn in Hn.
      intros Hin%among_spec. congruence.
  - injection Heq as -> ->.
    destruct (IH (Some a0) Hd a b eq_refl) as [Hl Hr]. split; [|done].
    intros c [Hc|[? _]]; [|done]. apply Hl.
    destruct a as [|a1 a]; [right|left]; [|done].
    split; [done|]. by injection Hc as ->.
Qed.

Lemma delimited_all (s : str) : delimited n s = true -> all_delimited s.
Proof.
  intros Hd a b Heq. destruct (delimited_from_spec None s Hd a b Heq) as [Hl Hr].
  split; [|done]. intros c Hc. apply Hl. by left.
Qed.

Lemma all_delimited_tail (a : str) x (s : str) :
  all_delimited (a ++ x :: s) -> all_delimited s.
Proof.
  intros Hd a' b Heq.
  destruct (Hd (a ++ x :: a') b) as [Hl Hr].
  { rewrite Heq. by rewrite <- app_assoc. }
  split; [|done]. intros c Hc. apply Hl.
  destruct a' as [|y a']; [done|]. by rewrite last_app, last_cons_cons, Hc.
Qed.

(** In a run of characters of [n] that is followed by a character outside
    [n], or by nothing, an occurrence of [n] is the whole run. *)
Lemma occurrence_in_run (run rest a b : str) :
  n <> [] ->
  Forall (fun c => c ∈ n) run ->
  all_delimited (run ++ rest) ->
  run = a ++ n ++ b -> run = n.
Proof.
  intros Hn Hrun Hd Heq.
  destruct (Hd a (b ++ rest)) as [Hl Hr].
  { rewrite Heq. by rewrite <- !app_assoc. }
  rewrite Heq in Hrun. apply Forall_app in Hrun as [Ha [_ Hb]%Forall_app].
  assert (a = []) as ->.
  { destruct a as [|x a] using rev_ind; [done|]. exfalso.
    apply (Hl x); [by rewrite last_snoc|].
    by apply Forall_app in Ha as [_ [? _]%Forall_cons]. }
  assert (b = []) as ->.
  { destruct b as [|x b]; [done|]. exfalso.
    apply (Hr x); [done|]. by apply Forall_cons in Hb as [? _]. }
  by rewrite app_nil_r in Heq.
Qed.

Lemma startswith_in_run (run rest b tl : str) :
  Forall (fun c => c ∈ n) run ->
  match rest with [] => True | x :: _ => x ∉ n end ->
  b ++ rest = n ++ tl -> exists c, b = n ++ c.
Proof.
  intros Hrun Hrest Heq.
  apply app_eq_app in Heq as [l [[Hb _]|[Hn Hr]]]; [by exists l|].
  destruct l as [|x l]; [exists []; by rewrite !app_nil_r in *|]. exfalso.
  rewrite Hr in Hrest. cbn in Hrest. apply Hrest. rewrite Hn.
  apply elem_of_app. right. left.
Qed.

(** One pass of [replace] takes every occurrence away when all of them are
    delimited. *)
Lemma remove_all_delimited (s : str) :
  n <> [] -> all_delimited s -> Str.contains n (Str.remove_from n s 0) = false.
Proof.
  intros Hn. remember (length s) as k eqn:Hk. revert s Hk.
  induction k as [k IH] using lt_wf_ind. intros s -> Hd.
  destruct (lstrip_by_split (Str.among n) s) as (run & Hs & Hrun & Hrest).
  set (rest := Str.lstrip_by (Str.among n) s) in *.
  assert (Hrun' : Forall (fun c => c ∈ n) run)
    by (eapply Forall_impl; [exact Hrun|]; intros c Hc; by apply among_spec).
  assert (Hrest' : match rest with [] => True | x :: _ => x ∉ n end).
  { destruct rest as [|x rest']; [done|]. intros Hx%among_spec. congruence. }
  clearbody rest. clear Hrun Hrest. subst s.
  assert (Hno : forall a b, run = a ++ n ++ b -> run = n)
    by (intros a b; by apply occurrence_in_run with rest).
  assert (Hhead : forall x s', rest = x :: s' -> x ∉ n ->
            Str.contains n (Str.remove_from n rest 0) = false /\
            Str.remove_from n rest 0 = x :: Str.remove_from n s' 0 /\
            Str.contains n (Str.remove_from n s' 0) = false).
  { intros x s' -> Hx.
    assert (Hs' : Str.contains n (Str.remove_from n s' 0) = false).
    { apply (IH (length s')); [rewrite length_app; cbn [length]; lia | done |].
      by apply all_delimited_tail with run x. }
    assert (Str.startswith (x :: s') n = false) as Hst.
    { apply not_true_is_false. intros [tl Htl]%startswith_spec.
      destruct n as [|c n']; [done|]. injection Htl as -> _. apply Hx. left. }
    cbn [Str.remove_from]. rewrite Hst. split_and!; [|done|done].
    apply not_true_is_false. intros Hc.
    apply (contains_around [] _ x Hx) in Hc as [Hc|Hc]; [|congruence].
    apply contains_spec in Hc as (a & b & Hc). symmetry in Hc.
    apply app_eq_nil in Hc as [_ [? _]%app_eq_nil]. done. }
  destruct (decide (run = n)) as [->|Hne].
  - rewrite remove_from_occurrence by done.
    destruct rest as [|x s']; [|by apply (Hhead x s')].
    cbn. destruct n; [done|]. reflexivity.
  - rewrite remove_from_keep.
    2:{ intros a b -> Hb. apply not_true_is_false. intros [tl Htl]%startswith_spec.
        apply Forall_app in Hrun' as [_ Hb'].
        destruct (startswith_in_run b rest b tl Hb' Hrest' Htl) as [c ->].
        destruct Hne. by apply (Hno a c). }
    apply not_true_is_false. intros Hc.
    destruct rest as [|x s'].
    + cbn [Str.remove_from] in Hc. rewrite app_nil_r in Hc.
      apply contains_spec in Hc as (a & b & Hc). destruct Hne. by apply (Hno a b).
    + destruct (Hhead x s' eq_refl Hrest') as (_ & Hx & Hs'). rewrite Hx in Hc.
      apply (contains_around _ _ x Hrest') in Hc as [Hc|Hc]; [|congruence].
      apply contains_spec in Hc as (a & b & Hc). destruct Hne. by apply (Hno a b).
Qed.

Lemma remove_delimited (s : str) :
  n <> [] -> delimited n s = true -> Str.contains n (Str.remove n s) = false.
Proof.
  intros Hn Hd. unfold Str.remove. destruct n as [|c n'] eqn:Heq; [done|].
  rewrite <- Heq in *. by apply remove_all_delimited, delimited_all.
Qed.

End Replace.

(** *** The matched literal lies in a line *)

(** Comparisons of characters with numbers are decided by arithmetic. *)
Ltac chars_case :=
  match goal with
  | |- context [N.leb ?a ?b] => destruct (N.leb_spec a b)
  | |- context [N.ltb ?a ?b] => destruct (N.ltb_spec a b)
  | |- context [N.eqb ?a ?b] => destruct (N.eqb_spec a b)
  | H : context [N.leb ?a ?b] |- _ => destruct (N.leb_spec a b)
  | H : context [N.ltb ?a ?b] |- _ => destruct (N.ltb_spec a b)
  | H : context [N.eqb ?a ?b] |- _ => destruct (N.eqb_spec a b)
  end.

(** The code points of literal characters and strings are computed. *)
Ltac norm_chars :=
  repeat match goal with
         | |- context [N_of_ascii ?a] =>
             let v := eval vm_compute in (N_of_ascii a) in
             change (N_of_ascii a) with v
         | |- context [lit ?s] =>
             let v := eval vm_compute in (lit s) in
             change (lit s) with v
         end.

Ltac chars :=
  unfold Chars.lower, Chars.is_letter, Chars.is_upper, Chars.is_lower,
         Chars.ascii_digit, Chars.ascii_space, Chars.is_ascii in *;
  repeat (chars_case; try lia; cbn [andb orb negb xorb] in *; try done);
  cbn [andb orb negb xorb] in *; try done; try lia.

Section InLine.
Context {U : Unicode}.

Lemma run_le icase s (l : str) : run icase s l <= length l.
Proof.
  induction l as [|c l IH]; cbn [run length]; [lia|].
  destruct (cset_has icase s c); lia.
Qed.

Lemma run_has icase s (l : str) k c :
  k < run icase s l -> l !! k = Some c -> cset_has icase s c = true.
Proof.
  revert k. induction l as [|d l IH]; intros k; cbn [run]; [lia|].
  destruct (cset_has icase s d) eqn:Hd; [|lia].
  destruct k as [|k]; cbn; [by intros _ [= <-]|]. intros Hk. apply IH. lia.
Qed.

Lemma same_newline icase p :
  (N_of_ascii p =? newline)%N = false -> Chars.same icase p newline = false.
Proof.
  intros Hp. unfold Chars.same. cbn zeta.
  destruct (icase && Chars.is_letter (N_of_ascii p)) eqn:Hl.
  - apply andb_true_iff in Hl as [_ Hl].
    change (Chars.tolower newline) with newline.
    change (negb (Chars.is_ascii newline)) with false. cbn [andb].
    rewrite orb_false_r. revert Hl. generalize (N_of_ascii p). intros q Hl.
    chars.
  - by rewrite N.eqb_sym.
Qed.

Lemma cset_in_line_newline icase s :
  cset_in_line s = true -> cset_has icase s newline = false.
Proof.
  destruct s as [neg items|]; [|done]. cbn [cset_in_line cset_has].
  intros [->%negb_true_iff Hitems]%andb_true_iff. cbn [xorb].
  induction items as [|it items IH]; [done|].
  cbn [forallb existsb] in *. apply andb_true_iff in Hitems as [Hit Hitems].
  rewrite (IH Hitems), orb_false_r.
  destruct it as [| | |c]; try done. cbn [item_in_line item_has] in *.
  apply same_newline. by apply negb_true_iff.
Qed.

(** A match does not go beyond the text, and it holds no newline when the
    pattern has none. *)
Lemma matches_in_line icase (t : str) r i cs j cs' :
  (j, cs') ∈ matches icase t r i cs -> i <= length t ->
  j <= length t /\
  (re_in_line r = true ->
   forall k, i <= k -> k < j -> t !! k <> Some newline).
Proof.
  revert i cs j cs'.
  induction r as [|s|s|a IHa b IHb|a IHa b IHb| | |n a IHa];
    intros i cs j cs'; cbn [matches re_in_line].
  - intros [= -> _]%list_elem_of_singleton Hi. split; [done|]. lia.
  - destruct (t !! i) as [c|] eqn:Hc; [|by intros ?%elem_of_nil].
    destruct (cset_has icase s c) eqn:Hs; [|by intros ?%elem_of_nil].
    intros [= -> _]%list_elem_of_singleton Hi.
    apply lookup_lt_Some in Hc as Hlt. split; [lia|].
    intros Hin k Hk1 Hk2. assert (k = i) as -> by lia. rewrite Hc.
    intros [= ->]. by rewrite (cset_in_line_newline icase s Hin) in Hs.
  - intros (m & [= -> _] & Hm)%list_elem_of_fmap Hi.
    apply elem_of_reverse, elem_of_seq in Hm.
    pose proof (run_le icase s (drop i t)) as Hle. rewrite length_drop in Hle.
    split; [lia|]. intros Hin k Hk1 Hk2.
    destruct (t !! k) as [c|] eqn:Hc; [|done]. intros [= ->].
    assert (Hc' : drop i t !! (k - i) = Some newline).
    { rewrite lookup_drop. by replace (i + (k - i)) with k by lia. }
    apply run_has with (icase := icase) (s := s) in Hc'; [|lia].
    by rewrite (cset_in_line_newline icase s Hin) in Hc'.
  - intros ([j1 c1] & Hb & Ha)%list_elem_of_bind Hi.
    apply matches_min_len in Ha as Hlen.
    destruct (IHa _ _ _ _ Ha Hi) as [Hj1 Hla].
    destruct (IHb _ _ _ _ Hb Hj1) as [Hj Hlb]. split; [done|].
    intros [Hina Hinb]%andb_true_iff k Hk1 Hk2.
    destruct (decide (k < j1)); [by apply Hla | apply Hlb; [done|lia|done]].
  - intros [Ha|Hb]%elem_of_app Hi.
    + destruct (IHa _ _ _ _ Ha Hi) as [Hj Hl]. split; [done|].
      intros [Hina _]%andb_true_iff. by apply Hl.
    + destruct (IHb _ _ _ _ Hb Hi) as [Hj Hl]. split; [done|].
      intros [_ Hinb]%andb_true_iff. by apply Hl.
  - destruct (boundary t i); [|by intros ?%elem_of_nil].
    intros [= -> _]%list_elem_of_singleton Hi. split; [done|]. lia.
  - destruct (at_end t i); [|by intros ?%elem_of_nil].
    intros [= -> _]%list_elem_of_singleton Hi. split; [done|]. lia.
  - intros ([j1 c1] & [= -> _] & Ha)%list_elem_of_fmap Hi.
    by apply (IHa _ _ _ _ Ha Hi).
Qed.

Lemma finditer_in_line p (t : str) mo :
  mo ∈ finditer p t ->
  m_end mo <= length t /\
  (re_in_line (pat_re p) = true -> newline ∉ group0 t mo).
Proof.
  intros Hmo.
  assert (Hstart : m_start mo <= length t).
  { destruct (finditer_in_order p t (seq 0 (S (length t))) 0 (seq_sorted _ _))
      as [_ Hin].
    rewrite Forall_forall in Hin. specialize (Hin mo Hmo). cbn beta in Hin.
    apply elem_of_seq in Hin. lia. }
  apply finditer_match_at in Hmo. unfold match_at in Hmo.
  destruct (matches _ _ _ _ _) as [|[j cs] l] eqn:Hm; [done|].
  injection Hmo as Hmo.
  assert (Hin : (j, cs) ∈ matches (pat_icase p) t (pat_re p) (m_start mo) [])
    by (rewrite Hm; left).
  destruct (matches_in_line _ _ _ _ _ _ _ Hin Hstart) as [Hj Hline].
  rewrite <- Hmo in *. cbn [m_start m_end] in *. split; [done|].
  intros Hp (k & Hk)%list_elem_of_lookup_1. unfold group0, Str.slice in Hk.
  cbn [m_start m_end] in Hk.
  apply lookup_take_Some in Hk as [Hk Hlt]. rewrite lookup_drop in Hk.
  by apply (Hline Hp (m_start mo + k)); [lia|lia|].
Qed.

End InLine.

Lemma group0_infix (t : str) mo : Str.contains (group0 t mo) t = true.
Proof.
  apply contains_spec. unfold group0, Str.slice.
  exists (take (m_start mo) t),
         (drop (m_end mo - m_start mo) (drop (m_start mo) t)).
  by rewrite take_drop, take_drop.
Qed.

Lemma first_line_with_Some lines needle :
  Exists (fun line => Str.contains needle line = true) lines ->
  exists line, first_line_with lines needle = Some line.
Proof.
  induction 1 as [line lines Hl|line lines _ IH]; cbn [first_line_with].
  - rewrite Hl. by eexists.
  - destruct (Str.contains needle line); [by eexists | done].
Qed.

(** The patterns of the source types take at least one character and no
    newline. *)
Lemma source_patterns_in_line ty p :
  ty ∈ _SOURCE_TYPES -> p ∈ url_patterns ty ++ ref_patterns ty ->
  re_in_line (pat_re p) = true /\ 1 <= min_len (pat_re p).
Proof.
  intros Hty Hp.
  assert (Hall : Forall (fun p => re_in_line (pat_re p) = true /\
                                  1 <= min_len (pat_re p))
                   (ty ← _SOURCE_TYPES; url_patterns ty ++ ref_patterns ty)).
  { apply (bool_decide_unpack _). vm_compute. exact I. }
  rewrite Forall_forall in Hall. apply Hall.
  apply list_elem_of_bind. by exists ty.
Qed.

(** The literal of a match of the extractor is not empty, and some line of
    the text contains it. *)
Lemma output_literal {U : Unicode} raw_text ty m :
  ty ∈ _SOURCE_TYPES ->
  m ∈ url_matches ty raw_text \/ m ∈ ref_matches ty raw_text ->
  group0 raw_text m <> [] /\
  exists line,
    first_line_with (Str.split_lines raw_text) (group0 raw_text m) = Some line.
Proof.
  intros Hty Hm.
  assert (exists p, p ∈ url_patterns ty ++ ref_patterns ty /\
                    m ∈ finditer p raw_text) as (p & Hp & Hmp).
  { unfold url_matches, ref_matches in Hm.
    destruct Hm as [(p & ? & ?)%list_elem_of_bind|(p & ? & ?)%list_elem_of_bind];
      exists p; (split; [|done]); apply elem_of_app; auto. }
  destruct (source_patterns_in_line ty p Hty Hp) as [Hline Hmin].
  destruct (finditer_in_line p raw_text m Hmp) as [Hend Hnl].
  apply finditer_match_at in Hmp. apply match_at_min_len in Hmp as Hlen.
  split.
  - intros Hnil%(f_equal length). unfold group0, Str.slice in Hnil.
    rewrite length_take, length_drop in Hnil. cbn [length] in Hnil. lia.
  - apply first_line_with_Some, contains_in_some_line; [by apply Hnl|].
    apply group0_infix.
Qed.

(** When every occurrence of the needle in the cleaned line is delimited,
    the context has none, unless the ellipsis completes one. *)
Lemma context_of_line_free {U : Unicode} needle line :
  needle <> [] ->
  delimited needle (clean_markdown line) = true ->
  length (without_needle needle line) <= 150 \/ "."%ch ∉ needle ->
  Str.contains needle (context_of_line needle line) = false.
Proof.
  intros Hne Hdel Hcut.
  assert (Hw : Str.contains needle (without_needle needle line) = false)
    by by apply contains_strip_by, remove_delimited.
  unfold context_of_line. cbn zeta.
  destruct (150 <? length (without_needle needle line)) eqn:Hlen; [|done].
  apply Nat.ltb_lt in Hlen. destruct Hcut as [?|Hdot]; [lia|].
  apply not_true_is_false. intros [Hc|Hc]%contains_truncated; [congruence|done].
Qed.

(** C8, as stated, fails, whatever the tables of the interpreter: the one
    pass of [replace] joins the two halves of SCSCRS-1RS-1 around a deleted
    occurrence into the literal again. *)
Lemma context_drops_literal_fails : ~ exists U : Unicode, context_drops_literal.
Proof.
  intros [U H].
  enough (true = false) by discriminate.
  eapply (H (lit "SCRS-1 SCSCRS-1RS-1")
            [Group "jira" "JIRA" "ticket"
               [Ref (Some (lit "https://datadoghq.atlassian.net/browse/SCRS-1"))
                    (lit "SCRS-1") (lit "SCRS-1")]]
            (Group "jira" "JIRA" "ticket"
               [Ref (Some (lit "https://datadoghq.atlassian.net/browse/SCRS-1"))
                    (lit "SCRS-1") (lit "SCRS-1")])
            (Ref (Some (lit "https://datadoghq.atlassian.net/browse/SCRS-1"))
                 (lit "SCRS-1") (lit "SCRS-1"))
            _ (Match 0 6 [(1, (0, 6))]) (lit "SCRS-1 SCSCRS-1RS-1")).
  - vm_compute; reflexivity.
  - apply elem_of_cons; by left.
  - apply elem_of_cons; by left.
  - apply elem_of_cons; by left.
  - reflexivity.
  - right. split; [|vm_compute; reflexivity].
    vm_compute. apply elem_of_cons; by left.
  - vm_compute; reflexivity.
  - vm_compute; reflexivity.
Qed.

(** C8, amended: the context of a reference is that of its matched literal
    in the first line that contains it, and there is such a line; it has at
    most 150 characters; it is free of the literal when every occurrence of
    the literal in the cleaned line stands between characters that are not
    in the literal (or at an end of the line) and the ellipsis cannot
    complete one (nothing is cut, or the literal has no full stop).  For a
    needle that no line contains, [_get_context_for_match] returns the empty
    string. *)
Theorem context_snippet {U : Unicode} raw_text gs g r :
  extract_sources raw_text = Ok gs -> g ∈ gs -> r ∈ refs g ->
  (exists ty m line,
     ty ∈ _SOURCE_TYPES /\ key g = src_key ty /\
     (m ∈ url_matches ty raw_text /\
      r = url_reference (src_key ty) raw_text (Str.split_lines raw_text) m \/
      m ∈ ref_matches ty raw_text /\
      r = bare_reference (src_key ty) raw_text (Str.split_lines raw_text) m) /\
     group0 raw_text m <> [] /\
     first_line_with (Str.split_lines raw_text) (group0 raw_text m) = Some line /\
     context r = context_of_line (group0 raw_text m) line /\
     length (context r) <= 150 /\
     (delimited (group0 raw_text m) (clean_markdown line) = true ->
      length (without_needle (group0 raw_text m) line) <= 150 \/
      "."%ch ∉ group0 raw_text m ->
      Str.contains (group0 raw_text m) (context r) = false)) /\
  (forall lines needle full_text,
     Forall (fun line => Str.contains needle line = false) lines ->
     _get_context_for_match lines needle full_text = []).
Proof.
  intros Hex Hg Hr. split; [|apply get_context_no_line].
  destruct (group_in_output _ _ _ Hex Hg) as (ty & mu & mb & Hty & Hkey & _ & Htp).
  destruct Htp as [Hrefs _ Hsu Hsb _ _ _ _ _].
  assert (exists m,
            (m ∈ url_matches ty raw_text /\
             r = url_reference (src_key ty) raw_text (Str.split_lines raw_text) m \/
             m ∈ ref_matches ty raw_text /\
             r = bare_reference (src_key ty) raw_text (Str.split_lines raw_text) m) /\
            context r =
              _get_context_for_match (Str.split_lines raw_text)
                (group0 raw_text m) raw_text)
    as (m & Hm & Hctx).
  { rewrite Hrefs in Hr.
    apply elem_of_app in Hr as [(m & -> & Hm)%list_elem_of_fmap
                               |(m & -> & Hm)%list_elem_of_fmap];
      exists m; (split; [|reflexivity]).
    - left. split; [|done]. by apply (sublist_subseteq _ _ Hsu).
    - right. split; [|done]. by apply (sublist_subseteq _ _ Hsb). }
  destruct (output_literal raw_text ty m Hty) as [Hne [line Hline]].
  { destruct Hm as [[? _]|[? _]]; auto. }
  rewrite get_context_first_line, Hline in Hctx.
  exists ty, m, line. rewrite Hctx. split_and!; try done.
  - apply context_of_line_length.
  - intros Hdel Hcut. by apply context_of_line_free.
Qed.

Lemma context_snippet_witness :
  length (lit "see  and  now") <= 150 /\
  Str.contains (lit "ZD-7") (lit "see  and  now") = false.
Proof.
  destruct (context_snippet
              (lit "see ZD-7 and ZD-7 now")
              [Group "jira" "JIRA" "ticket"
                 [Ref (Some (lit "https://datadoghq.atlassian.net/browse/ZD-7"))
                      (lit "ZD-7") (lit "see  and  now")]]
              (Group "jira" "JIRA" "ticket"
                 [Ref (Some (lit "https://datadoghq.atlassian.net/browse/ZD-7"))
                      (lit "ZD-7") (lit "see  and  now")])
              (Ref (Some (lit "https://datadoghq.atlassian.net/browse/ZD-7"))
                   (lit "ZD-7") (lit "see  and  now")))
    as [(ty & m & line & Hty & Hkey & Hm & _ & Hline & _ & Hlen & Hfree) _].
  - vm_compute; reflexivity.
  - apply elem_of_cons; by left.
  - apply elem_of_cons; by left.
  - split; [exact Hlen|].
    assert (Hneedle : group0 (lit "see ZD-7 and ZD-7 now") m = lit "ZD-7").
    { revert Hkey Hm. clear -Hty. unfold _SOURCE_TYPES in Hty.
      cases_of_list Hty; cbn [key src_key]; intros Hk; try discriminate Hk.
      intros [[Hm _]|[_ Hm]].
      - vm_compute in Hm. by apply elem_of_nil in Hm.
      - symmetry. exact (f_equal display Hm). }
    rewrite Hneedle in Hline, Hfree.
    assert (line = lit "see ZD-7 and ZD-7 now") as ->
      by (vm_compute in Hline; by injection Hline as <-).
    apply Hfree.
    + vm_compute; reflexivity.
    + left. vm_compute. lia.
Defined.

(** The ellipsis can complete the literal too: here the only occurrence of
    the needle is delimited and [replace] deletes it, and the cut falls
    right after an "a". *)
Example ellipsis_completes_literal {U : Unicode} :
  let needle := lit "a." in
  let line := lit "a." ++ replicate 146 "x"%ch ++ lit "abbbb" in
  delimited needle (clean_markdown line) = true /\
  Str.contains needle (_get_context_for_match [line] needle line) = true.
Proof. vm_compute. split; reflexivity. Qed.

(** * The rest of the program: properties *)

(** ** The classifier and the taxonomy tables *)

Lemma scan_rules_key {U : Unicode} rules text :
  scan_rules rules text = "other"%string \/
  scan_rules rules text ∈ area_key <$> rules.
Proof.
  induction rules as [|r rules IH]; [by left|]. simpl.
  destruct (area_patterns r).
  - destruct IH as [IH|IH]; [by left|]. right. by apply elem_of_cons; right.
  - destruct (any_pattern _ _).
    + right. apply elem_of_cons. by left.
    + destruct IH as [IH|IH]; [by left|]. right. by apply elem_of_cons; right.
Qed.

Lemma detect_product_area_key {U : Unicode} text :
  detect_product_area text ∈ area_key <$> PRODUCT_AREA_RULES.
Proof.
  assert (Hother : "other"%string ∈ area_key <$> PRODUCT_AREA_RULES).
  { apply (bool_decide_unpack _). vm_compute. exact I. }
  unfold detect_product_area. destruct (found org_deletion text); [done|].
  by destruct (scan_rules_key _COMPILED_AREA_RULES text) as [->|?].
Qed.

(** X1: whatever the text, the product area is a key of the rule table: it
    has a label in [PRODUCT_AREA_LABELS], and unless it is "other" it has a
    group in [AREA_TO_GROUP] that [PRODUCT_AREA_GROUPS] knows and that lists
    the area. *)
Theorem classification_in_taxonomy {U : Unicode} text :
  is_Some (PRODUCT_AREA_LABELS !! detect_product_area text) /\
  (detect_product_area text = "other"%string \/
   exists g info,
     AREA_TO_GROUP !! detect_product_area text = Some g /\
     PRODUCT_AREA_GROUPS !! g = Some info /\
     detect_product_area text ∈ group_areas info).
Proof.
  pose proof (detect_product_area_key text) as Hk.
  change (area_key <$> PRODUCT_AREA_RULES)
    with ["siem"; "aap"; "workload_protection"; "cspm"; "vm"; "ciem"; "sast";
          "sca"; "iast"; "other"]%string in Hk.
  cases_of_list Hk;
    (split; [by eexists|]);
    first [ by left
          | right; eexists _, _; split_and!;
            [ vm_compute; reflexivity | vm_compute; reflexivity
            | apply (bool_decide_unpack _); vm_compute; exact I ] ].
Qed.

(** X2: an answer other than "other" is the key of the first rule of the
    table with a matching pattern, and the text is not a deletion request. *)
Theorem classification_sound {U : Unicode} text k :
  detect_product_area text = k -> k <> "other"%string ->
  found org_deletion text = false /\
  exists pre r post,
    _COMPILED_AREA_RULES = pre ++ r :: post /\ area_key r = k /\
    matches_rule r text /\
    Forall (fun r' => ~ matches_rule r' text) pre.
Proof.
  unfold detect_product_area. intros Hk Hne.
  destruct (found org_deletion text); [congruence|]. split; [done|].
  revert Hk. generalize _COMPILED_AREA_RULES.
  induction l as [|r rules IH]; [done|]. cbn [scan_rules].
  destruct (any_pattern (area_patterns r) text) eqn:Hany.
  - intros Hk. exists [], r, rules. split_and!; try done.
    + by destruct (area_patterns r).
    + by apply any_pattern_Exists.
  - intros Hk.
    assert (Hrest : scan_rules rules text = k) by by destruct (area_patterns r).
    destruct (IH Hrest) as (pre & r' & post & -> & Hkey & Hm & Hpre).
    exists (r :: pre), r', post. split_and!; try done.
    constructor; [|done]. intros Hr%any_pattern_Exists. congruence.
Qed.

Lemma classification_sound_witness :
  found org_deletion (lit "a CVE in the base image") = false.
Proof.
  apply (classification_sound (lit "a CVE in the base image") "vm").
  - vm_compute; reflexivity.
  - discriminate.
Defined.

(** *** Letter case *)

Section LowerCase.
Context {U : Unicode}.

Lemma lower_idemp c : Chars.lower (Chars.lower c) = Chars.lower c.
Proof. chars. Qed.

Lemma lower_is_ascii c : Chars.is_ascii (Chars.lower c) = Chars.is_ascii c.
Proof. chars. Qed.

Lemma lower_not_ascii c : Chars.is_ascii c = false -> Chars.lower c = c.
Proof. chars. Qed.

Lemma is_word_lower c : Chars.is_word (Chars.lower c) = Chars.is_word c.
Proof.
  unfold Chars.is_word. rewrite lower_is_ascii.
  destruct (Chars.is_ascii c) eqn:Hc; [|by rewrite lower_not_ascii].
  clear Hc. chars.
Qed.

Lemma is_space_lower c : Chars.is_space (Chars.lower c) = Chars.is_space c.
Proof.
  unfold Chars.is_space. rewrite lower_is_ascii.
  destruct (Chars.is_ascii c) eqn:Hc; [|by rewrite lower_not_ascii].
  clear Hc. chars.
Qed.

Lemma is_digit_lower c : Chars.is_digit (Chars.lower c) = Chars.is_digit c.
Proof.
  unfold Chars.is_digit, Chars.decimal. rewrite lower_is_ascii.
  destruct (Chars.is_ascii c) eqn:Hc; [|by rewrite lower_not_ascii].
  clear Hc. chars.
Qed.

Lemma newline_lower c : Chars.lower c = newline <-> c = newline.
Proof. split; chars. Qed.

Lemma same_lower p c :
  Chars.same true p (Chars.lower c) = Chars.same true p c.
Proof.
  unfold Chars.same. cbn zeta. generalize (N_of_ascii p). intros q.
  cbn [andb]. destruct (Chars.is_letter q) eqn:Hq.
  - replace (Chars.tolower (Chars.lower c)) with (Chars.tolower c); [done|].
    unfold Chars.tolower. rewrite lower_is_ascii.
    destruct (Chars.is_ascii c) eqn:Hc; [by rewrite lower_idemp|].
    by rewrite lower_not_ascii.
  - chars.
Qed.

Lemma cset_has_lower s c :
  cset_has true s (Chars.lower c) = cset_has true s c.
Proof.
  destruct s as [neg items|]; cbn [cset_has].
  - f_equal. induction items as [|it items IH]; [done|]. cbn [existsb].
    rewrite IH. f_equal. destruct it; cbn [item_has].
    + apply is_word_lower.
    + apply is_space_lower.
    + apply is_digit_lower.
    + apply same_lower.
  - f_equal. destruct (N.eqb_spec (Chars.lower c) newline),
                      (N.eqb_spec c newline); try done.
    + destruct n. by apply newline_lower.
    + destruct n. by apply newline_lower.
Qed.

Context (t : str).

Lemma run_lower s (l : str) : run true s (ascii_lower_str l) = run true s l.
Proof.
  induction l as [|c l IH]; [done|]. cbn [ascii_lower_str fmap list_fmap run].
  rewrite cset_has_lower. fold (ascii_lower_str l). by rewrite IH.
Qed.

Lemma word_at_lower i : word_at (ascii_lower_str t) i = word_at t i.
Proof.
  unfold word_at, ascii_lower_str. rewrite list_lookup_fmap.
  destruct (t !! i); [apply is_word_lower | done].
Qed.

Lemma boundary_lower i : boundary (ascii_lower_str t) i = boundary t i.
Proof.
  unfold boundary. rewrite word_at_lower. by destruct i; rewrite ?word_at_lower.
Qed.

Lemma at_end_lower i : at_end (ascii_lower_str t) i = at_end t i.
Proof.
  unfold at_end, ascii_lower_str. rewrite length_fmap, list_lookup_fmap.
  do 2 f_equal. apply bool_decide_ext. destruct (t !! i) as [c|]; [|done].
  cbn. split; intros [= H]; f_equal; by apply newline_lower.
Qed.

(** Under [IGNORECASE] the matcher does not see the case of the text. *)
Lemma matches_lower r i cs :
  matches true (ascii_lower_str t) r i cs = matches true t r i cs.
Proof.
  revert i cs. induction r as [|s|s|a IHa b IHb|a IHa b IHb| | |n a IHa];
    intros i cs; cbn [matches].
  - done.
  - unfold ascii_lower_str. rewrite list_lookup_fmap.
    destruct (t !! i) as [c|]; [|done]. cbn. by rewrite cset_has_lower.
  - unfold ascii_lower_str at 1. rewrite <- fmap_drop. fold (ascii_lower_str (drop i t)).
    by rewrite run_lower.
  - rewrite IHa. apply list_bind_ext; [|done]. by intros [j cs'].
  - by rewrite IHa, IHb.
  - by rewrite boundary_lower.
  - by rewrite at_end_lower.
  - by rewrite IHa.
Qed.

Lemma found_lower p : pat_icase p = true -> found p (ascii_lower_str t) = found p t.
Proof.
  intros Hp. unfold found, search.
  assert (Hat : forall i, match_at p (ascii_lower_str t) i = match_at p t i).
  { intros i. unfold match_at. by rewrite Hp, matches_lower. }
  replace (length (ascii_lower_str t)) with (length t)
    by (unfold ascii_lower_str; by rewrite length_fmap).
  generalize (seq 0 (S (length t))). intros starts.
  f_equal. induction starts as [|i starts IH]; [done|]. cbn [search_in].
  rewrite Hat. by destruct (match_at p t i).
Qed.

Lemma any_pattern_lower pats :
  Forall (fun p => pat_icase p = true) pats ->
  any_pattern pats (ascii_lower_str t) = any_pattern pats t.
Proof.
  induction 1 as [|p pats Hp _ IH]; [done|]. cbn [any_pattern].
  by rewrite (found_lower p Hp), IH.
Qed.

Lemma scan_rules_lower rules :
  Forall (fun r => Forall (fun p => pat_icase p = true) (area_patterns r)) rules ->
  scan_rules rules (ascii_lower_str t) = scan_rules rules t.
Proof.
  induction 1 as [|r rules Hr _ IH]; [done|]. cbn [scan_rules].
  by rewrite (any_pattern_lower _ Hr), IH.
Qed.

End LowerCase.

(** X3: the product area does not depend on the case of the ASCII letters
    of the text: two texts that differ only in the case of such letters are
    classified alike. *)
Theorem classification_ignores_case {U : Unicode} text text' :
  ascii_lower_str text = ascii_lower_str text' ->
  detect_product_area text = detect_product_area text'.
Proof.
  assert (Hlow : forall t,
            detect_product_area (ascii_lower_str t) = detect_product_area t).
  { intros t. unfold detect_product_area.
    rewrite (found_lower t org_deletion eq_refl), scan_rules_lower; [done|].
    apply (bool_decide_unpack _). vm_compute. exact I. }
  intros Heq. by rewrite <- (Hlow text), Heq, Hlow.
Qed.

Lemma classification_ignores_case_witness :
  detect_product_area (lit "Cloud SIEM Rule") =
  detect_product_area (lit "cLOUD siem rULE").
Proof. apply classification_ignores_case. vm_compute; reflexivity. Defined.

(** *** The filter of the archive page *)

Lemma archive_all_areas_elem {U : Unicode} months tickets t :
  tickets ∈ months -> t ∈ tickets ->
  detect_product_area (content_preview t) ∈ archive_all_areas months.
Proof.
  unfold archive_all_areas.
  set (add := fun (acc : gset string) (t : option str) =>
                {[ detect_product_area (content_preview t) ]} ∪ acc).
  assert (Hkeep : forall ts acc k, k ∈ acc -> k ∈ foldl add acc ts).
  { induction ts as [|t' ts IH]; intros acc k Hk; [done|]. cbn [foldl].
    apply IH. unfold add. apply elem_of_union. by right. }
  assert (Hadd : forall ts acc, t ∈ ts ->
            detect_product_area (content_preview t) ∈ foldl add acc ts).
  { induction ts as [|t' ts IH]; intros acc Ht; [by apply elem_of_nil in Ht|].
    cbn [foldl]. apply elem_of_cons in Ht as [<-|Ht]; [|by apply IH].
    apply Hkeep. unfold add. apply elem_of_union. left. by apply elem_of_singleton. }
  generalize (∅ : gset string).
  induction months as [|m months IH]; intros acc Hm Ht;
    [by apply elem_of_nil in Hm|].
  cbn [foldl]. apply elem_of_cons in Hm as [<-|Hm]; [|by apply IH].
  clear IH. generalize (Hadd tickets acc Ht).
  generalize (foldl add acc tickets). clear -Hkeep.
  induction months as [|m months IH]; intros acc Hk; [done|]. cbn [foldl].
  by apply IH, Hkeep.
Qed.

(** X4: the area filter of the archive page offers the area of every listed
    ticket, each area once, in the order of the rule table. *)
Theorem area_order_covers {U : Unicode} months tickets t :
  tickets ∈ months -> t ∈ tickets ->
  detect_product_area (content_preview t) ∈ area_order (archive_all_areas months) /\
  NoDup (area_order (archive_all_areas months)) /\
  area_order (archive_all_areas months) `sublist_of`
    ["siem"; "aap"; "workload_protection"; "cspm"; "vm"; "ciem"; "sast"; "sca";
     "iast"; "other"]%string.
Proof.
  intros Hm Ht. unfold area_order. split_and!.
  - apply list_elem_of_filter. split.
    + by apply (archive_all_areas_elem months tickets).
    + apply detect_product_area_key.
  - apply NoDup_filter. apply (bool_decide_unpack _). vm_compute. exact I.
  - apply sublist_filter.
Qed.

Lemma area_order_covers_witness :
  "cspm"%string ∈
    area_order (archive_all_areas [[Some (lit "# SCRS-1: CSPM finding"); None]]).
Proof.
  apply (area_order_covers [[Some (lit "# SCRS-1: CSPM finding"); None]]
           [Some (lit "# SCRS-1: CSPM finding"); None]
           (Some (lit "# SCRS-1: CSPM finding"))).
  - apply elem_of_cons; by left.
  - apply elem_of_cons; by left.
Defined.

(** ** The extractor: references without a url, and normal returns *)

(** A channel handle starts with the hash sign. *)
Lemma slack_handle_hash {U : Unicode} t i mo :
  match_at slack_handle t i = Some mo -> t !! i = Some "#"%ch.
Proof.
  unfold match_at. cbn [slack_handle compile_i pat_re pat_icase cat foldr txt
                        list_ascii_of_string chr matches].
  destruct (t !! i) as [c|]; [|done].
  destruct (cset_has true (CSet false [IChar "#"]) c) eqn:Hc; [|done].
  intros _. f_equal. revert Hc. cbn. rewrite orb_false_r. by intros ->%N.eqb_eq.
Qed.

Lemma slack_handle_display {U : Unicode} t mo :
  mo ∈ finditer slack_handle t ->
  Str.startswith (group0 t mo) (lit "#") = true.
Proof.
  intros Hm%finditer_match_at.
  pose proof (slack_handle_hash _ _ _ Hm) as Hhash.
  apply match_at_min_len in Hm as Hlen.
  change (min_len (pat_re slack_handle)) with 3 in Hlen.
  unfold group0, Str.slice.
  rewrite (drop_S _ _ _ Hhash).
  destruct (m_end mo - m_start mo) as [|n] eqn:Hn; [lia|].
  apply startswith_spec. by eexists.
Qed.

Lemma pred_positions_sorted (positions : list nat) :
  Forall (lt 0) positions -> StronglySorted lt positions ->
  StronglySorted lt (pred <$> positions).
Proof.
  induction 1 as [|i positions Hi Hpos IH]; intros Hs; [constructor|].
  apply StronglySorted_cons in Hs as [Hlt Hs]. rewrite fmap_cons.
  apply StronglySorted_cons. split; [|auto].
  rewrite Forall_forall in *. intros j (k & -> & Hk)%list_elem_of_fmap.
  specialize (Hlt k Hk). lia.
Qed.

(** Sorted positions of characters with [P] are no more than the characters
    with [P]. *)
Lemma sorted_positions_count (P : N -> Prop) `{!forall c, Decision (P c)}
    (t : str) :
  forall positions,
  StronglySorted lt positions ->
  Forall (fun i => exists c, t !! i = Some c /\ P c) positions ->
  length positions <= length (filter P t).
Proof.
  induction t as [|c t IH]; intros positions Hs Hp.
  { destruct positions as [|i positions]; [done|].
    apply Forall_cons in Hp as [(c & Hc & _) _]. done. }
  assert (Hshift : forall qs,
            Forall (lt 0) qs -> StronglySorted lt qs ->
            Forall (fun i => exists d, (c :: t) !! i = Some d /\ P d) qs ->
            length qs <= length (filter P t)).
  { intros qs Hpos Hqs Hq. rewrite <- (length_fmap pred qs).
    apply IH; [by apply pred_positions_sorted|].
    rewrite Forall_forall in *. intros j (k & -> & Hk)%list_elem_of_fmap.
    specialize (Hpos k Hk). destruct (Hq k Hk) as (d & Hd & HPd).
    exists d. split; [|done]. by destruct k; [lia|]. }
  assert (Hmono : length (filter P t) <= length (filter P (c :: t))).
  { rewrite filter_cons. destruct (decide (P c)); cbn [length]; lia. }
  destruct positions as [|[|i] positions]; [cbn; lia| |].
  - apply StronglySorted_cons in Hs as [Hlt Hs].
    apply Forall_cons in Hp as [(d & [= <-] & HPc) Hp].
    rewrite filter_cons_True by done. cbn [length].
    apply le_n_S, Hshift; done.
  - etrans; [|exact Hmono]. apply Hshift; [|done|done].
    apply StronglySorted_cons in Hs as [Hlt Hs].
    constructor; [lia|]. eapply Forall_impl; [exact Hlt|]. cbn. lia.
Qed.

Section UrlLess.
Context {U : Unicode}.
Context (src : string) (raw_text : str) (lines : list str).

Local Abbreviation ustep := (url_step src raw_text lines).
Local Abbreviation rstep := (ref_step src raw_text lines).

Lemma url_loop_has_url ms st :
  Forall has_url (scan_refs st) ->
  Forall has_url (scan_refs (foldl ustep st ms)).
Proof.
  revert st. induction ms as [|mo ms IH]; intros st Hst; [done|].
  cbn [foldl]. apply IH. rewrite url_step_unfold.
  case_bool_decide; [done|]. cbn [scan_refs].
  apply Forall_app. split; [done|]. apply Forall_singleton. by eexists.
Qed.

Lemma clear_of_has_url x rs : clear_of x rs -> Forall has_url rs.
Proof.
  intros Hc. eapply Forall_impl; [exact Hc|].
  intros r [_ (u & Hu & _)]. unfold has_url. by rewrite Hu.
Qed.

(** The containment test goes through when every reference has a url. *)
Lemma already_captured_total x rs :
  Forall has_url rs -> exists b, already_captured x rs = Ok b.
Proof.
  induction 1 as [|r rs [u Hu] _ [b IH]]; cbn [already_captured]; [by eexists|].
  destruct (Str.contains x (display r)); [by eexists|]. rewrite Hu.
  destruct (Str.contains x u); by eexists.
Qed.

Lemma ref_step_total st mo :
  Forall has_url (scan_refs st) -> exists st', rstep st mo = Ok st'.
Proof.
  intros Hst. unfold ref_step. cbn zeta.
  destruct (already_captured_total (group0 raw_text mo) _ Hst) as [b ->].
  cbn [mbind result_bind]. destruct b; [by eexists|].
  case_bool_decide; by eexists.
Qed.

(** The pass of the bare references keeps "all references but the last have
    a url". *)
Lemma ref_loop_all_but_last ms st0 st1 :
  for_each rstep ms st0 = Ok st1 ->
  (exists body tail, scan_refs st0 = body ++ tail /\
                     Forall has_url body /\ length tail <= 1) ->
  exists body tail, scan_refs st1 = body ++ tail /\
                    Forall has_url body /\ length tail <= 1.
Proof.
  revert st0. induction ms as [|mo ms IH]; intros st0 Hrun Hst0.
  { by injection Hrun as <-. }
  cbn [for_each] in Hrun.
  destruct (rstep st0 mo) as [st'|e] eqn:Hstep; [|done].
  cbn [mbind result_bind] in Hrun. apply (IH st' Hrun).
  apply ref_step_cases in Hstep as [[-> _]|(-> & Hclear & _)]; [done|].
  exists (scan_refs st0), [bare_reference src raw_text lines mo].
  split_and!; [done | by eapply clear_of_has_url | cbn; lia].
Qed.

(** With a url for every bare reference the pass never raises. *)
Lemma ref_loop_total_urls ms st0 :
  (forall x, is_Some (bare_url src x)) ->
  Forall has_url (scan_refs st0) ->
  exists st1, for_each rstep ms st0 = Ok st1.
Proof.
  intros Hsrc. revert st0. induction ms as [|mo ms IH]; intros st0 Hst0;
    [by eexists|].
  cbn [for_each]. destruct (ref_step_total st0 mo Hst0) as [st' Hstep].
  rewrite Hstep. cbn [mbind result_bind]. apply IH.
  apply ref_step_cases in Hstep as [[-> _]|(-> & _ & _)]; [done|].
  cbn [scan_refs]. apply Forall_app. split; [done|].
  apply Forall_singleton, Hsrc.
Qed.

(** Nor does it with at most one match. *)
Lemma ref_loop_total_short ms st0 :
  length ms <= 1 ->
  Forall has_url (scan_refs st0) ->
  exists st1, for_each rstep ms st0 = Ok st1.
Proof.
  destruct ms as [|mo [|mo' ms]]; cbn [length]; intros Hlen Hst0;
    [by eexists | | lia].
  cbn [for_each]. destruct (ref_step_total st0 mo Hst0) as [st' ->].
  by eexists.
Qed.

End UrlLess.

Lemma url_pass_has_url {U : Unicode} ty raw_text lines :
  Forall has_url (scan_refs (url_pass ty raw_text lines)).
Proof. apply url_loop_has_url. constructor. Qed.

Lemma in_text_order_starts ms :
  in_text_order ms -> StronglySorted lt (m_start <$> ms).
Proof.
  unfold in_text_order. induction ms as [|mo ms IH]; intros Hs; [constructor|].
  apply StronglySorted_cons in Hs as [Hmo Hs].
  rewrite fmap_cons. apply StronglySorted_cons. split; [|auto].
  rewrite Forall_forall in Hmo. apply Forall_forall.
  intros i (mo' & -> & Hmo')%list_elem_of_fmap. by apply Hmo.
Qed.

(** The channel handles of a text are no more than its hash signs. *)
Lemma slack_handles_count {U : Unicode} t :
  length (finditer slack_handle t) <= length (filter (fun c => c = "#"%ch) t).
Proof.
  rewrite <- (length_fmap m_start).
  apply sorted_positions_count.
  - apply in_text_order_starts, finditer_order.
  - apply Forall_forall. intros i (mo & -> & Hmo)%list_elem_of_fmap.
    exists "#"%ch. split; [|done].
    by eapply slack_handle_hash, finditer_match_at.
Qed.

(** X5: in what the extractor returns, a reference without a url is a
    channel handle of the slack group, and no group has two of them. *)
Theorem at_most_one_reference_without_url {U : Unicode} raw_text gs g :
  extract_sources raw_text = Ok gs -> g ∈ gs ->
  length (filter (fun r => url r = None) (refs g)) <= 1 /\
  forall r, r ∈ refs g -> url r = None ->
    key g = "slack"%string /\ Str.startswith (display r) (lit "#") = true.
Proof.
  intros Hex Hg. split.
  - apply extract_sources_groups in Hex as ->.
    apply list_elem_of_omap in Hg as (ty & _ & Hg).
    apply group_of_Some in Hg as (_ & Hscan & _).
    unfold scan_type in Hscan.
    destruct (for_each _ _ _) as [st1|e] eqn:Hrun; [|done].
    injection Hscan as Hscan.
    eapply ref_loop_all_but_last in Hrun as (body & tail & Hrefs & Hbody & Htail).
    2:{ exists (scan_refs (url_pass ty raw_text (Str.split_lines raw_text))), [].
        rewrite app_nil_r. split_and!; [done | apply url_pass_has_url | cbn; lia]. }
    rewrite <- Hscan, Hrefs, filter_app, length_app.
    assert (filter (fun r => url r = None) body = []) as ->.
    { clear -Hbody. induction Hbody as [|r body [u Hu] _ IH]; [done|].
      rewrite filter_cons_False; [done|congruence]. }
    cbn [length]. etrans; [apply length_filter|done].
  - destruct (group_in_output _ _ _ Hex Hg)
      as (ty & mu & mb & Hty & Hkey & _ & Htp).
    destruct Htp as [Hrefs _ _ Hsb _ _ _ _ _].
    rewrite Hrefs. intros r [(m & -> & _)%list_elem_of_fmap
                            |(m & -> & Hm)%list_elem_of_fmap]%elem_of_app Hnone;
      [done|].
    apply (sublist_subseteq _ _ Hsb) in Hm. cbn [bare_reference url display] in *.
    rewrite Hkey. clear -Hty Hm Hnone. unfold _SOURCE_TYPES in Hty.
    cases_of_list Hty; cbn [src_key] in *;
      try (by apply elem_of_nil in Hm); try done.
    split; [done|]. apply slack_handle_display.
    change (m ∈ finditer slack_handle raw_text ++ []) in Hm.
    by rewrite app_nil_r in Hm.
Qed.

Lemma at_most_one_reference_without_url_witness :
  length [Ref None (lit "#help-desk") (lit "ask in help-desk or help about ZD-7")] <= 1.
Proof.
  apply (at_most_one_reference_without_url
           (lit "ask in #help-desk or #help about ZD-7")
           [Group "jira" "JIRA" "ticket"
              [Ref (Some (lit "https://datadoghq.atlassian.net/browse/ZD-7"))
                   (lit "ZD-7") (lit "ask in help-desk or help about")];
            Group "slack" "Slack" "chat"
              [Ref None (lit "#help-desk")
                   (lit "ask in help-desk or help about ZD-7")]]
           (Group "slack" "Slack" "chat"
              [Ref None (lit "#help-desk")
                   (lit "ask in help-desk or help about ZD-7")])).
  - vm_compute; reflexivity.
  - apply elem_of_cons; right. apply elem_of_cons; by left.
Defined.

Lemma scan_type_total {U : Unicode} raw_text ty :
  length (filter (fun c => c = "#"%ch) raw_text) <= 1 ->
  ty ∈ _SOURCE_TYPES ->
  exists rs, scan_type ty raw_text (Str.split_lines raw_text) = Ok rs.
Proof.
  intros Hhash Hty.
  assert (exists st1,
            for_each (ref_step (src_key ty) raw_text (Str.split_lines raw_text))
                     (ref_matches ty raw_text)
                     (url_pass ty raw_text (Str.split_lines raw_text)) = Ok st1)
    as [st1 Hrun].
  { pose proof (url_pass_has_url ty raw_text (Str.split_lines raw_text)) as Hu.
    revert Hu. generalize (url_pass ty raw_text (Str.split_lines raw_text)).
    unfold _SOURCE_TYPES in Hty.
    cases_of_list Hty; intros st0 Hst0;
      try (apply ref_loop_total_short; [cbn; lia | done]).
    - apply ref_loop_total_urls; [|done]. intros x. by eexists.
    - apply ref_loop_total_short; [|done].
      change (length (finditer slack_handle raw_text ++ []) <= 1).
      rewrite app_nil_r. etrans; [apply slack_handles_count|done]. }
  unfold scan_type. rewrite Hrun. by eexists.
Qed.

Lemma type_step_total {U : Unicode} raw_text lines acc ty rs :
  scan_type ty raw_text lines = Ok rs ->
  exists acc', type_step raw_text lines acc ty = Ok acc'.
Proof.
  intros Hrs. unfold type_step. rewrite Hrs. cbn [mbind result_bind].
  destruct rs; by eexists.
Qed.

(** X6: a text with at most one hash sign never makes the extractor raise. *)
Theorem extract_sources_returns {U : Unicode} raw_text :
  length (filter (fun c => c = "#"%ch) raw_text) <= 1 ->
  exists gs, extract_sources raw_text = Ok gs.
Proof.
  intros Hhash. unfold extract_sources. cbn zeta.
  assert (Hall : Forall (fun ty => exists rs,
                   scan_type ty raw_text (Str.split_lines raw_text) = Ok rs)
                 _SOURCE_TYPES).
  { apply Forall_forall. intros ty Hty. by apply scan_type_total. }
  revert Hall. generalize _SOURCE_TYPES (@nil source_group).
  induction l as [|ty tys IH]; intros acc Hall; [by eexists|].
  apply Forall_cons in Hall as [[rs Hrs] Hall]. cbn [for_each].
  destruct (type_step_total _ _ acc _ _ Hrs) as [acc' ->].
  cbn [mbind result_bind]. apply IH, Hall.
Qed.

Lemma extract_sources_returns_witness :
  exists gs, extract_sources (lit "# Notes on ZD-7, see (https://github.com/a/b)") = Ok gs.
Proof. apply extract_sources_returns. vm_compute. lia. Defined.

(** ** The context of a reference is plain text *)

Lemma md_punct_char_spec {U : Unicode} c :
  md_punct_char c = bool_decide (c ∈ lit "#*>`_~").
Proof.
  destruct (bool_decide_reflect (c ∈ lit "#*>`_~")) as [Hin|Hnin].
  - vm_compute in Hin. cases_of_list Hin; reflexivity.
  - apply not_true_is_false. intros Hc. apply Hnin. revert Hc.
    unfold md_punct_char, cls, chars.
    cbn [fmap list_fmap list_ascii_of_string cset_has existsb item_has xorb].
    unfold Chars.same. cbn [andb]. norm_chars. rewrite !orb_true_iff, !N.eqb_eq.
    rewrite !elem_of_cons, elem_of_nil. intuition discriminate.
Qed.

(** The pattern of the markdown signs matches exactly at those signs. *)
Lemma md_punct_match_at {U : Unicode} t i :
  match_at md_punct t i =
  match t !! i with
  | Some c => if md_punct_char c then Some (Match i (S i) []) else None
  | None => None
  end.
Proof.
  unfold match_at, md_punct_char.
  cbn [md_punct compile pat_re pat_icase cat foldr matches].
  destruct (t !! i) as [c|]; [|done].
  by destruct (cset_has false (cls (chars "#*>`_~")) c).
Qed.

Lemma slice_to_end (t : str) from a :
  length t <= a -> Str.slice t from a = drop from t.
Proof.
  intros Ha. unfold Str.slice. apply take_ge. rewrite length_drop. lia.
Qed.

Lemma slice_snoc (t : str) from a c :
  from <= a -> t !! a = Some c ->
  Str.slice t from (S a) = Str.slice t from a ++ [c].
Proof.
  intros Hfrom Ha. unfold Str.slice.
  replace (S a - from) with (S (a - from)) by lia.
  apply take_S_r. rewrite lookup_drop. by replace (from + (a - from)) with a by lia.
Qed.

(** Deleting the markdown signs with [re.sub] is filtering them out. *)
Lemma sub_md_punct_from {U : Unicode} t n :
  forall a from next,
  a + n = S (length t) -> next <= a -> from <= a ->
  splice t (fun _ => []) (finditer_in md_punct t (seq a n) next) from =
  Str.slice t from a ++ filter (fun c => md_punct_char c = false) (drop a t).
Proof.
  induction n as [|n IH]; intros a from next Hlen Hnext Hfrom.
  { cbn [seq finditer_in splice]. rewrite slice_to_end by lia.
    rewrite (drop_ge t a) by lia. by rewrite app_nil_r. }
  cbn [seq finditer_in]. replace (a <? next) with false
    by (symmetry; apply Nat.ltb_ge; lia).
  rewrite md_punct_match_at. destruct (t !! a) as [c|] eqn:Hc.
  - rewrite (drop_S _ _ _ Hc). destruct (md_punct_char c) eqn:Hp.
    + cbn [splice m_start m_end]. rewrite IH by lia.
      rewrite filter_cons_False by congruence.
      unfold Str.slice at 2. rewrite Nat.sub_diag. by cbn [take app].
    + rewrite IH by lia. rewrite filter_cons_True by done.
      rewrite (slice_snoc t from a c) by done. by rewrite <- app_assoc.
  - apply lookup_ge_None in Hc. rewrite IH by lia.
    rewrite !slice_to_end by lia.
    by rewrite (drop_ge t (S a)), (drop_ge t a) by lia.
Qed.

Lemma sub_md_punct {U : Unicode} t :
  sub md_punct (fun _ => []) t = filter (fun c => md_punct_char c = false) t.
Proof.
  unfold sub, finditer. rewrite (sub_md_punct_from t _ 0 0 0) by lia.
  unfold Str.slice. by cbn [take drop app].
Qed.

(** What [re.sub] returns is made of the text and of the replacements. *)
Lemma splice_chars t repl ms from c :
  c ∈ splice t repl ms from -> c ∈ t \/ exists mo, c ∈ repl mo.
Proof.
  revert from. induction ms as [|mo ms IH]; intros from; cbn [splice].
  - intros Hc. left. by apply (subseteq_drop from t).
  - intros [Hc|[Hc|Hc]%elem_of_app]%elem_of_app.
    + left. unfold Str.slice in Hc.
      by apply (subseteq_drop from t), (subseteq_take (m_start mo - from)).
    + right. eauto.
    + by apply (IH (m_end mo)).
Qed.

Lemma remove_from_chars old (s : str) k c :
  c ∈ Str.remove_from old s k -> c ∈ s.
Proof.
  revert k. induction s as [|d s IH]; intros k; cbn [Str.remove_from]; [done|].
  destruct k as [|k].
  - destruct (Str.startswith (d :: s) old).
    + intros Hc%IH. by apply elem_of_cons; right.
    + intros [->|Hc%IH]%elem_of_cons; apply elem_of_cons; auto.
  - intros Hc%IH. by apply elem_of_cons; right.
Qed.

Lemma strip_by_chars f (s : str) c : c ∈ Str.strip_by f s -> c ∈ s.
Proof.
  intros Hc. destruct (strip_by_infix f s) as (a & b & Heq). rewrite Heq.
  apply elem_of_app. right. apply elem_of_app. by left.
Qed.

Lemma clean_markdown_plain {U : Unicode} line c :
  c ∈ clean_markdown line -> md_punct_char c = false.
Proof.
  unfold clean_markdown. cbn zeta.
  intros [Hc|[mo Hc]]%splice_chars.
  - apply strip_by_chars in Hc. rewrite sub_md_punct in Hc.
    by apply list_elem_of_filter in Hc as [Hc _].
  - vm_compute in Hc. apply list_elem_of_singleton in Hc as ->. reflexivity.
Qed.

Lemma context_of_line_plain {U : Unicode} needle line c :
  c ∈ context_of_line needle line -> md_punct_char c = false.
Proof.
  assert (Hw : forall d, d ∈ without_needle needle line -> md_punct_char d = false).
  { intros d Hd%strip_by_chars. unfold Str.remove in Hd.
    apply clean_markdown_plain with line.
    destruct needle; [done|]. by apply remove_from_chars in Hd. }
  unfold context_of_line. cbn zeta.
  destruct (150 <? length (without_needle needle line)); [|by apply Hw].
  intros [Hc|Hc]%elem_of_app.
  - by apply Hw, (subseteq_take 147).
  - vm_compute in Hc. cases_of_list Hc; reflexivity.
Qed.

(** The context of a reference of the output is the context of a needle. *)
Lemma output_context {U : Unicode} raw_text gs g r :
  extract_sources raw_text = Ok gs -> g ∈ gs -> r ∈ refs g ->
  exists needle,
    context r = _get_context_for_match (Str.split_lines raw_text) needle raw_text.
Proof.
  intros Hex Hg Hr.
  destruct (group_in_output _ _ _ Hex Hg) as (ty & mu & mb & _ & _ & _ & Htp).
  destruct Htp as [Hrefs _ _ _ _ _ _ _ _]. rewrite Hrefs in Hr.
  apply elem_of_app in Hr as [(m & -> & _)%list_elem_of_fmap
                             |(m & -> & _)%list_elem_of_fmap]; by eexists.
Qed.

(** X7: the context of a reference holds none of the markdown signs
    [#], [*], [>], the backquote, [_] and [~]. *)
Theorem context_without_markdown_signs {U : Unicode} raw_text gs g r c :
  extract_sources raw_text = Ok gs -> g ∈ gs -> r ∈ refs g ->
  c ∈ context r -> c ∉ lit "#*>`_~".
Proof.
  intros Hex Hg Hr Hc.
  destruct (output_context _ _ _ _ Hex Hg Hr) as [needle Hctx].
  rewrite Hctx, get_context_first_line in Hc.
  destruct (first_line_with _ _) as [line|]; [|by apply elem_of_nil in Hc].
  apply context_of_line_plain in Hc. rewrite md_punct_char_spec in Hc.
  by apply bool_decide_eq_false in Hc.
Qed.

Lemma context_without_markdown_signs_witness : "h"%ch ∉ lit "#*>`_~".
Proof.
  apply (context_without_markdown_signs
           (lit "**ask** in `#help` > ~now~")
           [Group "slack" "Slack" "chat"
              [Ref None (lit "#help") (lit "ask in help now")]]
           (Group "slack" "Slack" "chat"
              [Ref None (lit "#help") (lit "ask in help now")])
           (Ref None (lit "#help") (lit "ask in help now"))).
  - vm_compute; reflexivity.
  - apply elem_of_cons; by left.
  - apply elem_of_cons; by left.
  - apply (bool_decide_unpack _). vm_compute. exact I.
Defined.

(** ** The choice of a chat model *)

Lemma first_containing_Some p available m :
  first_containing p available = Some m ->
  m ∈ available /\ Str.contains p m = true /\
  exists before after,
    available = before ++ m :: after /\
    Forall (fun m' => Str.contains p m' = false) before.
Proof.
  induction available as [|m' available IH]; [done|]. cbn [first_containing].
  destruct (Str.contains p m') eqn:Hc.
  - intros [= <-]. split_and!; [left | done |]. by exists [], available.
  - intros (Hm & Hp & before & after & -> & Hb)%IH.
    split_and!; [by right | done |]. exists (m' :: before), after. split; [done|].
    by constructor.
Qed.

Lemma first_containing_None p available :
  first_containing p available = None <->
  Forall (fun m => Str.contains p m = false) available.
Proof.
  induction available as [|m available IH]; cbn [first_containing].
  { split; [constructor | done]. }
  rewrite Forall_cons. destruct (Str.contains p m); [|tauto].
  split; [done | intros [? _]; done].
Qed.

Lemma first_preferred_Some prefs available m :
  first_preferred prefs available = Some m -> m ∈ available.
Proof.
  induction prefs as [|p prefs IH]; [done|]. cbn [first_preferred].
  destruct (first_containing p available) as [m'|] eqn:Hp; [|done].
  intros [= <-]. by apply first_containing_Some in Hp as [? _].
Qed.

Lemma pick_ollama_model_elem cfg available :
  _pick_ollama_model cfg available ∈ available \/
  (available = [] /\ _pick_ollama_model cfg available = []).
Proof.
  unfold _pick_ollama_model.
  destruct (truthy cfg && bool_decide (cfg ∈ available)) eqn:Hexact.
  { left. apply andb_true_iff in Hexact as [_ H]. by apply bool_decide_eq_true in H. }
  destruct (if truthy cfg then first_containing cfg available else None)
    as [m|] eqn:Hpartial.
  { left. destruct (truthy cfg); [|done].
    by apply first_containing_Some in Hpartial as [? _]. }
  destruct (first_preferred preferred available) as [m|] eqn:Hpref.
  { left. by apply first_preferred_Some in Hpref. }
  destruct available as [|m ms]; [by right | left; left].
Qed.

(** X8: the model picked for Ollama is one of the available models; only
    with no model available is it the empty string. *)
Theorem pick_ollama_model_available cfg available :
  _pick_ollama_model cfg available ∈ available \/
  (available = [] /\ _pick_ollama_model cfg available = []).
Proof. apply pick_ollama_model_elem. Qed.

(** X9: a configured model name is honoured: when it is non-empty and some
    available model contains it, the pick contains it, and it is the
    configured name itself when that is available. *)
Theorem pick_ollama_model_configured cfg available :
  truthy cfg = true ->
  Exists (fun m => Str.contains cfg m = true) available ->
  Str.contains cfg (_pick_ollama_model cfg available) = true /\
  (cfg ∈ available -> _pick_ollama_model cfg available = cfg).
Proof.
  intros Hcfg Hsome. unfold _pick_ollama_model. rewrite Hcfg. cbn [andb].
  case_bool_decide as Hin.
  { split; [apply contains_refl | done]. }
  split; [|done].
  destruct (first_containing cfg available) as [m|] eqn:Hm.
  - by apply first_containing_Some in Hm as (_ & ? & _).
  - apply first_containing_None in Hm. apply Exists_exists in Hsome as (m & Hm' & Hc).
    rewrite Forall_forall in Hm. rewrite (Hm m Hm') in Hc. done.
Qed.

Lemma pick_ollama_model_configured_witness :
  Str.contains (lit "llama3.1")
    (_pick_ollama_model (lit "llama3.1") [lit "qwen2.5:7b"; lit "llama3.1:latest"])
  = true.
Proof.
  apply pick_ollama_model_configured.
  - reflexivity.
  - apply Exists_cons; right. apply Exists_cons; left. vm_compute; reflexivity.
Defined.

(** X10: without a configured match the preference list decides: the pick
    is the first available model that contains the first preferred name
    contained in any available model. *)
Theorem pick_ollama_model_preference cfg available before p after m :
  Forall (fun m' => Str.contains cfg m' = false) available \/ cfg = [] ->
  preferred = before ++ p :: after ->
  Forall (fun q => Forall (fun m' => Str.contains q m' = false) available) before ->
  first_containing p available = Some m ->
  _pick_ollama_model cfg available = m.
Proof.
  intros Hcfg Hpref Hbefore Hp. unfold _pick_ollama_model.
  assert (truthy cfg && bool_decide (cfg ∈ available) = false) as ->.
  { destruct Hcfg as [Hno| ->]; [|done]. apply andb_false_iff. right.
    apply bool_decide_eq_false. intros Hin. rewrite Forall_forall in Hno.
    specialize (Hno cfg Hin). by rewrite contains_refl in Hno. }
  assert ((if truthy cfg then first_containing cfg available else None) = None) as ->.
  { destruct Hcfg as [Hno| ->]; [|done]. destruct (truthy cfg); [|done].
    by apply first_containing_None. }
  rewrite Hpref. clear Hpref Hcfg.
  induction Hbefore as [|q before Hq _ IH]; cbn [app first_preferred].
  - by rewrite Hp.
  - apply first_containing_None in Hq. by rewrite Hq.
Qed.

Lemma pick_ollama_model_preference_witness :
  _pick_ollama_model [] [lit "phi3:mini"; lit "llama3.1:70b"; lit "llama3:8b"] =
  lit "llama3.1:70b".
Proof.
  apply (pick_ollama_model_preference _ _ (take 4 preferred) (lit "llama3.1")
           (drop 5 preferred)).
  - by right.
  - reflexivity.
  - apply (bool_decide_unpack _). vm_compute. exact I.
  - vm_compute; reflexivity.
Defined.

(** X11: a provider that is reported available has a model name unless it
    is gemini with an empty [GEMINI_MODEL]; tool calling is reported for
    gemini alone; an ollama model is one of the models Ollama listed; and
    the API keys take precedence over Ollama. *)
Theorem chat_provider_facts env ollama :
  let info := Chat.get_chat_provider env ollama in
  (Chat.has_tools info = true <-> Chat.provider info = "gemini"%string) /\
  (Chat.available info = false -> Chat.model info = [] /\ Chat.has_tools info = false) /\
  (Chat.available info = true -> Chat.provider info <> "gemini"%string ->
   truthy (Chat.model info) = true) /\
  (Chat.available info = true -> Chat.provider info = "ollama"%string ->
   Chat.model info ∈ Chat.models ollama /\
   Chat.all_models info = Some (Chat.models ollama)) /\
  (truthy (Chat.ANTHROPIC_API_KEY env) = true ->
   Chat.provider info = "anthropic"%string) /\
  (truthy (Chat.ANTHROPIC_API_KEY env) = false ->
   truthy (Chat.GEMINI_API_KEY env) = true ->
   Chat.provider info = "gemini"%string /\ Chat.model info = Chat.GEMINI_MODEL env).
Proof.
  cbn zeta. unfold Chat.get_chat_provider.
  destruct (truthy (Chat.ANTHROPIC_API_KEY env)).
  { cbn. split_and!; try done. }
  destruct (truthy (Chat.GEMINI_API_KEY env)).
  { cbn. split_and!; try done. }
  destruct (Chat.running ollama && bool_decide (Chat.models ollama <> [])) eqn:Hrun.
  2:{ cbn. split_and!; try done. }
  cbn zeta.
  destruct (truthy (_pick_ollama_model _ _)) eqn:Hpick.
  2:{ cbn. split_and!; try done. }
  cbn. split_and!; try done. intros _ _. split; [|done].
  destruct (pick_ollama_model_elem (Chat.OLLAMA_MODEL env) (Chat.models ollama))
    as [?|[_ Hempty]]; [done|]. by rewrite Hempty in Hpick.
Qed.

(** X12: with no API key, Ollama running and listing models none of which
    has an empty name, the ollama provider is available. *)
Theorem chat_provider_ollama env ollama :
  truthy (Chat.ANTHROPIC_API_KEY env) = false ->
  truthy (Chat.GEMINI_API_KEY env) = false ->
  Chat.running ollama = true ->
  Chat.models ollama <> [] ->
  Forall (fun m => truthy m = true) (Chat.models ollama) ->
  Chat.provider (Chat.get_chat_provider env ollama) = "ollama"%string /\
  Chat.available (Chat.get_chat_provider env ollama) = true.
Proof.
  intros Ha Hg Hrun Hmodels Hnames. unfold Chat.get_chat_provider.
  rewrite Ha, Hg, Hrun, bool_decide_eq_true_2 by done. cbn [andb]. cbn zeta.
  destruct (pick_ollama_model_elem (Chat.OLLAMA_MODEL env) (Chat.models ollama))
    as [Hin|[? _]]; [|done].
  rewrite Forall_forall in Hnames. by rewrite (Hnames _ Hin).
Qed.

Lemma chat_provider_ollama_witness :
  Chat.available
    (Chat.get_chat_provider (Chat.Settings [] [] (lit "gemini-2.0-flash") [])
                            (Chat.Ollama true [lit "mistral:latest"])) = true.
Proof.
  apply chat_provider_ollama; try reflexivity.
  - discriminate.
  - by repeat constructor.
Defined.

Lemma chat_provider_facts_witness :
  lit "mistral:latest" ∈ [lit "phi3:mini"; lit "mistral:latest"].
Proof.
  destruct (chat_provider_facts
              (Chat.Settings [] [] (lit "gemini-2.0-flash") (lit "mistral"))
              (Chat.Ollama true [lit "phi3:mini"; lit "mistral:latest"]))
    as (_ & _ & _ & Hollama & _).
  by destruct Hollama.
Defined.

(** ** Previous and next investigation *)

Lemma index_of_lookup `{EqDecision A} (key : A) all_keys :
  key ∈ all_keys -> all_keys !! index_of key all_keys = Some key.
Proof.
  induction all_keys as [|k all_keys IH]; [by intros ?%elem_of_nil|].
  cbn [index_of]. case_bool_decide as Hk; [by subst|].
  intros [->|Hin]%elem_of_cons; [done|]. by apply IH.
Qed.

Lemma index_of_unique `{EqDecision A} (key : A) all_keys i :
  NoDup all_keys -> all_keys !! i = Some key -> index_of key all_keys = i.
Proof.
  intros Hnd Hi.
  assert (Hin : key ∈ all_keys) by by eapply list_elem_of_lookup_2.
  by apply (NoDup_lookup _ _ _ _ Hnd (index_of_lookup _ _ Hin)).
Qed.

(** X13: among distinct investigation keys "next" and "previous" undo each
    other: [k'] is the key after [k] exactly when [k] is the key before
    [k']. *)
Theorem navigation_round_trip all_keys k k' :
  NoDup all_keys ->
  next_key all_keys k = Some k' <-> prev_key all_keys k' = Some k.
Proof.
  intros Hnd. unfold next_key, prev_key, current_idx. cbn zeta. split.
  - case_bool_decide as Hk; [|done].
    destruct (_ && _) eqn:Hcond; [|done].
    replace (Z.to_nat (Z.of_nat (index_of k all_keys) + 1))
      with (S (index_of k all_keys)) by lia.
    intros Hnext.
    assert (Hk' : k' ∈ all_keys) by by eapply list_elem_of_lookup_2.
    rewrite bool_decide_eq_true_2 by done.
    rewrite (index_of_unique _ _ _ Hnd Hnext).
    replace (0 <? Z.of_nat (S (index_of k all_keys)))%Z with true
      by (symmetry; apply Z.ltb_lt; lia).
    replace (Z.to_nat (Z.of_nat (S (index_of k all_keys)) - 1))
      with (index_of k all_keys) by lia.
    by apply index_of_lookup.
  - case_bool_decide as Hk'; [|done].
    destruct (0 <? _)%Z eqn:Hpos; [|done]. apply Z.ltb_lt in Hpos.
    intros Hprev.
    assert (Hk : k ∈ all_keys) by by eapply list_elem_of_lookup_2.
    rewrite bool_decide_eq_true_2 by done.
    rewrite (index_of_unique _ _ _ Hnd Hprev).
    pose proof (lookup_lt_Some _ _ _ (index_of_lookup _ _ Hk')) as Hlt.
    replace (_ && _) with true
      by (symmetry; apply andb_true_iff;
          split; [apply Z.leb_le | apply Z.ltb_lt]; lia).
    replace (Z.to_nat (Z.of_nat (Z.to_nat (Z.of_nat (index_of k' all_keys) - 1)) + 1))
      with (index_of k' all_keys) by lia.
    by apply index_of_lookup.
Qed.

Lemma navigation_round_trip_witness :
  prev_key [lit "SCRS-3"; lit "SCRS-2"; lit "SCRS-1"] (lit "SCRS-2") =
  Some (lit "SCRS-3").
Proof.
  apply navigation_round_trip.
  - apply (bool_decide_unpack _). vm_compute. exact I.
  - vm_compute; reflexivity.
Defined.

(** ** Titles *)

Section FirstMatch.
Context {U : Unicode}.
Context (icase : bool) (t : str).

(** The first success of the matcher, piece by piece. *)
Lemma first_eps i cs : starts_with (i, cs) (matches icase t Eps i cs).
Proof. by exists []. Qed.

Lemma first_one s i cs c :
  t !! i = Some c -> cset_has icase s c = true ->
  starts_with (S i, cs) (matches icase t (One s) i cs).
Proof. intros Hc Hs. cbn [matches]. rewrite Hc, Hs. by exists []. Qed.

Lemma first_star s i cs :
  starts_with (i + run icase s (drop i t), cs) (matches icase t (Star s) i cs).
Proof.
  cbn [matches]. rewrite seq_S, reverse_app. cbn [reverse app fmap list_fmap].
  rewrite Nat.add_0_l. by eexists.
Qed.

Lemma first_seq a b i cs j cs' y :
  starts_with (j, cs') (matches icase t a i cs) ->
  starts_with y (matches icase t b j cs') ->
  starts_with y (matches icase t (Seq a b) i cs).
Proof.
  intros [tla Ha] [tlb Hb]. cbn [matches]. rewrite Ha. cbn [mbind list_bind].
  rewrite Hb. by eexists.
Qed.

Lemma first_grp n a i cs j cs' :
  starts_with (j, cs') (matches icase t a i cs) ->
  starts_with (j, (n, (i, j)) :: cs') (matches icase t (Grp n a) i cs).
Proof. intros [tl Ha]. cbn [matches]. rewrite Ha. by eexists. Qed.

End FirstMatch.

Lemma match_at_first {U : Unicode} p t i j cs :
  starts_with (j, cs) (matches (pat_icase p) t (pat_re p) i []) ->
  match_at p t i = Some (Match i j cs).
Proof. intros [tl H]. unfold match_at. by rewrite H. Qed.

Lemma run_prefix {U : Unicode} icase s (a rest : str) :
  Forall (fun c => cset_has icase s c = true) a ->
  match rest with [] => True | c :: _ => cset_has icase s c = false end ->
  run icase s (a ++ rest) = length a.
Proof.
  intros Ha Hrest. induction Ha as [|c a Hc _ IH]; cbn [app run length].
  - destruct rest as [|c rest]; [done|]. cbn [run]. by rewrite Hrest.
  - by rewrite Hc, IH.
Qed.

(** The match of a heading line: hash, a blank, more blanks [a], then the
    text [c :: h'] up to the end of the line. *)
Lemma heading_match {U : Unicode} (a h' rest : str) c :
  Forall (fun x => Chars.is_space x = true) a ->
  Chars.is_space c = false ->
  Forall (fun x => x <> newline) h' ->
  match rest with [] => True | x :: _ => x = newline end ->
  match_at heading (lit "# " ++ a ++ c :: h' ++ rest) 0 =
  Some (Match 0 (3 + length a + length h')
              [(1, (2 + length a, 3 + length a + length h'))]).
Proof.
  intros Ha Hc Hh' Hrest. apply match_at_first. norm_chars.
  set (t := ["#"; " "]%ch ++ a ++ c :: h' ++ rest).
  assert (Hnl : forall x, cset_has false CDot x = true <-> x <> newline).
  { intros x. cbn [cset_has]. rewrite negb_true_iff.
    destruct (N.eqb_spec x newline); split; congruence. }
  assert (Hsp : forall x, cset_has false (cls [ISpace]) x = Chars.is_space x).
  { intros x. cbn. by rewrite orb_false_r. }
  assert (Hdrop : drop (2 + length a) t = c :: h' ++ rest).
  { subst t. cbn [app drop Nat.add]. by rewrite drop_app_length. }
  assert (Hc_nl : c <> newline) by (intros ->; done).
  cbn [heading compile pat_re pat_icase cat foldr txt list_ascii_of_string plus].
  (* # *)
  eapply first_seq.
  { eapply first_seq; [by apply (first_one _ _ _ _ _ "#"%ch) | apply first_eps]. }
  (* \s+ *)
  eapply first_seq.
  { eapply first_seq; [by apply (first_one _ _ _ _ _ " "%ch) | apply first_star]. }
  replace (2 + run false (cls [ISpace]) (drop 2 t)) with (2 + length a).
  2:{ f_equal. subst t. cbn [app drop]. symmetry. apply run_prefix.
      - eapply Forall_impl; [exact Ha|]. intros x Hx. by rewrite Hsp.
      - by rewrite Hsp. }
  (* (.+) *)
  eapply first_seq; [|apply first_eps].
  replace (3 + length a + length h')
    with (S (2 + length a) +
          run false CDot (drop (S (2 + length a)) t)).
  2:{ replace (drop (S (2 + length a)) t) with (h' ++ rest).
      2:{ replace (S (2 + length a)) with ((2 + length a) + 1) by lia.
          by rewrite <- drop_drop, Hdrop. }
      rewrite run_prefix; [lia | |].
      - eapply Forall_impl; [exact Hh'|]. intros x Hx. by apply Hnl.
      - destruct rest as [|x rest]; [done|]. subst x. reflexivity. }
  apply first_grp. eapply first_seq; [|apply first_star].
  apply (first_one _ _ _ _ _ c); [|by apply Hnl].
  replace (2 + length a) with ((2 + length a) + 0) by lia.
  by rewrite <- lookup_drop, Hdrop.
Qed.

Lemma cut_line_end (l : str) :
  Forall (fun x => x <> newline) l -> cut_line l = (l, None).
Proof.
  induction 1 as [|c l Hc _ IH]; [done|]. cbn [cut_line].
  destruct (N.eqb_spec c newline); [done|]. by rewrite IH.
Qed.

Lemma cut_line_newline (l r : str) :
  Forall (fun x => x <> newline) l ->
  cut_line (l ++ newline :: r) = (l, Some r).
Proof.
  induction 1 as [|c l Hc _ IH]; [done|]. cbn [app cut_line].
  destruct (N.eqb_spec c newline); [done|]. by rewrite IH.
Qed.

Lemma split_lines_first (l rest : str) :
  Forall (fun x => x <> newline) l ->
  match rest with [] => True | x :: _ => x = newline end ->
  hd [] (Str.split_lines (l ++ rest)) = l.
Proof.
  intros Hl Hrest. induction Hl as [|c l Hc _ IH]; cbn [app].
  - destruct rest as [|x rest]; [done|]. subst x. reflexivity.
  - cbn [Str.split_lines]. destruct (N.eqb_spec c newline); [done|].
    destruct (Str.split_lines (l ++ rest)) as [|l0 ls]; cbn [hd] in *; by subst.
Qed.

Lemma heading_title_line {U : Unicode} (h rest : str) :
  Forall (fun x => x <> newline) h ->
  Exists (fun x => Chars.is_space x = false) h ->
  match rest with [] => True | x :: _ => x = newline end ->
  heading_title (lit "# " ++ h ++ rest) = Some (Str.strip h).
Proof.
  intros Hh Hex Hrest.
  destruct (lstrip_by_split Chars.is_space h) as (a & Hsplit & Ha & Hhead).
  destruct (Str.lstrip_by Chars.is_space h) as [|c h'] eqn:Hl.
  { rewrite app_nil_r in Hsplit. subst a. apply Exists_exists in Hex as (x & Hx & Hns).
    rewrite Forall_forall in Ha. by rewrite (Ha x Hx) in Hns. }
  assert (Hh' : Forall (fun x => x <> newline) h').
  { rewrite Hsplit in Hh. apply Forall_app in Hh as [_ Hh].
    by apply Forall_cons in Hh as [_ Hh]. }
  assert (Hstrip : Str.strip h = Str.rstrip_by Chars.is_space (c :: h')).
  { unfold Str.strip, Str.strip_by. by rewrite Hl. }
  rewrite Hstrip. clear Hstrip Hl Hex Hh. subst h.
  unfold heading_title. rewrite <- !app_assoc. cbn [app].
  change ("#"%ch :: " "%ch :: a ++ c :: h' ++ rest)
    with (lit "# " ++ a ++ c :: h' ++ rest).
  rewrite heading_match by done. cbn [fmap option_fmap option_map]. f_equal.
  unfold group1, group. cbn [m_caps assoc Nat.eqb fmap option_fmap option_map default].
  unfold Str.slice.
  replace (3 + length a + length h' - (2 + length a)) with (S (length h')) by lia.
  replace (drop (2 + length a) (lit "# " ++ a ++ c :: h' ++ rest))
    with (c :: h' ++ rest)
    by (norm_chars; cbn [app drop Nat.add]; by rewrite drop_app_length).
  cbn [take id]. rewrite take_app_length.
  unfold Str.strip, Str.strip_by. cbn [Str.lstrip_by]. by rewrite Hhead.
Qed.

Lemma archive_title_line {U : Unicode} (h rest stem : str) :
  Forall (fun x => x <> newline) h ->
  Exists (fun x => Chars.is_space x = false) h ->
  match rest with [] => True | x :: _ => x = newline end ->
  length h + 2 <= 2000 ->
  archive_title stem (Some (lit "# " ++ h ++ rest)) = Str.strip h.
Proof.
  intros Hh Hex Hrest Hlen.
  assert (Hline : Forall (fun x => x <> newline) (lit "# " ++ h)).
  { apply Forall_app. split; [|done]. by repeat constructor. }
  pose proof (heading_title_line h [] Hh Hex I) as Hfirst.
  rewrite app_nil_r in Hfirst.
  unfold archive_title, content_preview.
  rewrite app_assoc, take_app_ge by (rewrite length_app; cbn; lia).
  destruct (take (2000 - length (lit "# " ++ h)) rest) as [|x rest'] eqn:Hcut.
  - rewrite app_nil_r. cbn [split_max]. rewrite (cut_line_end _ Hline).
    cbn [first_heading]. by rewrite Hfirst.
  - assert (x = newline) as ->.
    { destruct rest as [|y rest]; [by rewrite take_nil in Hcut|].
      destruct (2000 - _) as [|k]; [done|]. cbn [take] in Hcut.
      injection Hcut as <- _. done. }
    cbn [split_max]. rewrite (cut_line_newline _ _ Hline).
    cbn [first_heading]. by rewrite Hfirst.
Qed.

(** X14: a file that starts with a line "# h", where [h] has a visible
    character, gets the title [h] without its surrounding blanks: as the
    title of a page, of an investigation (from its notes) and of an archived
    ticket (when the line lies within the first 2000 characters). *)
Theorem heading_line_gives_title {U : Unicode} (h rest stem : str) :
  Forall (fun x => x <> newline) h ->
  Exists (fun x => Chars.is_space x = false) h ->
  match rest with [] => True | x :: _ => x = newline end ->
  file_title stem (lit "# " ++ h ++ rest) = Str.strip h /\
  investigation_title stem (Some (lit "# " ++ h ++ rest)) = Str.strip h /\
  (length h + 2 <= 2000 ->
   archive_title stem (Some (lit "# " ++ h ++ rest)) = Str.strip h).
Proof.
  intros Hh Hex Hrest.
  assert (Hline : Forall (fun x => x <> newline) (lit "# " ++ h)).
  { apply Forall_app. split; [|done]. by repeat constructor. }
  pose proof (heading_title_line h [] Hh Hex I) as Hfirst.
  rewrite app_nil_r in Hfirst.
  split_and!.
  - unfold file_title. by rewrite heading_title_line.
  - unfold investigation_title. cbn zeta. rewrite app_assoc.
    rewrite (split_lines_first _ _ Hline Hrest). by rewrite Hfirst.
  - intros Hlen. by apply archive_title_line.
Qed.

Lemma heading_line_gives_title_witness :
  archive_title (lit "SCRS-7")
    (Some (lit "#  SCRS-7: CSPM finding missing " ++ lit "
## Metadata")) = lit "SCRS-7: CSPM finding missing".
Proof.
  apply (heading_line_gives_title (lit " SCRS-7: CSPM finding missing ") (lit "
## Metadata") (lit "SCRS-7")).
  - apply (bool_decide_unpack _). vm_compute. exact I.
  - apply Exists_cons; right. apply Exists_cons; left. reflexivity.
  - reflexivity.
  - vm_compute. lia.
Defined.

(** ** Searching the markdown files *)

(** *** Lower case and lines *)

Lemma split_lines_no_newline (l : str) :
  newline ∉ l -> Str.split_lines l = [l].
Proof.
  induction l as [|c l IH]; [done|]. intros [Hc Hl]%not_elem_of_cons.
  cbn [Str.split_lines]. destruct (N.eqb_spec c newline); [done|].
  by rewrite (IH Hl).
Qed.

Lemma split_lines_newline (l r : str) :
  newline ∉ l -> Str.split_lines (l ++ newline :: r) = l :: Str.split_lines r.
Proof.
  induction l as [|c l IH]; [done|]. intros [Hc Hl]%not_elem_of_cons.
  cbn [app Str.split_lines]. destruct (N.eqb_spec c newline); [done|].
  by rewrite (IH Hl).
Qed.

Lemma first_newline (s : str) :
  newline ∉ s \/ exists l r, s = l ++ newline :: r /\ newline ∉ l.
Proof.
  induction s as [|c s IH]; [left; apply not_elem_of_nil|].
  destruct (decide (c = newline)) as [->|Hc].
  { right. exists [], s. split; [done|apply not_elem_of_nil]. }
  destruct IH as [Hs|(l & r & -> & Hl)].
  - left. by apply not_elem_of_cons.
  - right. exists (c :: l), r. split; [done|]. by apply not_elem_of_cons.
Qed.

Section StrLower.
Context {U : Unicode}.

(** The search for a cased character stops at a newline. *)
Lemma cased_next_newline (x y : str) :
  cased_next (x ++ newline :: y) = cased_next x.
Proof.
  induction x as [|c x IH]; [done|]. cbn [app cased_next].
  by destruct (is_case_ignorable c).
Qed.

Lemma lower_char_before (b b' : str) c (a : str) :
  lower_char (b ++ newline :: b') c a = lower_char b c a.
Proof. unfold lower_char. by rewrite cased_next_newline. Qed.

Lemma lower_char_after (b : str) c (a a' : str) :
  lower_char b c (a ++ newline :: a') = lower_char b c a.
Proof. unfold lower_char. by rewrite cased_next_newline. Qed.

Lemma lower_char_line (b : str) c (a : str) :
  c <> newline -> newline ∉ lower_char b c a.
Proof.
  intros Hc. unfold lower_char. destruct (c =? 931)%N.
  { destruct (_ && _); by intros [=]%list_elem_of_singleton. }
  destruct (Chars.is_ascii c) eqn:Hascii.
  - intros Hl%list_elem_of_singleton. symmetry in Hl.
    by apply (proj1 (newline_lower c)) in Hl.
  - apply uni_lower_line. revert Hascii. chars.
Qed.

Lemma lower_from_before (b b' s : str) :
  lower_from (b ++ newline :: b') s = lower_from b s.
Proof.
  revert b. induction s as [|c s IH]; intros b; [done|]. cbn [lower_from].
  rewrite lower_char_before. f_equal. apply (IH (c :: b)).
Qed.

(** Lower case is taken line by line. *)
Lemma lower_from_line (b l r : str) :
  lower_from b (l ++ newline :: r) = lower_from b l ++ newline :: lower_str r.
Proof.
  revert b. induction l as [|c l IH]; intros b; cbn [app lower_from].
  - change (lower_char b newline r) with [newline]. cbn [app]. f_equal.
    apply (lower_from_before [] b).
  - rewrite lower_char_after, IH. by rewrite <- app_assoc.
Qed.

Lemma lower_from_no_newline (b s : str) :
  newline ∉ s -> newline ∉ lower_from b s.
Proof.
  revert b. induction s as [|c s IH]; intros b; [done|].
  intros [Hc Hs]%not_elem_of_cons. cbn [lower_from].
  intros [Hin|Hin]%elem_of_app.
  - by apply lower_char_line in Hin.
  - by apply IH in Hin.
Qed.

Lemma lower_split_lines (s : str) :
  Str.split_lines (lower_str s) = lower_str <$> Str.split_lines s.
Proof.
  remember (length s) as k eqn:Hk. revert s Hk.
  induction k as [k IH] using lt_wf_ind. intros s ->.
  destruct (first_newline s) as [Hs|(l & r & -> & Hl)].
  - rewrite (split_lines_no_newline s Hs). cbn [fmap list_fmap].
    apply split_lines_no_newline. by apply lower_from_no_newline.
  - unfold lower_str at 1. rewrite lower_from_line, !split_lines_newline;
      [|done|by apply lower_from_no_newline].
    cbn [fmap list_fmap]. f_equal.
    apply (IH (length r)); [rewrite length_app; cbn [length]; lia|done].
Qed.

End StrLower.

Section Snippets2.
Context {U : Unicode}.
Context (query_lower : str) (lines : list str).

Lemma snippet_loop_bounds rest i snippets :
  length snippets <= 1 ->
  length snippets <= length (snippet_loop query_lower lines rest i snippets) <= 2.
Proof.
  revert i snippets. induction rest as [|line rest IH]; intros i snippets Hlen;
    cbn [snippet_loop]; [lia|].
  destruct (Str.contains query_lower (lower_str line)); [|by apply IH].
  cbn zeta. rewrite length_app. cbn [length].
  destruct (2 <=? length snippets + 1) eqn:Hfull.
  - rewrite length_app. cbn [length]. lia.
  - apply Nat.leb_gt in Hfull.
    pose proof (IH (S i) (snippets ++ [Str.strip
      (join [newline] (take (length lines `min` (i + 2) - (i - 1))
                               (drop (i - 1) lines)))])) as H.
    rewrite length_app in H. cbn [length] in H. lia.
Qed.

Lemma snippet_loop_nonempty rest i snippets :
  length snippets <= 1 ->
  Exists (fun line => Str.contains query_lower (lower_str line) = true) rest ->
  1 <= length (snippet_loop query_lower lines rest i snippets).
Proof.
  intros Hlen Hex. revert i snippets Hlen.
  induction Hex as [line rest Hline|line rest _ IH]; intros i snippets Hlen;
    cbn [snippet_loop].
  - rewrite Hline. cbn zeta.
    set (snippets' := snippets ++ _).
    assert (1 <= length snippets' <= 2)
      by (subst snippets'; rewrite length_app; cbn [length]; lia).
    destruct (2 <=? length snippets') eqn:Hfull; [lia|].
    apply Nat.leb_gt in Hfull.
    pose proof (snippet_loop_bounds rest (S i) snippets'). lia.
  - destruct (Str.contains query_lower (lower_str line)); [|by apply IH].
    cbn zeta. set (snippets' := snippets ++ _).
    assert (1 <= length snippets' <= 2)
      by (subst snippets'; rewrite length_app; cbn [length]; lia).
    destruct (2 <=? length snippets') eqn:Hfull; [lia|].
    apply Nat.leb_gt in Hfull.
    pose proof (snippet_loop_bounds rest (S i) snippets'). lia.
Qed.

End Snippets2.

(** X15: a file shows at most two snippets, and at least one when it
    matches a query that has no newline. *)
Theorem snippets_one_or_two {U : Unicode} query content :
  length (find_snippets (lower_str query) content) <= 2 /\
  (newline ∉ query ->
   Str.contains (lower_str query) (lower_str content) = true ->
   1 <= length (find_snippets (lower_str query) content)).
Proof.
  unfold find_snippets. cbn zeta. split.
  - apply snippet_loop_bounds. cbn. lia.
  - intros Hq Hc. apply snippet_loop_nonempty; [cbn; lia|].
    assert (Hq' : newline ∉ lower_str query) by by apply lower_from_no_newline.
    pose proof (contains_in_some_line _ _ Hq' Hc) as Hex.
    rewrite lower_split_lines in Hex. by apply Exists_fmap in Hex.
Qed.

Lemma snippets_one_or_two_witness :
  1 <= length (find_snippets (lower_str (lit "CSPM")) (lit "# Notes
the cspm rule
is noisy")).
Proof.
  apply snippets_one_or_two.
  - apply (bool_decide_unpack _). vm_compute. exact I.
  - vm_compute; reflexivity.
Defined.

Section SearchLoops.
Context {U : Unicode}.
Context (query_lower : str) (max_results : Z).

(** The number of results at which [search_files] returns from its loop:
    the test comes after an [append], so one result is always taken. *)
Let cap : nat := Z.to_nat (Z.max max_results 1).

Lemma files_loop_spec files results :
  length results < cap ->
  files_loop query_lower max_results files results =
    let all := results ++ omap (hit_of query_lower) files in
    if decide (cap <= length all) then inl (take cap all) else inr all.
Proof.
  revert results. induction files as [|f files IH]; intros results Hlen; cbn zeta.
  - cbn [omap list_omap files_loop]. rewrite app_nil_r.
    destruct (decide _); [lia|done].
  - cbn [omap list_omap files_loop]. fold (omap (hit_of query_lower) files).
    destruct (hit_of query_lower f) as [h|]; [|by apply IH].
    cbn zeta.
    replace (results ++ h :: omap (hit_of query_lower) files)
      with ((results ++ [h]) ++ omap (hit_of query_lower) files)
      by (by rewrite <- (assoc_L (++))).
    destruct (Z.leb_spec max_results (Z.of_nat (length (results ++ [h]))))
      as [Hfull|Hfull]; rewrite length_app in Hfull; cbn [length] in Hfull.
    + assert (length (results ++ [h]) = cap)
        by (rewrite length_app; cbn [length]; subst cap; lia).
      rewrite decide_True by (rewrite length_app; lia).
      by rewrite take_app_length'.
    + apply IH. rewrite length_app. cbn [length]. subst cap. lia.
Qed.

Lemma dirs_loop_spec search_dirs results :
  length results < cap ->
  dirs_loop query_lower max_results search_dirs results =
    let all := results ++ omap (hit_of query_lower) (walked search_dirs) in
    if decide (cap <= length all) then inl (take cap all) else inr all.
Proof.
  revert results.
  induction search_dirs as [|[files|] dirs IH]; intros results Hlen; cbn zeta.
  - cbn. rewrite app_nil_r. destruct (decide _); [lia|done].
  - cbn [dirs_loop]. rewrite files_loop_spec by done. cbn zeta.
    replace (walked (Some files :: dirs)) with (files ++ walked dirs) by done.
    rewrite omap_app, (assoc_L (++)).
    destruct (decide (cap <= length (results ++ omap (hit_of query_lower) files)))
      as [Hfull|Hfull].
    + rewrite decide_True by (rewrite length_app; lia).
      f_equal. symmetry. by apply take_app_le.
    + apply IH. lia.
  - cbn [dirs_loop]. by apply IH.
Qed.

End SearchLoops.

Section SortBy.
Context {A K : Type} (lt : K -> K -> bool) (key : A -> K).
Hypothesis lt_asym : forall a b, lt a b = true -> lt b a = false.
Hypothesis lt_trans : forall a b c, lt a b = false -> lt b c = false -> lt a c = false.

Lemma sort_insert_perm reverse x l : sort_insert lt key reverse x l ≡ₚ x :: l.
Proof.
  induction l as [|y l IH]; cbn [sort_insert]; [done|].
  destruct (if reverse then _ else _); [|done]. by rewrite IH, Permutation_swap.
Qed.

Lemma sort_by_perm reverse l : sort_by lt key reverse l ≡ₚ l.
Proof.
  induction l as [|x l IH]; [done|].
  cbn [sort_by foldr]. fold (sort_by lt key reverse l).
  by rewrite sort_insert_perm, IH.
Qed.

Lemma sort_insert_sorted reverse x l :
  StronglySorted (in_order lt key reverse) l ->
  StronglySorted (in_order lt key reverse) (sort_insert lt key reverse x l).
Proof using Type*.
  induction 1 as [|y l Hl IH Hy]; cbn [sort_insert].
  - by repeat constructor.
  - destruct (if reverse then _ else _) eqn:Hlt.
    + constructor; [done|]. rewrite sort_insert_perm.
      constructor; [|done]. unfold in_order. destruct reverse; by apply lt_asym.
    + constructor; [by constructor|]. constructor; [by destruct reverse|].
      eapply Forall_impl; [exact Hy|]. unfold in_order. intros z Hz.
      destruct reverse; eauto.
Qed.

Lemma sort_by_sorted reverse l :
  StronglySorted (in_order lt key reverse) (sort_by lt key reverse l).
Proof using Type*.
  induction l as [|x l IH]; [constructor|].
  cbn [sort_by foldr]. by apply sort_insert_sorted.
Qed.

End SortBy.

Lemma strongly_sorted_impl {A} (R1 R2 : relation A) l :
  (forall a b, R1 a b -> R2 a b) -> StronglySorted R1 l -> StronglySorted R2 l.
Proof.
  intros HR. induction 1 as [|x l _ IH Hx]; constructor; [done|].
  eapply Forall_impl; [exact Hx|]. eauto.
Qed.

Lemma strongly_sorted_sublist {A} (R : relation A) l1 l2 :
  l1 `sublist_of` l2 -> StronglySorted R l2 -> StronglySorted R l1.
Proof.
  intros Hsub Hs. revert l1 Hsub.
  induction Hs as [|x l2 _ IH Hx]; intros l1 Hsub.
  - apply sublist_nil_r in Hsub as ->. constructor.
  - apply sublist_cons_r in Hsub as [Hsub|(l1' & -> & Hsub)]; [by apply IH|].
    constructor; [by apply IH|]. rewrite Forall_forall in Hx.
    apply Forall_forall. intros z Hz. by eapply Hx, elem_of_sublist.
Qed.

Lemma sort_by_newest_first {A} (key : A -> Z) l :
  StronglySorted (fun a b => (key b <= key a)%Z) (sort_by Z.ltb key true l).
Proof.
  eapply strongly_sorted_impl; [|apply (sort_by_sorted Z.ltb key)].
  - cbn. intros a b Hab. lia.
  - intros a b. lia.
  - intros a b c. lia.
Qed.

Lemma search_files_spec {U : Unicode} query max_results search_dirs :
  let hits := all_hits query search_dirs in
  let results := search_files query max_results search_dirs in
  ((Z.of_nat (length hits) < max_results)%Z ->
   results ≡ₚ hits /\
   StronglySorted (fun a b => (hit_modified b <= hit_modified a)%Z) results) /\
  ((max_results <= Z.of_nat (length hits))%Z ->
   results = take (Z.to_nat (Z.max max_results 1)) hits).
Proof.
  cbn zeta. unfold search_files, all_hits. cbn zeta.
  rewrite dirs_loop_spec by (cbn [length]; lia). cbn zeta.
  rewrite app_nil_l.
  set (hits := omap _ _). split; intros Hlen.
  - rewrite decide_False by lia.
    split; [apply sort_by_perm | apply sort_by_newest_first].
  - destruct (decide _) as [Hfull|Hfull]; [done|].
    assert (hits = []) as -> by (destruct hits; [done|cbn [length] in *; lia]).
    by rewrite take_nil.
Qed.

(** X16: with fewer matching files than [max_results] the search returns
    all of them, newest first; otherwise it returns the first [max_results]
    matching files of the walk (one, if [max_results] is smaller) in the
    order of the walk. *)
Theorem search_files_results {U : Unicode} query max_results search_dirs :
  let hits := all_hits query search_dirs in
  let results := search_files query max_results search_dirs in
  ((Z.of_nat (length hits) < max_results)%Z ->
   results ≡ₚ hits /\
   StronglySorted (fun a b => (hit_modified b <= hit_modified a)%Z) results) /\
  ((max_results <= Z.of_nat (length hits))%Z ->
   results = take (Z.to_nat (Z.max max_results 1)) hits).
Proof. apply search_files_spec. Qed.

Lemma search_files_results_witness :
  let notes := MdFile (lit "notes.md") (lit "notes") (lit "investigations/SCRS-7/notes.md")
                      (Some (lit "# CSPM finding")) 20 in
  let old := MdFile (lit "SCRS-3.md") (lit "SCRS-3") (lit "archive/2025-01/SCRS-3.md")
                    (Some (lit "cspm rule")) 10 in
  let guide := MdFile (lit "guide.md") (lit "guide") (lit "docs/guide.md")
                      (Some (lit "About CSPM")) 30 in
  let dirs := [Some [notes]; Some [old]; Some [guide]] in
  hit_path <$> search_files (lit "cspm") 2 dirs =
    [lit "investigations/SCRS-7/notes.md"; lit "archive/2025-01/SCRS-3.md"] /\
  hit_modified <$> search_files (lit "cspm") 50 dirs = [30; 20; 10]%Z.
Proof.
  cbn zeta. split.
  - match goal with |- context [search_files ?q ?m ?d] =>
      rewrite (proj2 (search_files_results q m d)) by (vm_compute; discriminate)
    end.
    vm_compute; reflexivity.
  - match goal with |- context [search_files ?q ?m ?d] =>
      pose proof (proj1 (search_files_results q m d)) as H
    end.
    cbn zeta in H. destruct H as [_ _]; [vm_compute; reflexivity|].
    vm_compute; reflexivity.
Defined.

(** *** [search_workspace] *)

Section WorkspaceLoops.
Context {U : Unicode}.
Context (query_lower : str).

Lemma workspace_files_loop_length files results :
  length results <= length (workspace_files_loop query_lower files results)
    <= 10 `max` S (length results).
Proof.
  revert results. induction files as [|f files IH]; intros results;
    cbn [workspace_files_loop]; [lia|].
  destruct (workspace_entry query_lower f) as [entry|]; [|by apply IH].
  cbn zeta. specialize (IH (results ++ [entry])).
  rewrite length_app in *. cbn [length] in *.
  destruct (Nat.leb_spec 10 (length results + 1)).
  - rewrite length_app. cbn [length]. lia.
  - lia.
Qed.

Lemma workspace_files_loop_nil files :
  workspace_files_loop query_lower files [] = [] <->
  Forall (fun f => workspace_entry query_lower f = None) files.
Proof.
  induction files as [|f files IH]; cbn [workspace_files_loop].
  { split; [constructor|done]. }
  rewrite Forall_cons.
  destruct (workspace_entry query_lower f) as [entry|]; [|rewrite IH; intuition].
  cbn zeta. cbn [app]. split; [|by intros [? _]].
  destruct (10 <=? _); [done|].
  pose proof (workspace_files_loop_length files [entry]) as Hlen.
  intros Hnil. rewrite Hnil in Hlen. cbn in Hlen. lia.
Qed.

Lemma workspace_files_loop_cons files results :
  results <> [] -> workspace_files_loop query_lower files results <> [].
Proof.
  intros Hne Hnil. pose proof (workspace_files_loop_length files results) as Hlen.
  rewrite Hnil in Hlen. destruct results; [done|]. cbn in Hlen. lia.
Qed.

End WorkspaceLoops.

Lemma workspace_results_length {U : Unicode} query search_dirs results :
  length (foldl (fun results dir =>
                   match dir with
                   | None => results
                   | Some files =>
                       workspace_files_loop (lower_str query) files results
                   end) results search_dirs)
    <= (9 + length search_dirs) `max` (length results + length search_dirs).
Proof.
  revert results. induction search_dirs as [|dir dirs IH]; intros results;
    cbn [foldl length]; [lia|].
  etrans; [apply IH|]. destruct dir as [files|]; [|lia].
  pose proof (workspace_files_loop_length (lower_str query) files results). lia.
Qed.

Lemma workspace_results_nil {U : Unicode} query search_dirs :
  workspace_results query search_dirs = [] <->
  Forall (fun f => workspace_entry (lower_str query) f = None) (walked search_dirs).
Proof.
  unfold workspace_results.
  induction search_dirs as [|[files|] dirs IH]; cbn [foldl]; [done| |done].
  replace (walked (Some files :: dirs)) with (files ++ walked dirs) by done.
  rewrite Forall_app, <- IH, <- workspace_files_loop_nil.
  destruct (workspace_files_loop (lower_str query) files []) eqn:Hloop;
    [intuition|].
  split; [|by intros [? _]]. intros Hnil. exfalso. revert Hnil.
  assert (l :: l0 <> []) as Hne by done. revert Hne.
  generalize (l :: l0). clear.
  induction dirs as [|[files|] dirs IH]; intros results Hne; cbn [foldl];
    [done| |by apply IH].
  apply IH. by apply workspace_files_loop_cons.
Qed.

Lemma workspace_entry_hit {U : Unicode} query_lower f :
  workspace_entry query_lower f = None <-> hit_of query_lower f = None.
Proof.
  unfold workspace_entry, hit_of.
  destruct (Str.startswith _ _); [done|].
  destruct (file_text f); [|done]. by destruct (negb _).
Qed.

(** X17: the chat tool lists at most twelve files: the count is tested
    after each [append] and ends the walk of one directory only, so each of
    the two later directories can add one more file to the ten. *)
Theorem search_workspace_at_most_twelve {U : Unicode} query search_dirs :
  length search_dirs = 3 ->
  length (workspace_results query search_dirs) <= 12.
Proof.
  intros Hdirs. unfold workspace_results.
  pose proof (workspace_results_length query search_dirs []) as Hlen.
  cbn [length] in Hlen. lia.
Qed.

Lemma search_workspace_at_most_twelve_witness :
  let f := MdFile (lit "a.md") (lit "a") (lit "docs/a.md") (Some (lit "cspm")) 0 in
  length (workspace_results (lit "cspm")
            [Some (replicate 11 f); Some [f; f]; Some [f; f]]) <= 12.
Proof.
  cbn zeta. apply search_workspace_at_most_twelve. reflexivity.
Defined.

(** The bound is reached: ten files of the first directory and one of each
    of the other two. *)
Example search_workspace_twelve {U : Unicode} :
  let f := MdFile (lit "a.md") (lit "a") (lit "docs/a.md") (Some (lit "cspm")) 0 in
  length (workspace_results (lit "cspm")
            [Some (replicate 11 f); Some [f; f]; Some [f; f]]) = 12.
Proof. vm_compute; reflexivity. Qed.

(** X18: the chat tool answers that no local file matches exactly when the
    search of the web pages finds nothing. *)
Theorem searches_agree_on_no_match {U : Unicode} query max_results search_dirs :
  search_workspace query search_dirs =
    lit "No local files found matching '" ++ query ++ lit "'." <->
  search_files query max_results search_dirs = [].
Proof.
  assert (Hfiles : search_files query max_results search_dirs = [] <->
                   all_hits query search_dirs = []).
  { destruct (search_files_spec query max_results search_dirs) as [Hlt Hge].
    cbn zeta in Hlt, Hge.
    destruct (Z.lt_ge_cases (Z.of_nat (length (all_hits query search_dirs)))
                max_results) as [Hlen|Hlen].
    - destruct (Hlt Hlen) as [Hperm _]. split; intros Hnil.
      + rewrite Hnil in Hperm. by apply Permutation_nil_l in Hperm.
      + rewrite Hnil in Hperm. by apply Permutation_nil_r in Hperm.
    - rewrite (Hge Hlen).
      destruct (all_hits query search_dirs) as [|h hits]; [by rewrite take_nil|].
      destruct (Z.to_nat (Z.max max_results 1)) eqn:Hcap; [lia|done]. }
  rewrite Hfiles. unfold all_hits.
  assert (Hnone : omap (hit_of (lower_str query)) (walked search_dirs) = [] <->
                  workspace_results query search_dirs = []).
  { rewrite workspace_results_nil. generalize (walked search_dirs).
    induction l as [|f files IH]; [done|].
    cbn [omap list_omap]. fold (omap (hit_of (lower_str query)) files).
    rewrite Forall_cons, workspace_entry_hit.
    destruct (hit_of (lower_str query) f);
      [split; [done|by intros [? _]] | rewrite IH; intuition]. }
  rewrite Hnone. unfold search_workspace.
  destruct (workspace_results query search_dirs) as [|entry results] eqn:Hres;
    [done|].
  split; [|done]. intros Heq. exfalso.
  assert (Hin : entry ∈ workspace_results query search_dirs)
    by (rewrite Hres; left).
  assert (Hstar : forall dirs acc,
            Forall (fun e => Str.startswith e (lit "**") = true) acc ->
            Forall (fun e => Str.startswith e (lit "**") = true)
              (foldl (fun results dir =>
                        match dir with
                        | None => results
                        | Some files =>
                            workspace_files_loop (lower_str query) files results
                        end) acc dirs)).
  { clear. induction dirs as [|[files|] dirs IH]; intros acc Hacc; cbn [foldl];
      [done| |by apply IH].
    apply IH. clear IH. revert acc Hacc.
    induction files as [|f files IH]; intros acc Hacc;
      cbn [workspace_files_loop]; [done|].
    destruct (workspace_entry (lower_str query) f) as [e|] eqn:He; [|by apply IH].
    cbn zeta.
    assert (Forall (fun e => Str.startswith e (lit "**") = true) (acc ++ [e])).
    { apply Forall_app. split; [done|]. apply Forall_singleton.
      unfold workspace_entry in He.
      destruct (Str.startswith (file_name f) _); [done|].
      destruct (file_text f); [|done]. destruct (negb _); [done|].
      injection He as <-. apply startswith_spec. by eexists. }
    destruct (10 <=? _); [done|]. by apply IH. }
  specialize (Hstar search_dirs [] (Forall_nil_2 _)).
  fold (workspace_results query search_dirs) in Hstar.
  rewrite Hres in Hstar. apply Forall_cons in Hstar as [Hentry _].
  apply startswith_spec in Hentry as [tl ->].
  destruct results; cbn in Heq; discriminate.
Qed.

(** ** The product areas of the investigations page *)

Lemma collect_areas_spec areas seen_areas acc :
  seen_areas = list_to_set acc -> NoDup acc ->
  NoDup (collect_areas areas seen_areas acc) /\
  forall x, x ∈ collect_areas areas seen_areas acc <-> x ∈ acc \/ x ∈ areas.
Proof.
  revert seen_areas acc.
  induction areas as [|area areas IH]; intros seen_areas acc Hseen Hnd;
    cbn [collect_areas].
  - split; [done|]. intros x. rewrite elem_of_nil. tauto.
  - case_bool_decide as Hin.
    + destruct (IH seen_areas acc Hseen Hnd) as [Hnd' Hel]. split; [done|].
      intros x. rewrite Hel, elem_of_cons. subst seen_areas.
      apply elem_of_list_to_set in Hin.
      split; [tauto|]. intros [?|[->|?]]; tauto.
    + assert (Hacc : area ∉ acc)
        by (intros ?; apply Hin; subst seen_areas; by apply elem_of_list_to_set).
      destruct (IH ({[area]} ∪ seen_areas) (acc ++ [area])) as [Hnd' Hel].
      * subst seen_areas. rewrite list_to_set_app_L. cbn.
        rewrite (right_id_L ∅ (∪)). apply (comm_L (∪)).
      * apply NoDup_app. split_and!; [done| |apply NoDup_singleton].
        intros x Hx ->%list_elem_of_singleton. done.
      * split; [done|]. intros x.
        rewrite Hel, elem_of_app, list_elem_of_singleton, elem_of_cons. tauto.
Qed.

Lemma area_key_ltb_asym a b : area_key_ltb a b = true -> area_key_ltb b a = false.
Proof.
  destruct a as [[] x], b as [[] y]; unfold area_key_ltb, pair_ltb; cbn; lia.
Qed.

Lemma area_key_ltb_trans a b c :
  area_key_ltb a b = false -> area_key_ltb b c = false -> area_key_ltb a c = false.
Proof.
  destruct a as [[] x], b as [[] y], c as [[] z];
    unfold area_key_ltb, pair_ltb; cbn; lia.
Qed.

(** The order of the area chips, among the keys of the rule table. *)
Lemma canonical_order_sorted :
  StronglySorted (in_order area_key_ltb area_sort_key false) canonical_order.
Proof.
  change canonical_order
    with ["siem"; "aap"; "workload_protection"; "cspm"; "vm"; "ciem"; "sast";
          "sca"; "iast"; "other"]%string.
  repeat (constructor; [|repeat (constructor; [vm_compute; reflexivity|])]);
    constructor.
Qed.

Lemma canonical_order_antisym a b :
  a ∈ canonical_order -> b ∈ canonical_order ->
  in_order area_key_ltb area_sort_key false a b ->
  in_order area_key_ltb area_sort_key false b a -> a = b.
Proof.
  intros Ha Hb.
  change canonical_order
    with ["siem"; "aap"; "workload_protection"; "cspm"; "vm"; "ciem"; "sast";
          "sca"; "iast"; "other"]%string in Ha, Hb.
  cases_of_list Ha; cases_of_list Hb;
    first [ reflexivity | intros H1 H2; vm_compute in H1, H2; discriminate ].
Qed.

(** Two lists of rule keys with the same elements, both without duplicates
    and sorted like the chips, are equal. *)
Lemma sorted_areas_unique l1 l2 :
  Forall (fun a => a ∈ canonical_order) l1 ->
  StronglySorted (in_order area_key_ltb area_sort_key false) l1 ->
  StronglySorted (in_order area_key_ltb area_sort_key false) l2 ->
  l1 ≡ₚ l2 -> l1 = l2.
Proof.
  intros Hmem Hs1. revert l2.
  induction Hs1 as [|x l1 Hs1 IH Hx]; intros l2 Hs2 Hperm.
  - by apply Permutation_nil_l in Hperm.
  - apply Forall_cons in Hmem as [Hxm Hmem].
    destruct Hs2 as [|y l2 Hs2 Hy]; [by apply Permutation_nil_r in Hperm|].
    assert (x = y) as <-.
    { assert (Hxin : x ∈ y :: l2) by (rewrite <- Hperm; left).
      assert (Hyin : y ∈ x :: l1) by (rewrite Hperm; left).
      apply elem_of_cons in Hxin as [?|Hxin]; [done|].
      apply elem_of_cons in Hyin as [?|Hyin]; [done|].
      rewrite Forall_forall in Hx, Hy, Hmem.
      apply canonical_order_antisym; auto. }
    f_equal. apply IH; [done..|]. by apply (inj (cons x)).
Qed.

(** X19: the investigations page and the archive page offer the product
    areas in the same way: the areas of the listed investigations, each
    once, in the order of the rule table (which ends with "other"), although
    one page sorts the areas as they occur and the other filters the rule
    table. *)
Theorem product_areas_like_area_order {U : Unicode} (texts : list str) :
  let areas := detect_product_area <$> texts in
  product_areas areas = area_order (list_to_set areas).
Proof.
  cbn zeta. set (areas := detect_product_area <$> texts).
  assert (Hkeys : Forall (fun a => a ∈ canonical_order) areas).
  { apply Forall_fmap, Forall_forall. intros t _. apply detect_product_area_key. }
  destruct (collect_areas_spec areas ∅ []) as [Hnd Hel]; [done|constructor|].
  unfold product_areas, area_order. fold canonical_order.
  apply sorted_areas_unique.
  - rewrite Forall_forall in Hkeys. apply Forall_forall. intros a Ha.
    rewrite sort_by_perm in Ha. apply Hel in Ha as [Ha|Ha]; [by apply elem_of_nil in Ha|].
    by apply Hkeys.
  - apply sort_by_sorted; [apply area_key_ltb_asym | apply area_key_ltb_trans].
  - apply strongly_sorted_sublist with canonical_order;
      [apply sublist_filter | apply canonical_order_sorted].
  - apply NoDup_Permutation.
    + by rewrite sort_by_perm.
    + apply NoDup_filter. apply (bool_decide_unpack _). vm_compute. exact I.
    + intros a. rewrite sort_by_perm, Hel, list_elem_of_filter, elem_of_list_to_set.
      rewrite elem_of_nil. rewrite Forall_forall in Hkeys. split.
      * intros [[]|Ha]. split; [done|by apply Hkeys].
      * intros [Ha _]. by right.
Qed.

(** ** The folders of the archive *)

Lemma digit_facts c :
  Chars.ascii_digit c = true ->
  Chars.is_ascii c = true /\ is_c_space c = false /\
  N.eqb c "-"%ch = false /\ N.eqb c "+"%ch = false /\
  (0 <= digit_value c <= 9)%Z.
Proof. unfold is_c_space, digit_value. intros Hd. split_and!; chars. Qed.

Lemma int_digits_all s need_digit acc :
  Forall (fun c => Chars.ascii_digit c = true) s -> s <> [] ->
  int_digits s need_digit acc =
    Some (foldl (fun a c => 10 * a + digit_value c)%Z acc s).
Proof.
  intros Hs. revert need_digit acc.
  induction Hs as [|c s Hc Hs IH]; intros need_digit acc Hne; [done|].
  cbn [int_digits foldl]. rewrite Hc.
  destruct s as [|c' s]; [done|]. by apply IH.
Qed.

Lemma strip_by_none f s :
  Forall (fun c => f c = false) s -> Str.strip_by f s = s.
Proof.
  assert (Hl : forall s, Forall (fun c => f c = false) s -> Str.lstrip_by f s = s).
  { intros [|c t]; [done|]. intros [Hc _]%Forall_cons. cbn. by rewrite Hc. }
  intros Hs. unfold Str.strip_by, Str.rstrip_by.
  rewrite (Hl s Hs), Hl, reverse_involutive; [done|].
  by apply Forall_reverse.
Qed.

Lemma split_char_none sep (a : str) : sep ∉ a -> split_char sep a = [a].
Proof.
  induction a as [|c a IH]; [done|]. intros [Hc Ha]%not_elem_of_cons.
  cbn [split_char]. destruct (N.eqb_spec c sep); [done|]. by rewrite (IH Ha).
Qed.

Lemma split_char_sep sep (a b : str) :
  sep ∉ a -> split_char sep (a ++ sep :: b) = a :: split_char sep b.
Proof.
  induction a as [|c a IH]; intros Ha.
  - cbn [app split_char]. by rewrite N.eqb_refl.
  - apply not_elem_of_cons in Ha as [Hc Ha].
    cbn [app split_char]. destruct (N.eqb_spec c sep); [done|]. by rewrite (IH Ha).
Qed.

(** [int] on a string of ASCII digits. *)
Lemma int_all_digits {U : Unicode} s :
  Forall (fun c => Chars.ascii_digit c = true) s -> s <> [] -> length s <= 4300 ->
  int s = Some (foldl (fun a c => 10 * a + digit_value c)%Z 0%Z s).
Proof.
  intros Hs Hne Hlen. unfold int.
  assert (forallb Chars.is_ascii s = true) as ->.
  { clear Hne Hlen. induction Hs as [|c s Hc _ IH]; [done|]. cbn [forallb].
    by rewrite IH, (proj1 (digit_facts c Hc)). }
  cbv zeta.
  rewrite strip_by_none
    by (eapply Forall_impl; [exact Hs|]; intros c Hc; by apply digit_facts).
  destruct s as [|c s]; [done|].
  pose proof Hs as [Hc _]%Forall_cons.
  destruct (digit_facts c Hc) as (_ & _ & -> & -> & _).
  rewrite (proj2 (Nat.ltb_ge _ _)); [by rewrite int_digits_all|].
  etrans; [apply length_filter|done].
Qed.

(** A decimal digit: its value, and the ASCII digit that [int] reads for
    it. *)
Lemma decimal_facts {U : Unicode} c :
  Chars.is_digit c = true ->
  c <> "-"%ch /\
  Chars.ascii_digit ("0"%ch + Z.to_N (decimal_value c))%N = true /\
  digit_value ("0"%ch + Z.to_N (decimal_value c))%N = decimal_value c /\
  (if (c <? 127)%N then c = ("0"%ch + Z.to_N (decimal_value c))%N
   else Chars.is_ascii c = false /\ Chars.is_space c = false).
Proof.
  unfold Chars.is_digit, decimal_value, digit_value, Chars.is_space, Chars.decimal.
  destruct (Chars.is_ascii c) eqn:Ha.
  - destruct (Chars.ascii_digit c) eqn:Hd; [|done]. intros _.
    cbn [default from_option id]. rewrite ?N2Z.id.
    destruct (N.ltb_spec c 127); split_and!; chars.
  - destruct (uni_decimal c) as [d|] eqn:Hd; [|done]. intros _.
    cbn [default from_option id]. rewrite ?N2Z.id.
    pose proof (uni_decimal_value c d Hd). pose proof (uni_decimal_space c d Hd).
    destruct (N.ltb_spec c 127); split_and!; chars.
Qed.

(** What [int] makes of a string of decimal digits before it reads it. *)
Lemma decimal_digits_to_ascii {U : Unicode} s :
  Forall (fun c => Chars.is_digit c = true) s ->
  (if forallb Chars.is_ascii s then s else decimal_and_space_to_ascii s)
  = (fun c => "0"%ch + Z.to_N (decimal_value c))%N <$> s.
Proof.
  intros Hs.
  assert (Ht : decimal_and_space_to_ascii s
               = (fun c => "0"%ch + Z.to_N (decimal_value c))%N <$> s).
  { induction Hs as [|c s Hc _ IH]; [done|].
    cbn [decimal_and_space_to_ascii fmap list_fmap].
    destruct (decimal_facts c Hc) as (_ & _ & _ & Hc').
    destruct (c <? 127)%N; [by rewrite IH, <- Hc'|].
    destruct Hc' as [Ha ->]. unfold Chars.is_digit in Hc.
    unfold decimal_value. destruct (Chars.decimal c) as [d|]; [|done].
    cbn [default]. by rewrite IH, N2Z.id. }
  destruct (forallb Chars.is_ascii s) eqn:Hascii; [|done].
  rewrite forallb_forall in Hascii. clear Ht.
  induction Hs as [|c s Hc _ IH]; [done|]. cbn [fmap list_fmap].
  destruct (decimal_facts c Hc) as (_ & _ & _ & Hc').
  rewrite <- IH by (intros x Hx; apply Hascii; by right).
  destruct (c <? 127)%N; [by rewrite <- Hc'|].
  destruct Hc' as [Ha _]. rewrite Hascii in Ha by by left. done.
Qed.

(** [int] on a string of decimal digits. *)
Lemma int_decimal_digits {U : Unicode} s :
  Forall (fun c => Chars.is_digit c = true) s -> s <> [] -> length s <= 4300 ->
  int s = Some (foldl (fun a c => 10 * a + decimal_value c)%Z 0%Z s).
Proof.
  intros Hs Hne Hlen.
  set (f := (fun c => "0"%ch + Z.to_N (decimal_value c))%N).
  assert (Hf : Forall (fun c => Chars.ascii_digit c = true) (f <$> s)).
  { apply Forall_fmap. eapply Forall_impl; [exact Hs|].
    intros c Hc. by apply decimal_facts. }
  assert (Hint : int s = int (f <$> s)).
  { unfold int. rewrite (decimal_digits_to_ascii s Hs). fold f.
    assert (forallb Chars.is_ascii (f <$> s) = true) as ->; [|done].
    apply forallb_forall. intros c Hc%list_elem_of_In.
    rewrite Forall_forall in Hf. by apply digit_facts, Hf. }
  rewrite Hint, (int_all_digits _ Hf); [|by destruct s|by rewrite length_fmap].
  f_equal. clear Hne Hlen Hf Hint. generalize 0%Z.
  induction Hs as [|c s Hc _ IH]; intros acc; [done|].
  cbn [fmap list_fmap foldl]. rewrite IH. do 2 f_equal.
  by apply decimal_facts.
Qed.

(** X20: the year and the month of the date of an issue are read back from
    the name of its archive folder: the key of the folder is (year, month),
    whatever character separates them in the date and whatever decimal
    digits, ASCII or not, the date is written with. *)
Theorem folder_key_round_trip {U : Unicode} y1 y2 y3 y4 sep m1 m2 rest otherwise :
  Forall (fun c => Chars.is_digit c = true) [y1; y2; y3; y4; m1; m2] ->
  3 <= length rest ->
  _month_sort_key
    (folder_name (y1 :: y2 :: y3 :: y4 :: sep :: m1 :: m2 :: rest) otherwise) =
  (1000 * decimal_value y1 + 100 * decimal_value y2 + 10 * decimal_value y3
     + decimal_value y4,
   10 * decimal_value m1 + decimal_value m2)%Z.
Proof.
  intros Hd Hrest.
  assert (Hy : Forall (fun c => Chars.is_digit c = true) [y1; y2; y3; y4])
    by (repeat (apply Forall_cons in Hd as [? Hd]); by repeat constructor).
  assert (Hm : Forall (fun c => Chars.is_digit c = true) [m1; m2])
    by (repeat (apply Forall_cons in Hd as [? Hd]); by repeat constructor).
  assert (Hminus : forall l : str,
            Forall (fun c => Chars.is_digit c = true) l -> "-"%ch ∉ l).
  { intros l Hl Hin. rewrite Forall_forall in Hl.
    by destruct (decimal_facts _ (Hl _ Hin)) as (? & _). }
  unfold folder_name. cbn [truthy length].
  rewrite (proj2 (Nat.leb_le 10 _)) by lia.
  cbn [andb negb Str.slice Nat.sub take drop].
  rewrite !take_0. norm_chars. cbn [app].
  unfold _month_sort_key.
  change [m1; m2; "-"%ch; y1; y2; y3; y4] with ([m1; m2] ++ "-"%ch :: [y1; y2; y3; y4]).
  rewrite split_char_sep by by apply Hminus.
  rewrite split_char_none by by apply Hminus.
  cbn [lookup list_lookup mbind option_bind].
  rewrite (int_decimal_digits _ Hy), (int_decimal_digits _ Hm)
    by (done || (cbn [length]; lia)).
  cbn -[decimal_value Z.mul Z.add]. f_equal; lia.
Qed.

Lemma folder_key_round_trip_witness :
  _month_sort_key (folder_name (lit "2026-01-22T10:31:07.000+0000") (lit "unknown"))
  = (2026, 1)%Z.
Proof.
  apply (folder_key_round_trip "2"%ch "0"%ch "2"%ch "6"%ch "-"%ch "0"%ch "1"%ch
           (lit "-22T10:31:07.000+0000") (lit "unknown")).
  - repeat constructor.
  - cbn. lia.
Defined.

(** The same date in Arabic-Indic digits. *)
Example folder_key_other_digits :
  _month_sort_key
    (folder_name ([1634; 1632; 1634; 1638] ++ lit "-" ++ [1632; 1633]
                  ++ lit "-22T10:31:07")%N (lit "unknown"))
  = (2026, 1)%Z.
Proof. by vm_compute. Qed.

Lemma month_key_ltb_asym a b : month_key_ltb a b = true -> month_key_ltb b a = false.
Proof.
  destruct a as [x1 x2], b as [y1 y2]. unfold month_key_ltb, pair_ltb. cbn.
  destruct (Z.eqb_spec x1 y1), (Z.eqb_spec y1 x1); lia.
Qed.

Lemma month_key_ltb_trans a b c :
  month_key_ltb a b = false -> month_key_ltb b c = false ->
  month_key_ltb a c = false.
Proof.
  destruct a as [x1 x2], b as [y1 y2], c as [z1 z2].
  unfold month_key_ltb, pair_ltb. cbn.
  destruct (Z.eqb_spec x1 y1), (Z.eqb_spec y1 z1), (Z.eqb_spec x1 z1); lia.
Qed.

Lemma month_key_no_hyphen {U : Unicode} name :
  "-"%ch ∉ name -> _month_sort_key name = (0, 0)%Z.
Proof. intros Hname. unfold _month_sort_key. by rewrite split_char_none. Qed.

(** X21: the archive lists the directories of the archive directory, each
    as often as it is listed there, by the key that [_month_sort_key] reads
    from their names, the number after the first hyphen and then the number
    before it, from the greatest key to the smallest; a name without a
    hyphen has the key (0, 0). *)
Theorem archive_months_newest_first {U : Unicode} entries :
  let months := get_archive_months (Some entries) in
  month_name <$> months ≡ₚ
    entry_name <$> filter (fun d => entry_is_dir d = true) entries /\
  StronglySorted
    (fun a b => month_key_le (_month_sort_key b) (_month_sort_key a))
    (month_name <$> months) /\
  (forall name, "-"%ch ∉ name -> _month_sort_key name = (0, 0)%Z).
Proof.
  cbn zeta. unfold get_archive_months.
  set (key := fun d => _month_sort_key (entry_name d)).
  rewrite <- list_fmap_compose.
  change (month_name ∘ month_of) with entry_name.
  split_and!.
  - apply fmap_Permutation, filter_Permutation, sort_by_perm.
  - assert (Hs : StronglySorted (in_order month_key_ltb key true)
                   (filter (fun d => entry_is_dir d = true)
                           (sort_by month_key_ltb key true entries))).
    { apply strongly_sorted_sublist with (sort_by month_key_ltb key true entries);
        [apply sublist_filter|].
      apply sort_by_sorted; [apply month_key_ltb_asym | apply month_key_ltb_trans]. }
    induction Hs as [|d ds _ IH Hd]; [constructor|].
    cbn [fmap list_fmap]. constructor; [done|].
    apply Forall_fmap. eapply Forall_impl; [exact Hd|].
    intros d'. unfold in_order, key, compose. cbn beta.
    generalize (_month_sort_key (entry_name d)) (_month_sort_key (entry_name d')).
    intros [x1 x2] [y1 y2]. unfold month_key_ltb, pair_ltb, month_key_le.
    cbn [fst snd]. destruct (Z.eqb_spec x1 y1); lia.
  - apply month_key_no_hyphen.
Qed.

(** A name with the year first is read the other way round, and a name
    whose parts are no numbers has the key (0, 0). *)
Example year_first_key {U : Unicode} :
  _month_sort_key (lit "2026-01") = (1, 2026)%Z /\
  _month_sort_key (lit "01-2026") = (2026, 1)%Z /\
  _month_sort_key (lit "jan-2026") = (0, 0)%Z /\
  _month_sort_key (lit "-") = (0, 0)%Z.
Proof. by vm_compute. Qed.

(** ** The list of investigations *)

Lemma fmap_sublist {A B} (f : A -> B) l1 l2 :
  l1 `sublist_of` l2 -> f <$> l1 `sublist_of` f <$> l2.
Proof. induction 1; cbn; by constructor. Qed.

Lemma str_ltb_asym a b : str_ltb a b = true -> str_ltb b a = false.
Proof.
  revert b. induction a as [|x a IH]; intros [|y b]; cbn [str_ltb]; try done.
  rewrite (N.eqb_sym y x).
  destruct (N.eqb x y); [apply IH|].
  intros ?%N.ltb_lt. apply N.ltb_ge. lia.
Qed.

Lemma str_ltb_trans a b c :
  str_ltb a b = false -> str_ltb b c = false -> str_ltb a c = false.
Proof.
  revert a b. induction c as [|z c IH]; intros a b; [by destruct a|].
  destruct b as [|y b]; [by destruct a|].
  destruct a as [|x a]; [done|]. cbn [str_ltb].
  destruct (N.eqb_spec x y) as [->|Hxy], (N.eqb_spec y z) as [->|Hyz];
    try rewrite N.eqb_refl.
  - apply IH.
  - by destruct (N.eqb_spec y z).
  - by destruct (N.eqb_spec x z).
  - intros Hxy'%N.ltb_ge Hyz'%N.ltb_ge.
    destruct (N.eqb_spec x z) as [->|Hxz]; [lia|]. apply N.ltb_ge. lia.
Qed.

Section Stable.
Context {A K : Type} (lt : K -> K -> bool) (key : A -> K) (S : relation A).
Hypothesis lt_asym : forall a b, lt a b = true -> lt b a = false.
Hypothesis lt_trans : forall a b c, lt a b = false -> lt b c = false -> lt a c = false.

(** Two elements are in the order of the sort, and in their order before the
    sort, [S], if their keys are equal. *)
Let stable (reverse : bool) (a b : A) : Prop :=
  in_order lt key reverse a b /\
  (lt (key a) (key b) = false -> lt (key b) (key a) = false -> S a b).

Lemma sort_insert_stable reverse x l :
  Forall (S x) l -> StronglySorted (stable reverse) l ->
  StronglySorted (stable reverse) (sort_insert lt key reverse x l).
Proof using Type*.
  intros Hx Hl. induction Hl as [|y l Hl IH Hy]; cbn [sort_insert].
  - by repeat constructor.
  - apply Forall_cons in Hx as [Hxy Hx].
    destruct (if reverse then _ else _) eqn:Hlt.
    + constructor; [by apply IH|]. rewrite sort_insert_perm.
      constructor; [|done]. split.
      * unfold in_order. destruct reverse; by apply lt_asym.
      * intros H1 H2. destruct reverse; congruence.
    + constructor; [by constructor|]. constructor.
      * split; [by destruct reverse|done].
      * rewrite Forall_forall in Hy, Hx. apply Forall_forall. intros z Hz.
        split; [|by intros; apply Hx].
        destruct (Hy z Hz) as [Hyz _]. unfold in_order in *.
        destruct reverse; eauto.
Qed.

Lemma sort_by_stable reverse l :
  StronglySorted S l -> StronglySorted (stable reverse) (sort_by lt key reverse l).
Proof using Type*.
  induction 1 as [|x l Hl IH Hx]; [constructor|].
  cbn [sort_by foldr]. apply sort_insert_stable; [|done].
  fold (sort_by lt key reverse l). by rewrite sort_by_perm.
Qed.

End Stable.

Lemma strongly_sorted_fmap {A B} (f : A -> B) (R : relation B) l :
  StronglySorted R (f <$> l) <-> StronglySorted (fun a b => R (f a) (f b)) l.
Proof.
  induction l as [|x l IH]; cbn [fmap list_fmap].
  - split; constructor.
  - by rewrite !StronglySorted_cons, IH, Forall_fmap.
Qed.

Section InvestigationLoop.
Context {U : Unicode} (fromtimestamp : Z -> N).

Lemma investigations_loop_keys dirs invs :
  investigations_loop fromtimestamp dirs = inr invs ->
  inv_key <$> invs = dir_name <$> dirs.
Proof.
  revert invs. induction dirs as [|d dirs IH]; intros invs; cbn [investigations_loop].
  - by intros [= <-].
  - unfold investigation_of.
    destruct (dir_notes d) as [[e|text]|]; [done| |];
      (destruct (investigations_loop fromtimestamp dirs) as [e|invs']; [done|]);
      intros [= <-]; cbn [fmap list_fmap]; f_equal; by apply IH.
Qed.

Lemma investigations_loop_returns dirs :
  Forall (fun d => readable d = true) dirs ->
  exists invs, investigations_loop fromtimestamp dirs = inr invs.
Proof.
  induction 1 as [|d dirs Hd _ [invs IH]]; cbn [investigations_loop]; [by eexists|].
  unfold investigation_of, readable in *. rewrite IH.
  destruct (dir_notes d) as [[e|text]|]; [done| |]; by eexists.
Qed.

Lemma investigations_loop_raises dirs :
  Exists (fun d => readable d = false) dirs ->
  exists e, investigations_loop fromtimestamp dirs = inl e.
Proof.
  induction 1 as [d dirs Hd|d dirs _ [e IH]]; cbn [investigations_loop].
  - unfold investigation_of, readable in *.
    destruct (dir_notes d) as [[e|text]|]; try done. by eexists.
  - rewrite IH. destruct (investigation_of fromtimestamp d); by eexists.
Qed.

End InvestigationLoop.

(** X22: when the notes of every visible directory can be read, the list of
    investigations has the visible directories, each once, from the one
    modified last to the one modified first, those without files at the
    end, and directories modified at the same time by name from the last to
    the first; when the notes of a visible directory cannot be read, the
    function raises the exception of the read. *)
Theorem investigations_order {U : Unicode} fromtimestamp entries :
  NoDup (dir_name <$> entries) ->
  (Forall (fun d => visible d = true -> readable d = true) entries ->
   exists invs,
     get_investigations fromtimestamp (Some entries) = inr invs /\
     NoDup (inv_key <$> invs) /\
     (forall k, k ∈ inv_key <$> invs <->
                exists d, d ∈ entries /\ dir_name d = k /\ dir_is_dir d = true /\
                          Str.startswith k (lit ".") = false) /\
     StronglySorted
       (fun a b => (modified_key b <= modified_key a)%N /\
                   (modified_key a = modified_key b ->
                    str_ltb (inv_key a) (inv_key b) = false))
       invs) /\
  (Exists (fun d => visible d = true /\ readable d = false) entries ->
   exists e, get_investigations fromtimestamp (Some entries) = inl e).
Proof.
  intros Hnd. unfold get_investigations.
  set (dirs := filter (fun d => visible d = true)
                      (sort_by str_ltb dir_name true entries)).
  assert (Hdirs : dirs ≡ₚ filter (fun d => visible d = true) entries)
    by apply filter_Permutation, sort_by_perm.
  split.
  - intros Hread.
    destruct (investigations_loop_returns fromtimestamp dirs) as [invs0 Hloop].
    { apply Forall_forall. intros d Hd. rewrite Hdirs in Hd.
      apply list_elem_of_filter in Hd as [Hvis Hd].
      rewrite Forall_forall in Hread. by apply Hread. }
    rewrite Hloop. eexists. split; [done|].
    pose proof (investigations_loop_keys _ _ _ Hloop) as Hk.
    assert (Hkeys : inv_key <$> sort_by N.ltb modified_key true invs0
                    ≡ₚ dir_name <$> filter (fun d => visible d = true) entries)
      by by rewrite sort_by_perm, Hk, Hdirs.
    split_and!.
    + rewrite Hkeys.
      eapply sublist_NoDup; [exact Hnd|apply fmap_sublist, sublist_filter].
    + intros k. rewrite Hkeys, list_elem_of_fmap. split.
      * intros (d & -> & [Hvis Hd]%list_elem_of_filter). exists d.
        unfold visible in Hvis.
        destruct (dir_is_dir d), (Str.startswith (dir_name d) (lit ".")); done.
      * intros (d & Hd & <- & Hdir & Hdot). exists d. split; [done|].
        apply list_elem_of_filter. split; [|done]. unfold visible.
        by rewrite Hdir, Hdot.
    + eapply strongly_sorted_impl;
        [|apply (sort_by_stable N.ltb modified_key
                   (fun a b => str_ltb (inv_key a) (inv_key b) = false))].
      * cbn beta. intros a b [Hab Heq]. unfold in_order in Hab.
        apply N.ltb_ge in Hab. split; [done|].
        intros Hm. apply Heq; apply N.ltb_ge; lia.
      * intros a b ?%N.ltb_lt. apply N.ltb_ge. lia.
      * intros a b c ?%N.ltb_ge ?%N.ltb_ge. apply N.ltb_ge. lia.
      * apply (strongly_sorted_fmap inv_key (fun x y => str_ltb x y = false)).
        rewrite Hk.
        apply (strongly_sorted_fmap dir_name (fun x y => str_ltb x y = false)).
        apply strongly_sorted_sublist with (sort_by str_ltb dir_name true entries);
          [apply sublist_filter|].
        apply (sort_by_sorted str_ltb dir_name str_ltb_asym str_ltb_trans true).
  - intros Hex.
    destruct (investigations_loop_raises fromtimestamp dirs) as [e Hloop].
    { apply Exists_exists in Hex as (d & Hd & Hvis & Hread).
      apply Exists_exists. exists d. split; [|done].
      rewrite Hdirs. by apply list_elem_of_filter. }
    rewrite Hloop. by eexists.
Qed.

Lemma investigations_order_witness :
  let a := InvDir (lit "SCRS-7") true (Some (inr (lit "# CSPM finding"))) false
                  [lit "notes.md"] [5; 9]%Z (lit "investigating", lit "") in
  let b := InvDir (lit "SCRS-9") true None false [] [] (lit "waiting", lit "") in
  let c := InvDir (lit ".git") true (Some (inl ReadOSError)) false [] [7]%Z
                  (lit "done", lit "") in
  exists invs,
    get_investigations Z.to_N (Some [a; b; c]) = inr invs /\
    NoDup (inv_key <$> invs).
Proof.
  cbn zeta.
  match goal with |- exists invs, get_investigations ?f (Some ?l) = _ /\ _ =>
    pose proof (investigations_order f l) as H
  end.
  destruct H as [(invs & Heq & Hnd & _) _].
  - apply (bool_decide_unpack _). vm_compute. exact I.
  - repeat constructor; by vm_compute.
  - by exists invs.
Defined.

(** The list of the witness, and the exception once the notes of a visible
    directory are no UTF-8 text. *)
Example investigations_of_witness {U : Unicode} :
  let a := InvDir (lit "SCRS-7") true None false [lit "notes.md"] [5; 9]%Z
                  (lit "investigating", lit "") in
  let b := InvDir (lit "SCRS-9") true (Some (inl UnicodeDecodeError)) true [] []
                  (lit "waiting", lit "") in
  let c := InvDir (lit ".git") true (Some (inl ReadOSError)) false [] [7]%Z
                  (lit "done", lit "") in
  (exists invs, get_investigations Z.to_N (Some [a; c]) = inr invs /\
                inv_key <$> invs = [lit "SCRS-7"]) /\
  get_investigations Z.to_N (Some [a; b; c]) = inl UnicodeDecodeError.
Proof. cbn zeta. split; [eexists; split; [reflexivity|]|]; by vm_compute. Qed.

(** ** Atlassian documents *)

Lemma json_ind (P : json -> Prop) :
  P JNull -> (forall b, P (JBool b)) -> (forall n, P (JInt n)) ->
  (forall f, P (JFloat f)) -> (forall s, P (JStr s)) ->
  (forall items, Forall P items -> P (JList items)) ->
  (forall entries, Forall (fun e => P e.2) entries -> P (JDict entries)) ->
  forall v, P v.
Proof.
  intros Hnull Hbool Hint Hfloat Hstr Hlist Hdict.
  fix IH 1. intros [|b|n|f|s|items|entries].
  - exact Hnull.
  - apply Hbool.
  - apply Hint.
  - apply Hfloat.
  - apply Hstr.
  - apply Hlist. induction items as [|c items IHitems]; constructor;
      [apply IH | exact IHitems].
  - apply Hdict. induction entries as [|[k v] entries IHentries]; constructor;
      [apply IH | exact IHentries].
Qed.

Lemma joined_map_result (rec : json -> result json) items :
  (fix joined (items : list json) : result str :=
     match items with
     | [] => Ok []
     | c :: items' =>
         part ← rec c;
         rest ← joined items';
         match part with
         | JStr s => Ok (s ++ rest)
         | _ => Raise TypeError
         end
     end) items
  = parts ← map_result rec items; join_strs parts.
Proof.
  induction items as [|c items IH]; [done|].
  cbn [map_result]. rewrite IH. destruct (rec c) as [part|e]; [|done]. cbn.
  destruct (map_result rec items) as [parts|e]; [|done]. cbn.
  by destruct (join_strs parts).
Qed.

Lemma result_fmap_bind {A B C} (f : B -> C) (m : result A) (g : A -> result B) :
  f <$> (m ≫= g) = m ≫= (fun a => f <$> g a).
Proof. by destruct m. Qed.

Section Strings.
Context (rec : json -> result json).
Hypothesis rec_str : forall s, rec (JStr s) = Ok (JStr s).

Lemma join_chars (s : str) :
  (parts ← map_result rec ((fun c => JStr [c]) <$> s); join_strs parts) = Ok s.
Proof using Type*.
  induction s as [|c s IH]; [done|].
  cbn [fmap list_fmap map_result]. rewrite rec_str. cbn.
  fold (list_fmap _ _ (fun c => JStr [c]) s).
  change (list_fmap _ _ (fun c => JStr [c]) s) with ((fun c => JStr [c]) <$> s).
  destruct (map_result rec ((fun c => JStr [c]) <$> s)) as [parts|e]; [|done].
  cbn in *. by rewrite IH.
Qed.

Lemma join_keys (entries : list (str * json)) :
  (parts ← map_result rec ((fun e => JStr e.1) <$> entries); join_strs parts)
  = Ok (concat (fst <$> entries)).
Proof using Type*.
  induction entries as [|[k v] entries IH]; [done|].
  cbn [fmap list_fmap map_result fst]. rewrite rec_str. cbn.
  change (list_fmap _ _ (fun e => JStr e.1) entries)
    with ((fun e : str * json => JStr e.1) <$> entries).
  destruct (map_result rec ((fun e => JStr e.1) <$> entries)) as [parts|e]; [|done].
  cbn in *. by rewrite IH.
Qed.

(** The [join] over the content, by the structure and as the source has it. *)
Lemma of_content_iterate content :
  match content with
  | JList items => JStr <$> (parts ← map_result rec items; join_strs parts)
  | JStr s => Ok (JStr s)
  | JDict keys => Ok (JStr (concat (fst <$> keys)))
  | _ => Raise TypeError
  end
  = (items ← iterate content; parts ← map_result rec items; JStr <$> join_strs parts).
Proof using Type*.
  destruct content as [| | | |s|items|entries]; try done; cbn [iterate mbind result_bind].
  - pose proof (join_chars s) as H.
    destruct (map_result rec ((fun c => JStr [c]) <$> s)) as [parts|e]; [|done].
    cbn in *. by rewrite H.
  - by destruct (map_result rec items).
  - pose proof (join_keys entries) as H.
    destruct (map_result rec ((fun e => JStr e.1) <$> entries)) as [parts|e]; [|done].
    cbn in *. by rewrite H.
Qed.

End Strings.

Lemma content_of_get {R} (found : json -> R) (missing : R) entries :
  (fix content_of (es : list (str * json)) : R :=
     match es with
     | [] => missing
     | (k, v) :: es' =>
         if bool_decide (k = lit "content") then found v else content_of es'
     end) entries
  = match dict_get (lit "content") entries with
    | Some content => found content
    | None => missing
    end.
Proof.
  induction entries as [|[k v] entries IH]; [done|].
  cbn [dict_get]. by case_bool_decide.
Qed.

(** The equations of the source. *)
Lemma extract_node_eq node : extract_node node = extract_body extract_node node.
Proof.
  destruct node as [| | | |s|items|entries]; try done.
  - cbn [extract_node extract_body]. rewrite joined_map_result.
    by destruct (map_result extract_node items).
  - cbn [extract_node extract_body].
    destruct (is_str _ _); [done|].
    rewrite content_of_get. destruct (dict_get (lit "content") entries) as [c|]; [|done].
    rewrite <- (of_content_iterate extract_node) by done.
    destruct c; try done. by rewrite joined_map_result.
Qed.

Lemma _extract_adf_text_eq node :
  _extract_adf_text node =
    if negb (json_truthy node) then Ok (JStr [])
    else extract_body _extract_adf_text node.
Proof.
  assert (Hstr : forall s, _extract_adf_text (JStr s) = Ok (JStr s))
    by (by intros []).
  destruct node as [| | | |s|items|entries]; try done.
  - cbn [_extract_adf_text extract_body]. rewrite joined_map_result.
    destruct (negb _); [done|]. by destruct (map_result _extract_adf_text items).
  - cbn [_extract_adf_text extract_body]. destruct (negb _); [done|].
    destruct (is_str _ _); [done|].
    rewrite content_of_get. destruct (dict_get (lit "content") entries) as [c|]; [|done].
    rewrite <- (of_content_iterate _extract_adf_text) by done.
    destruct c; try done. by rewrite joined_map_result.
Qed.

Lemma map_result_ext {A B} (f g : A -> result B) l :
  Forall (fun x => f x = g x) l -> map_result f l = map_result g l.
Proof.
  induction 1 as [|x l Hx _ IH]; [done|]. cbn [map_result]. by rewrite Hx, IH.
Qed.

Lemma dict_get_elem key entries v :
  dict_get key entries = Some v -> (key, v) ∈ entries.
Proof.
  induction entries as [|[k v'] entries IH]; [done|]. cbn [dict_get].
  case_bool_decide as Hk.
  - intros [= ->]. subst k. left.
  - intros ?%IH. by right.
Qed.

(** A value on which extraction is the identity or gives [""]. *)
Lemma extract_node_falsy node :
  json_truthy node = false -> extract_node node = Ok (JStr []).
Proof.
  destruct node as [|[]|n|[]|[]|[]|[]]; try done.
Qed.

Lemma extract_agree node :
  _extract_adf_text node = extract_node node /\
  match node with
  | JList items => Forall (fun c => _extract_adf_text c = extract_node c) items
  | _ => True
  end.
Proof.
  induction node as [|b|n|f|s|items IH|entries IH] using json_ind.
  - done.
  - by destruct b.
  - by destruct n.
  - by destruct f.
  - by destruct s.
  - assert (Hitems : Forall (fun c => _extract_adf_text c = extract_node c) items)
      by (eapply Forall_impl; [exact IH|]; by intros c [? _]).
    split; [|done].
    rewrite _extract_adf_text_eq, extract_node_eq.
    destruct items as [|c items]; [done|].
    cbn [json_truthy negb extract_body]. by rewrite (map_result_ext _ _ _ Hitems).
  - split; [|done].
    rewrite _extract_adf_text_eq, extract_node_eq.
    destruct entries as [|e entries]; [done|].
    cbn [json_truthy negb extract_body]. destruct (is_str _ _); [done|].
    destruct (dict_get (lit "content") (e :: entries)) as [content|] eqn:Hc; [|done].
    apply dict_get_elem in Hc. rewrite Forall_forall in IH.
    destruct (IH _ Hc) as [_ Hitems]. cbn [snd] in Hitems.
    rewrite <- (of_content_iterate _extract_adf_text) by (by intros []).
    rewrite <- (of_content_iterate extract_node) by done.
    destruct content; try done. by rewrite (map_result_ext _ _ _ Hitems).
Qed.

Lemma extract_adf_text_extract_text adf_content :
  _extract_adf_text adf_content = extract_text adf_content.
Proof.
  unfold extract_text. destruct (negb (json_truthy adf_content)) eqn:Hf.
  - rewrite _extract_adf_text_eq. by rewrite Hf.
  - apply extract_agree.
Qed.

(** X23: the extractor of the chat tools and the extractor of the two
    scripts return the same result on every value: the check for an empty
    value that [_extract_adf_text] repeats at each level changes nothing. *)
Theorem extractors_agree adf_content :
  _extract_adf_text adf_content = extract_text adf_content.
Proof. apply extract_adf_text_extract_text. Qed.

Lemma adf_node_ind' (P : json -> Prop) :
  (forall entries s,
     dict_get (lit "type") entries = Some (JStr (lit "text")) ->
     dict_get (lit "text") entries = Some (JStr s) -> P (JDict entries)) ->
  (forall entries items,
     is_str (dict_get (lit "type") entries) (lit "text") = false ->
     dict_get (lit "content") entries = Some (JList items) ->
     Forall P items -> P (JDict entries)) ->
  (forall entries,
     is_str (dict_get (lit "type") entries) (lit "text") = false ->
     dict_get (lit "content") entries = None -> P (JDict entries)) ->
  forall v, adf_node v -> P v.
Proof.
  intros Htext Hblock Hleaf. fix IH 2.
  intros v [entries s Ht Hs|entries items Ht Hc Hitems|entries Ht Hc].
  - by eapply Htext.
  - eapply Hblock; [done..|].
    clear Hc. induction Hitems as [|c items Hc' _ IHitems]; [constructor|].
    constructor; [by apply IH | exact IHitems].
  - by apply Hleaf.
Qed.

Lemma join_strs_ok parts :
  Forall (fun p => exists s, p = JStr s) parts -> exists s, join_strs parts = Ok s.
Proof.
  induction 1 as [|p parts [s ->] _ [rest IH]]; [by eexists|].
  cbn [join_strs]. rewrite IH. by eexists.
Qed.

Lemma map_result_ok {A B} (f : A -> result B) (Q : B -> Prop) l :
  Forall (fun x => exists y, f x = Ok y /\ Q y) l ->
  exists ys, map_result f l = Ok ys /\ Forall Q ys.
Proof.
  induction 1 as [|x l (y & Hy & HQ) _ (ys & IH & HQs)]; [by exists []|].
  cbn [map_result]. rewrite Hy, IH. exists (y :: ys). by split; [|constructor].
Qed.

(** X24: on a document in the Atlassian format, text nodes with a string
    as text and content that is a list of nodes, the extractors raise no
    exception and return a string. *)
Theorem extract_text_of_document doc :
  adf_node doc ->
  exists s, extract_text doc = Ok (JStr s) /\ _extract_adf_text doc = Ok (JStr s).
Proof.
  intros Hdoc. rewrite extract_adf_text_extract_text.
  enough (exists s, extract_text doc = Ok (JStr s)) as [s Hs] by (by exists s).
  assert (Hnode : exists s, extract_node doc = Ok (JStr s)).
  { induction Hdoc as [entries s Ht Hs|entries items Ht Hc IH|entries Ht Hc]
      using adf_node_ind'; rewrite extract_node_eq; cbn [extract_body].
    - rewrite Ht, Hs. cbn. rewrite bool_decide_eq_true_2 by done. by eexists.
    - rewrite Ht, Hc. cbn [iterate mbind result_bind].
      destruct (map_result_ok extract_node (fun p => exists s, p = JStr s) items)
        as (parts & -> & Hparts).
      { eapply Forall_impl; [exact IH|]. intros c [s Hs]. by eexists _; split; eauto. }
      cbn [mbind result_bind].
      destruct (join_strs_ok parts Hparts) as [s ->]. by eexists.
    - rewrite Ht, Hc. by eexists. }
  unfold extract_text. destruct (negb (json_truthy doc)); [by eexists|done].
Qed.

Lemma extract_text_of_document_witness :
  exists s,
    extract_text
      (JDict [(lit "type", JStr (lit "doc"));
              (lit "content",
               JList [JDict [(lit "type", JStr (lit "paragraph"));
                             (lit "content",
                              JList [JDict [(lit "type", JStr (lit "text"));
                                            (lit "text", JStr (lit "CSPM rule"))]])]])])
    = Ok (JStr s).
Proof.
  match goal with |- exists s, extract_text ?doc = _ =>
    destruct (extract_text_of_document doc) as (s & Hs & _); [|by exists s]
  end.
  eapply adf_block; [reflexivity|reflexivity|]. apply Forall_singleton.
  eapply adf_block; [reflexivity|reflexivity|]. apply Forall_singleton.
  eapply adf_text; reflexivity.
Defined.

(** ** The [.env] file *)

Lemma load_env_foldl {U : Unicode} (lines : list str) (env : gmap str str) :
  foldl (fun env line =>
           match env_entry line with
           | Some (key, value) => <[key := value]> env
           | None => env
           end) env lines
  = list_to_map (reverse (omap env_entry lines)) ∪ env.
Proof.
  revert env. induction lines as [|line lines IH]; intros env; cbn [foldl].
  - cbn. by rewrite (left_id_L ∅ (∪)).
  - rewrite IH. cbn [omap list_omap]. fold (omap env_entry lines).
    destruct (env_entry line) as [[key value]|]; [|done].
    rewrite reverse_cons, list_to_map_app, <- (assoc_L (∪)). f_equal.
    cbn. by rewrite insert_empty, <- insert_union_singleton_l.
Qed.

(** X25: the scripts take the last assignment of a variable in the file. *)
Theorem load_env_last_wins {U : Unicode} text before key value after :
  env_entries text = before ++ (key, value) :: after ->
  key ∉ after.*1 ->
  load_env (Some text) !! key = Some value.
Proof.
  intros Hentries Hafter. unfold load_env. rewrite load_env_foldl.
  rewrite (right_id_L ∅ (∪)). fold (env_entries text).
  rewrite Hentries, reverse_app, reverse_cons, <- (assoc_L (++)), list_to_map_app.
  rewrite lookup_union_r.
  - cbn. apply lookup_insert_eq.
  - apply not_elem_of_list_to_map_1. by rewrite fmap_reverse, elem_of_reverse.
Qed.

Lemma load_env_last_wins_witness :
  load_env (Some (lit "# credentials
ATLASSIAN_EMAIL = old@example.com
ATLASSIAN_EMAIL=new@example.com
JIRA_PROJECT_KEY=SCRS
")) !! lit "ATLASSIAN_EMAIL" = Some (lit "new@example.com").
Proof.
  eapply (load_env_last_wins _ [(lit "ATLASSIAN_EMAIL", lit "old@example.com")]
            _ _ [(lit "JIRA_PROJECT_KEY", lit "SCRS")]).
  - vm_compute; reflexivity.
  - apply (bool_decide_unpack _). vm_compute. exact I.
Defined.

Lemma load_env_lines_inv {U : Unicode} (lines : list str) environ environ' :
  load_env_lines lines environ = inr environ' ->
  environ' = environ ∪ list_to_map (omap env_entry lines).
Proof.
  revert environ. induction lines as [|line lines IH]; intros environ Hload;
    cbn [load_env_lines omap list_omap] in *.
  - injection Hload as <-. cbn. by rewrite (right_id_L ∅ (∪)).
  - fold (omap env_entry lines).
    destruct (env_entry line) as [[key value]|]; [|by apply IH].
    cbn [list_to_map foldr uncurry].
    case_bool_decide as Hset.
    + rewrite (IH _ Hload). apply map_eq. intros i. rewrite !lookup_union.
      destruct (decide (key = i)) as [<-|Hi].
      * rewrite lookup_insert_eq. destruct Hset as [v ->].
        by destruct (list_to_map (omap env_entry lines) !! key).
      * by rewrite lookup_insert_ne.
    + destruct (putenv environ key value) as [e|environ''] eqn:Hput; [done|].
      unfold putenv in Hput. destruct (_ || _); [done|].
      case_bool_decide; [done|]. injection Hput as <-.
      rewrite (IH _ Hload). apply map_eq. intros i. rewrite !lookup_union.
      destruct (decide (key = i)) as [<-|Hi].
      * rewrite !lookup_insert_eq.
        apply eq_None_not_Some in Hset. rewrite Hset.
        by destruct (list_to_map (omap env_entry lines) !! key).
      * by rewrite !lookup_insert_ne.
Qed.

Lemma load_env_lines_returns {U : Unicode} (lines : list str) environ :
  Forall assignable (omap env_entry lines) ->
  exists environ', load_env_lines lines environ = inr environ'.
Proof.
  revert environ. induction lines as [|line lines IH]; intros environ Hok;
    cbn [load_env_lines omap list_omap] in *; [by eexists|].
  fold (omap env_entry lines) in Hok.
  destruct (env_entry line) as [[key value]|]; [|by apply IH].
  apply Forall_cons in Hok as [(Hk & Hv & Hne) Hok]. cbn [fst snd] in *.
  case_bool_decide; [by apply IH|].
  unfold putenv. rewrite !bool_decide_eq_false_2 by done. cbn [orb].
  by apply IH.
Qed.

(** X26: the application loads the file without an exception when no
    assignment has an empty name or a null character; it leaves the
    variables of the environment as they are and gives every other variable
    of the file the value of its first assignment. *)
Theorem load_env_file_first_wins {U : Unicode} text environ :
  Forall assignable (env_entries text) ->
  exists environ',
    _load_env_file (Some text) environ = inr environ' /\
    (forall key value, environ !! key = Some value -> environ' !! key = Some value) /\
    (forall before key value after,
       env_entries text = before ++ (key, value) :: after ->
       key ∉ before.*1 -> environ !! key = None ->
       environ' !! key = Some value) /\
    (forall key, environ !! key = None -> key ∉ (env_entries text).*1 ->
                 environ' !! key = None).
Proof.
  intros Hok. cbn [_load_env_file].
  destruct (load_env_lines_returns (file_lines text) environ Hok) as [environ' Hload].
  exists environ'. split; [done|].
  apply load_env_lines_inv in Hload as ->. fold (env_entries text). split_and!.
  - intros key value Hkey. by apply lookup_union_Some_l.
  - intros before key value after -> Hbefore Hkey.
    rewrite lookup_union_r by done. rewrite list_to_map_app, lookup_union_r.
    + cbn. apply lookup_insert_eq.
    + by apply not_elem_of_list_to_map_1.
  - intros key Hkey Hnot. rewrite lookup_union_r by done.
    by apply not_elem_of_list_to_map_1.
Qed.

Lemma load_env_file_first_wins_witness :
  exists environ',
    _load_env_file (Some (lit "GEMINI_MODEL=a
GEMINI_MODEL=b
OLLAMA_MODEL=c
")) {[ lit "OLLAMA_MODEL" := lit "preset" ]} = inr environ' /\
    environ' !! lit "OLLAMA_MODEL" = Some (lit "preset").
Proof.
  match goal with |- exists e, _load_env_file (Some ?t) ?env = _ /\ _ =>
    destruct (load_env_file_first_wins t env) as (environ' & Hload & Hkeep & _)
  end.
  - apply (bool_decide_unpack _). vm_compute. exact I.
  - exists environ'. split; [done|]. apply Hkeep. apply lookup_singleton_eq.
Defined.

(** X27: the application and the scripts read the same value for every
    variable that the environment does not set, when no variable is
    assigned twice in the file. *)
Theorem env_readers_agree {U : Unicode} text environ environ' key :
  NoDup (env_entries text).*1 ->
  _load_env_file (Some text) environ = inr environ' ->
  environ !! key = None ->
  environ' !! key = load_env (Some text) !! key.
Proof.
  intros Hnd Hload Hkey. unfold load_env. rewrite load_env_foldl.
  rewrite (right_id_L ∅ (∪)). fold (env_entries text).
  rewrite <- (list_to_map_proper (env_entries text) (reverse (env_entries text)))
    by (done || by rewrite reverse_Permutation).
  cbn [_load_env_file] in Hload. apply load_env_lines_inv in Hload as ->.
  fold (env_entries text). by rewrite lookup_union_r.
Qed.

Lemma env_readers_agree_witness :
  let text := lit "ATLASSIAN_DOMAIN=example.atlassian.net
JIRA_PROJECT_KEY = SCRS
" in
  exists environ',
    _load_env_file (Some text) ∅ = inr environ' /\
    environ' !! lit "JIRA_PROJECT_KEY" = load_env (Some text) !! lit "JIRA_PROJECT_KEY".
Proof.
  cbn zeta.
  match goal with |- exists e, _load_env_file (Some ?t) _ = _ /\ _ =>
    destruct (load_env_lines_returns (file_lines t) ∅) as [environ' Hload]
  end.
  { apply (bool_decide_unpack _). vm_compute. exact I. }
  exists environ'. split; [exact Hload|].
  eapply env_readers_agree; [|exact Hload|done].
  apply (bool_decide_unpack _). vm_compute. exact I.
Defined.

(** ** The summary of an archived ticket *)

(** X28: the summary that is inserted into an archived ticket does not
    change its title: the archive page and the ticket page still show the
    heading of the first line. *)
Theorem summary_keeps_title {U : Unicode} (key h rest ai_summary stem : str) :
  Forall (fun x => x <> newline) h ->
  Exists (fun x => Chars.is_space x = false) h ->
  match rest with [] => True | x :: _ => x = newline end ->
  let md := lit "# " ++ h ++ rest in
  file_title stem (with_summary key md ai_summary) = Str.strip h /\
  file_title stem md = Str.strip h /\
  (length h + 2 <= 2000 ->
   archive_title stem (Some (with_summary key md ai_summary)) = Str.strip h /\
   archive_title stem (Some md) = Str.strip h).
Proof.
  intros Hh Hex Hrest. cbn zeta.
  assert (Hline : Forall (fun x => x <> newline) (lit "# " ++ h)).
  { apply Forall_app. split; [|done]. by repeat constructor. }
  assert (Hsum : exists rest',
             with_summary key (lit "# " ++ h ++ rest) ai_summary
             = lit "# " ++ h ++ rest' /\
             match rest' with [] => True | x :: _ => x = newline end).
  { unfold with_summary. destruct (truthy ai_summary); [|by exists rest].
    cbn zeta. rewrite (app_assoc (lit "# ") h rest).
    destruct rest as [|x rest].
    - rewrite app_nil_r. cbn [split_max]. rewrite (cut_line_end _ Hline).
      cbn [lookup list_lookup default]. rewrite <- app_assoc. by eexists.
    - subst x. cbn [split_max]. rewrite (cut_line_newline _ _ Hline).
      cbn [lookup list_lookup default]. rewrite <- app_assoc. by eexists. }
  destruct Hsum as (rest' & -> & Hrest').
  unfold file_title. rewrite !heading_title_line by done.
  split_and!; [done..|]. intros Hlen. by rewrite !archive_title_line.
Qed.

Lemma summary_keeps_title_witness :
  file_title (lit "SCRS-7")
    (with_summary (lit "SCRS-7") (lit "# SCRS-7: CSPM finding missing

## Metadata") (lit "The rule was disabled."))
  = lit "SCRS-7: CSPM finding missing".
Proof.
  refine (proj1 (summary_keeps_title (lit "SCRS-7")
                   (lit "SCRS-7: CSPM finding missing") (lit "

## Metadata") (lit "The rule was disabled.") (lit "SCRS-7") _ _ _)).
  - apply (bool_decide_unpack _). vm_compute. exact I.
  - apply (bool_decide_unpack _). vm_compute. exact I.
  - reflexivity.
Defined.

(** ** The tree of the documentation *)

Lemma fs_entry_ind (P : fs_entry -> Prop) :
  (forall name items, Forall P items -> P (FsDir name items)) ->
  (forall name rel, P (FsFile name rel)) ->
  forall item, P item.
Proof.
  intros Hdir Hfile. fix IH 1. intros [name items|name rel].
  - apply Hdir. induction items as [|i items IHitems]; constructor;
      [apply IH | exact IHitems].
  - apply Hfile.
Qed.

Lemma sort_insert_paired {A B K} (lt : K -> K -> bool) (key : A -> K)
    (f : A -> B) reverse x l :
  sort_insert lt fst reverse (key x, f x) ((fun a => (key a, f a)) <$> l)
  = (fun a => (key a, f a)) <$> sort_insert lt key reverse x l.
Proof.
  induction l as [|y l IH]; [done|]. cbn [fmap list_fmap sort_insert fst].
  destruct (if reverse then _ else _); [|done].
  cbn [fmap list_fmap]. f_equal. apply IH.
Qed.

Lemma sort_by_paired {A B K} (lt : K -> K -> bool) (key : A -> K)
    (f : A -> B) reverse l :
  sort_by lt fst reverse ((fun a => (key a, f a)) <$> l)
  = (fun a => (key a, f a)) <$> sort_by lt key reverse l.
Proof.
  induction l as [|x l IH]; [done|].
  cbn [fmap list_fmap sort_by foldr].
  change (foldr (sort_insert lt fst reverse) [])
    with (sort_by (A:=K * B) lt fst reverse).
  change (list_fmap _ _ (fun a => (key a, f a)) l)
    with ((fun a => (key a, f a)) <$> l).
  rewrite IH. apply sort_insert_paired.
Qed.

(** The equation of the source for a directory. *)
Lemma get_docs_tree_eq name items :
  node_of (FsDir name items) =
    if hidden name then None
    else
      match get_docs_tree (Some items) with
      | [] => None
      | children => Some (DocDir name children)
      end.
Proof.
  cbn [node_of get_docs_tree]. destruct (hidden name); [done|].
  assert (Hpaired :
            (fix paired (items : list fs_entry) : list (str * option doc_node) :=
               match items with
               | [] => []
               | i :: items' => (fs_name i, node_of i) :: paired items'
               end) items
            = (fun i => (fs_name i, node_of i)) <$> items).
  { induction items as [|i items' IH]; [done|]. cbn [fmap list_fmap]. by f_equal. }
  rewrite Hpaired, sort_by_paired.
  assert (Homap : forall l : list fs_entry,
            omap snd ((fun i => (fs_name i, node_of i)) <$> l) = omap node_of l).
  { induction l as [|i l IH]; [done|]. cbn [fmap list_fmap omap list_omap snd].
    fold (omap node_of l). rewrite <- IH. done. }
  rewrite Homap. by destruct (omap node_of _).
Qed.

Lemma hidden_stem name :
  hidden name = false -> is_md name = true -> hidden (md_stem name) = false.
Proof.
  unfold hidden, is_md, md_stem. intros Hh [_ Hlen%Nat.ltb_lt]%andb_true_iff.
  destruct name as [|c name]; [cbn in Hlen; lia|].
  cbn [length] in *. replace (S (length name) - 3) with (S (length name - 3)) by lia.
  cbn [take]. revert Hh. norm_chars. cbn [Str.startswith].
  assert (Hnil : forall s, Str.startswith s [] = true) by (by intros []).
  by rewrite !Hnil.
Qed.

Lemma node_of_ok item node : node_of item = Some node -> doc_ok node.
Proof.
  revert node. induction item as [name items IH|name rel] using fs_entry_ind;
    intros node.
  - rewrite get_docs_tree_eq. destruct (hidden name) eqn:Hh; [done|].
    cbn [get_docs_tree].
    assert (Hall : Forall doc_ok (omap node_of (sort_by str_ltb fs_name false items))).
    { apply Forall_forall. intros n (i & Hi & Hn)%list_elem_of_omap.
      rewrite sort_by_perm in Hi. rewrite Forall_forall in IH. by eapply IH. }
    destruct (omap node_of _) as [|c children] eqn:Hc; [done|].
    intros [= <-]. by constructor.
  - cbn [node_of]. destruct (hidden name) eqn:Hh; [done|].
    destruct (is_md name) eqn:Hmd; [|done]. intros [= <-].
    constructor. by apply hidden_stem.
Qed.

Lemma doc_ok_pages node : doc_ok node -> 0 < pages node.
Proof.
  revert node. fix IH 2. intros node [name path Hh|name children Hh Hne Hok].
  - cbn. lia.
  - cbn [pages]. destruct Hok as [|c children Hc Hcs]; [done|].
    pose proof (IH c Hc). lia.
Qed.

(** X29: the tree of the documentation shows no name that starts with a
    dot or an underscore and no directory without a page below it. *)
Theorem docs_tree_has_pages items node :
  node ∈ get_docs_tree (Some items) ->
  doc_ok node /\ 0 < pages node.
Proof.
  cbn [get_docs_tree]. intros (i & _ & Hn)%list_elem_of_omap.
  apply node_of_ok in Hn. split; [done|]. by apply doc_ok_pages.
Qed.

Lemma docs_tree_has_pages_witness :
  let guides := FsDir (lit "guides")
                  [FsFile (lit "triage.md") (lit "docs/guides/triage.md");
                   FsDir (lit "drafts") [FsFile (lit "todo.txt") (lit "docs/guides/drafts/todo.txt")]] in
  let node := DocDir (lit "guides") [DocFile (lit "triage") (lit "docs/guides/triage.md")] in
  doc_ok node /\ 0 < pages node.
Proof.
  cbn zeta.
  apply (docs_tree_has_pages
           [FsFile (lit "_index.md") (lit "docs/_index.md");
            FsDir (lit "guides")
              [FsFile (lit "triage.md") (lit "docs/guides/triage.md");
               FsDir (lit "drafts")
                 [FsFile (lit "todo.txt") (lit "docs/guides/drafts/todo.txt")]]]).
  vm_compute. left.
Defined.

(** ** Characters that are not ASCII *)

(** The examples of this part read the rows of [unicode_sample]: 233 is the
    e with an acute accent, 160 the no-break space, 133 the next-line
    control, 383 the long s, 8490 the Kelvin sign, 304 the capital I with a
    dot, 931 the capital sigma and 1639 the Arabic-Indic digit seven. *)

(** A letter is a character of the word it touches: after an accented
    letter [\bsiem\b] does not match, and the next rule decides. *)
Example letter_before_the_word :
  detect_product_area ([233%N] ++ lit "siem cspm vulnerability") = "cspm"%string /\
  detect_product_area (lit "siem cspm vulnerability") = "siem"%string.
Proof. by vm_compute. Qed.

(** A no-break space is a blank for [\s]. *)
Example no_break_space_is_blank :
  detect_product_area (lit "org" ++ [160%N] ++ lit "deletion request about cspm")
  = "other"%string /\
  detect_product_area (lit "detection" ++ [160%N] ++ lit "rule") = "siem"%string /\
  detect_product_area (lit "detection_rule") = "other"%string.
Proof. by vm_compute. Qed.

(** The long s, the Kelvin sign and the capital I with a dot match the
    letters s, k and i of a pattern. [str.lower] makes two characters of the
    capital I with a dot, so that the lower case of a text may be classified
    in another way than the text. *)
Example folded_letters :
  detect_product_area ([383%N] ++ lit "iem") = "siem"%string /\
  detect_product_area (lit "wor" ++ [8490%N] ++ lit "load protection")
  = "workload_protection"%string /\
  detect_product_area (lit "c" ++ [304%N] ++ lit "em") = "ciem"%string /\
  lower_str (lit "c" ++ [304%N] ++ lit "em") = lit "ci" ++ [775%N] ++ lit "em" /\
  detect_product_area (lower_str (lit "c" ++ [304%N] ++ lit "em")) = "other"%string.
Proof. by vm_compute. Qed.

(** [str.lower] writes a final sigma at the end of a word. *)
Example final_sigma :
  lower_str ([931; 931]%N ++ lit " A" ++ [931%N]) = [963; 962]%N ++ lit " a" ++ [962%N].
Proof. by vm_compute. Qed.

(** A Slack handle goes on over an accented letter, and a ticket number
    may be written in other decimal digits; a ticket key after a letter is
    no reference. *)
Example references_beyond_ascii :
  (fun gs : list source_group =>
     (fun g : source_group => (key g, display <$> refs g)) <$> gs)
    <$> extract_sources (lit "#caf" ++ [233%N] ++ lit "-one")
  = Ok [("slack"%string, [lit "#caf" ++ [233%N] ++ lit "-one"])] /\
  (fun gs : list source_group =>
     (fun g : source_group => (key g, display <$> refs g)) <$> gs)
    <$> extract_sources (lit "see " ++ [233%N] ++ lit "ZD-7 and ZD-" ++ [1639%N])
  = Ok [("jira"%string, [lit "ZD-" ++ [1639%N]])].
Proof. by vm_compute. Qed.

(** [str.strip] takes the no-break space from the ends of a context. *)
Example context_without_no_break_space :
  _get_context_for_match [[160%N] ++ lit "see ZD-7" ++ [160%N]] (lit "ZD-7") []
  = lit "see".
Proof. by vm_compute. Qed.

(** A heading of blanks only: [read_md_file] finds the title on the next
    line, since [\s+] goes over the line break, and [get_investigations],
    which looks at the first line, finds the empty title; with an ASCII
    space alone the first line is no heading. *)
Example heading_of_blanks :
  let raw := lit "# " ++ [160%N; newline] ++ lit "foo" in
  file_title (lit "notes") raw = lit "foo" /\
  investigation_title (lit "SCRS-7") (Some raw) = [] /\
  investigation_title (lit "SCRS-7") (Some (lit "# " ++ [newline] ++ lit "foo"))
  = lit "SCRS-7".
Proof. by vm_compute. Qed.

(** The blanks around a name and a value of the [.env] file are those of
    [str.strip]. *)
Example env_entry_blanks :
  env_entry (lit "KEY" ++ [160%N] ++ lit "=" ++ [133%N] ++ lit "v")
  = Some (lit "KEY", lit "v").
Proof. by vm_compute. Qed.
